(** * live-voice-ai: the voice-chat relay (backend/main.py, backend/realtime_api.py)

    A shallow embedding of the WebSocket endpoint [voice_chat_endpoint], of the
    orchestrator class [VoiceChatSession] and of the upstream session class
    [GeminiLiveSession], together with the cooperative scheduling of their
    asyncio tasks, and the properties of the specification checked against
    them. *)

From Stdlib Require Import String Ascii.
From Stdlib Require DecimalString.
From stdpp Require Import base tactics option list numbers.

Set Default Proof Using "Type".

(** ** Python values used by the program *)

(** A Python [str] is a sequence of Unicode code points, [bytes] a sequence
    of octets. *)
Definition str := list N.
Definition bytes := list N.

Module Py.

(** The code points of an ASCII literal. *)
Definition lit (s : string) : str :=
  map N_of_ascii (list_ascii_of_string s).

(** [str.isspace] on one code point: the characters [str.strip()] removes
    (CPython's [_PyUnicode_IsWhitespace]). *)
Definition isspace (c : N) : bool :=
  ((9 <=? c) && (c <=? 13) || (28 <=? c) && (c <=? 32)
   || (c =? 133) || (c =? 160) || (c =? 5760)
   || (8192 <=? c) && (c <=? 8202)
   || (c =? 8232) || (c =? 8233) || (c =? 8239) || (c =? 8287)
   || (c =? 12288))%N.

Fixpoint lstrip (s : str) : str :=
  match s with
  | c :: s' => if isspace c then lstrip s' else s
  | [] => []
  end.

Definition rstrip (s : str) : str := rev (lstrip (rev s)).

(** [s.strip()]. *)
Definition strip (s : str) : str := rstrip (lstrip s).

(** Truth value of a [str] / [bytes] / [list]: non-empty. *)
Definition truthy {A} (l : list A) : bool :=
  match l with [] => false | _ :: _ => true end.

(** Exceptions the program meets. [CancelledError] is a [BaseException] and
    is not matched by [except Exception]. *)
Inductive Exn :=
| WebSocketDisconnect
| JSONDecodeError
| TimeoutError
| AttributeError
| TypeError
| ValueError
| BinasciiError
| OtherError.

(** What [json.loads] returns. Of a float only [f != 0.0] is observed. *)
#[local] Unset Elimination Schemes.
Inductive json :=
| JNone
| JBool (b : bool)
| JInt (n : Z)
| JFloat (nonzero : bool)
| JStr (s : str)
| JList (l : list json)
| JDict (d : list (str * json)).
#[local] Set Elimination Schemes.

(** [bool(v)]. *)
Definition truth (v : json) : bool :=
  match v with
  | JNone => false
  | JBool b => b
  | JInt n => negb (n =? 0)%Z
  | JFloat nz => nz
  | JStr s => truthy s
  | JList l => truthy l
  | JDict d => truthy d
  end.

(** [v == s] for a string literal [s]. *)
Definition eq_str (v : json) (s : str) : bool :=
  match v with
  | JStr t => bool_decide (t = s)
  | _ => false
  end.

(** The value bound to [key] in the items of a dict (keys are unique). *)
Fixpoint dict_lookup (d : list (str * json)) (key : str) : option json :=
  match d with
  | [] => None
  | (k, v) :: d' => if bool_decide (k = key) then Some v else dict_lookup d' key
  end.

(** [d.get(key, default)]. *)
Definition dict_get (d : list (str * json)) (key : str) (default : json) : json :=
  match dict_lookup d key with
  | Some v => v
  | None => default
  end.

(** [message.get(key, default)]: only a dict has [get]. *)
Definition get (message : json) (key : str) (default : json) : Exn + json :=
  match message with
  | JDict d => inr (dict_get d key default)
  | _ => inl AttributeError
  end.

End Py.

(** The [base64] module: [b64encode(b).decode("utf-8")] never fails on
    bytes; [b64decode] raises on an argument that is not a string
    ([TypeError]), on a string with a character that is not ASCII
    ([ValueError]) and on one that is not valid base64 ([binascii.Error]).
    The library is not part of the repository; the model is parametric in
    its coding of ASCII strings. *)
Class Base64 := {
  b64encode : bytes -> str;
  b64decode : str -> option bytes
}.

Definition base64_b64decode `{Base64} (v : Py.json) : Py.Exn + bytes :=
  match v with
  | Py.JStr s =>
      if forallb (fun c => c <? 128)%N s then
        match b64decode s with
        | Some b => inr b
        | None => inl Py.BinasciiError
        end
      else inl Py.ValueError
  | _ => inl Py.TypeError
  end.

(** ** The upstream service's messages ([google.genai.types])

    Only the fields the receive loop reads. Every field is optional; an
    object of one of these classes is always true. *)
Module types.

Record Transcription := { text : option str }.
Record Blob := { data : option bytes }.
Record Part := { inline_data : option Blob }.
Record Content := { parts : option (list Part) }.
Record LiveServerContent := {
  input_transcription : option Transcription;
  output_transcription : option Transcription;
  model_turn : option Content;
  turn_complete : option bool
}.
Record LiveServerMessage := { server_content : option LiveServerContent }.

End types.

(** ** Queue items and client events *)

Inductive Speaker := user | assistant.

(** An item of [_transcript_queue]: the dict [{"type": ..., "text": ...}]. *)
Record Transcript := { t_type : Speaker; t_text : str }.

(** An item of [_audio_queue]: a chunk, or [None], the end-of-turn sentinel. *)
Definition AudioItem := option bytes.

(** What the endpoint puts in an [error] event: the fixed text of the
    missing-key branch, or [str(e)]. *)
Inductive ErrorMessage :=
| api_key_not_configured
| str_of (e : Py.Exn).

(** The JSON messages sent to the client, by their ["type"]. *)
Inductive ClientEvent :=
| session_ready
| transcript (text : str) (sender : Speaker)
| response_audio_delta (delta : str)
| audio_done
| session_reset_done
| error (message : ErrorMessage).

(** ** The receive loop's body ([_run_session], lines 71-100)

    What one server message puts on the two queues, in the order of the
    [put] calls. Both queues are unbounded, so a [put] never suspends. *)

(** Lines 75-90: [if content.X_transcription: text = ...; if text and
    text.strip(): put({"type": who, "text": text.strip()})]. *)
Definition transcription_puts (who : Speaker) (tr : option types.Transcription)
  : list Transcript :=
  match tr with
  | Some t =>
      match types.text t with
      | Some text =>
          if Py.truthy text && Py.truthy (Py.strip text)
          then [ {| t_type := who; t_text := Py.strip text |} ]
          else []
      | None => []
      end
  | None => []
  end.

(** Lines 95-96: [if part.inline_data and part.inline_data.data: put(data)]. *)
Definition part_puts (part : types.Part) : list AudioItem :=
  match types.inline_data part with
  | Some blob =>
      match types.data blob with
      | Some d => if Py.truthy d then [Some d] else []
      | None => []
      end
  | None => []
  end.

(** Lines 93-96: [if content.model_turn and content.model_turn.parts: for
    part in ...]. *)
Definition model_turn_puts (mt : option types.Content) : list AudioItem :=
  match mt with
  | Some c =>
      match types.parts c with
      | Some ps => flat_map part_puts ps
      | None => []
      end
  | None => []
  end.

(** Lines 99-100: [if content.turn_complete: put(None)]. *)
Definition turn_complete_puts (tc : option bool) : list AudioItem :=
  match tc with
  | Some true => [None]
  | _ => []
  end.

Definition transcript_puts (response : types.LiveServerMessage) : list Transcript :=
  match types.server_content response with
  | Some content =>
      transcription_puts user (types.input_transcription content)
      ++ transcription_puts assistant (types.output_transcription content)
  | None => []
  end.

Definition audio_puts (response : types.LiveServerMessage) : list AudioItem :=
  match types.server_content response with
  | Some content =>
      model_turn_puts (types.model_turn content)
      ++ turn_complete_puts (types.turn_complete content)
  | None => []
  end.

(** ** asyncio objects *)
Module asyncio.

(** [asyncio.Event] with at most one coroutine in [wait()]. [_waiter] is
    that coroutine's future: [Some false] while pending, [Some true] once
    [set()] has resolved it (a later [clear()] does not undo that). *)
Record Event := { _value : bool; _waiter : option bool }.

Definition Event_new : Event := {| _value := false; _waiter := None |}.
Definition set (e : Event) : Event :=
  {| _value := true; _waiter := (fun _ => true) <$> _waiter e |}.
Definition clear (e : Event) : Event :=
  {| _value := false; _waiter := _waiter e |}.
(** Entering [wait()]: returns at once when the event is set. *)
Definition wait (e : Event) : Event :=
  {| _value := _value e; _waiter := Some (_value e) |}.
(** Leaving [wait()], by its result or by [wait_for]'s timeout. *)
Definition leave (e : Event) : Event :=
  {| _value := _value e; _waiter := None |}.

End asyncio.

(** ** [GeminiLiveSession] (realtime_api.py) *)

(** The object [client.aio.live.connect(...)] yields. *)
Inductive AsyncSession := live_session.

(** Where the [_run_session] coroutine is suspended. *)
Inductive RunSessionPc :=
| in_connect     (* line 59, entering [async with ...connect(...)] *)
| in_receive     (* line 67, [async for response in session.receive()] *)
| run_finished.

(** The task [_session_task]; [must_cancel]: [cancel()] was requested and
    [CancelledError] is thrown into the coroutine when it next runs. *)
Record SessionTask := { rs_pc : RunSessionPc; must_cancel : bool }.

Record GeminiLiveSession := {
  session : option AsyncSession;
  _audio_queue : list AudioItem;
  _transcript_queue : list Transcript;
  _session_task : option SessionTask;
  _is_running : bool;
  _session_ready : asyncio.Event
}.

Module Gemini.

(** [__init__], lines 18-29. *)
Definition new : GeminiLiveSession :=
  {| session := None; _audio_queue := []; _transcript_queue := [];
     _session_task := None; _is_running := false;
     _session_ready := asyncio.Event_new |}.

Definition set_session v (g : GeminiLiveSession) :=
  {| session := v; _audio_queue := _audio_queue g;
     _transcript_queue := _transcript_queue g;
     _session_task := _session_task g; _is_running := _is_running g;
     _session_ready := _session_ready g |}.
Definition set_audio_queue v (g : GeminiLiveSession) :=
  {| session := session g; _audio_queue := v;
     _transcript_queue := _transcript_queue g;
     _session_task := _session_task g; _is_running := _is_running g;
     _session_ready := _session_ready g |}.
Definition set_transcript_queue v (g : GeminiLiveSession) :=
  {| session := session g; _audio_queue := _audio_queue g;
     _transcript_queue := v;
     _session_task := _session_task g; _is_running := _is_running g;
     _session_ready := _session_ready g |}.
Definition set_session_task v (g : GeminiLiveSession) :=
  {| session := session g; _audio_queue := _audio_queue g;
     _transcript_queue := _transcript_queue g;
     _session_task := v; _is_running := _is_running g;
     _session_ready := _session_ready g |}.
Definition set_is_running v (g : GeminiLiveSession) :=
  {| session := session g; _audio_queue := _audio_queue g;
     _transcript_queue := _transcript_queue g;
     _session_task := _session_task g; _is_running := v;
     _session_ready := _session_ready g |}.
Definition set_session_ready v (g : GeminiLiveSession) :=
  {| session := session g; _audio_queue := _audio_queue g;
     _transcript_queue := _transcript_queue g;
     _session_task := _session_task g; _is_running := _is_running g;
     _session_ready := v |}.

(** [connect], lines 114-117, up to the suspension in [wait_for]: the flag
    is set, the task is created, the caller waits on [_session_ready]. *)
Definition connect_enter (g : GeminiLiveSession) : GeminiLiveSession :=
  set_session_ready (asyncio.wait (_session_ready g))
    (set_session_task (Some {| rs_pc := in_connect; must_cancel := false |})
       (set_is_running true g)).

(** [wait_for] is over: with the event's result, or with [TimeoutError]
    after 30 seconds. *)
Definition connect_ready (g : GeminiLiveSession) : bool :=
  bool_decide (asyncio._waiter (_session_ready g) = Some true).
Definition connect_pending (g : GeminiLiveSession) : bool :=
  bool_decide (asyncio._waiter (_session_ready g) = Some false).
Definition connect_leave (g : GeminiLiveSession) : GeminiLiveSession :=
  set_session_ready (asyncio.leave (_session_ready g)) g.

(** [_run_session], lines 63-64: the handshake is done. *)
Definition connected (g : GeminiLiveSession) : GeminiLiveSession :=
  set_session_task (Some {| rs_pc := in_receive; must_cancel := false |})
    (set_session_ready (asyncio.set (_session_ready g))
       (set_session (Some live_session) g)).

(** [_run_session], lines 108-110: the [finally] clause, after which the
    task is done. It is reached from every way out of the [try]: the end
    of the stream, [break], an exception, [CancelledError]. *)
Definition run_session_finally (g : GeminiLiveSession) : GeminiLiveSession :=
  set_session_task (Some {| rs_pc := run_finished; must_cancel := false |})
    (set_session_ready (asyncio.clear (_session_ready g))
       (set_session None g)).

(** [_run_session], lines 68-100: one iteration of the receive loop. *)
Definition received (response : types.LiveServerMessage) (g : GeminiLiveSession)
  : GeminiLiveSession :=
  if _is_running g then
    set_audio_queue (_audio_queue g ++ audio_puts response)
      (set_transcript_queue (_transcript_queue g ++ transcript_puts response) g)
  else run_session_finally g.

(** What [send_audio], lines 124-131, does with its argument. *)
Inductive SendAudio :=
| Dropped                         (* the guard of line 124 is false *)
| Raised (e : Py.Exn)             (* [b64decode] raises *)
| Forwarded (audio_bytes : bytes) (* [send_realtime_input] is called *).

Definition send_audio `{Base64} (g : GeminiLiveSession) (audio_base64 : Py.json)
  : SendAudio :=
  if bool_decide (is_Some (session g)) && _is_running g then
    match base64_b64decode audio_base64 with
    | inr audio_bytes => Forwarded audio_bytes
    | inl e => Raised e
    end
  else Dropped.

(** [Task.cancel()]: no effect on a task that is done. *)
Definition cancel (t : SessionTask) : SessionTask :=
  match rs_pc t with
  | run_finished => t
  | pc => {| rs_pc := pc; must_cancel := true |}
  end.

(** [close], lines 172-176, up to [await self._session_task]. *)
Definition close_enter (g : GeminiLiveSession) : GeminiLiveSession :=
  set_session_task (cancel <$> _session_task g) (set_is_running false g).

(** [await self._session_task] is over (or there was no task). *)
Definition close_ready (g : GeminiLiveSession) : bool :=
  match _session_task g with
  | Some t => match rs_pc t with run_finished => true | _ => false end
  | None => true
  end.

End Gemini.

(** ** [VoiceChatSession] (main.py, lines 40-105) *)

Record VoiceChatSession := {
  gemini : GeminiLiveSession;
  is_running : bool
}.

Module Voice.

(** [__init__], lines 43-47. *)
Definition new : VoiceChatSession :=
  {| gemini := Gemini.new; is_running := false |}.

Definition on_gemini (f : GeminiLiveSession -> GeminiLiveSession)
  (v : VoiceChatSession) : VoiceChatSession :=
  {| gemini := f (gemini v); is_running := is_running v |}.
Definition set_is_running (b : bool) (v : VoiceChatSession) : VoiceChatSession :=
  {| gemini := gemini v; is_running := b |}.

(** [start], line 51, up to the suspension inside [connect]. *)
Definition start_enter : VoiceChatSession -> VoiceChatSession :=
  on_gemini Gemini.connect_enter.
(** [start], line 52, once [connect] has returned. *)
Definition start_leave (v : VoiceChatSession) : VoiceChatSession :=
  set_is_running true (on_gemini Gemini.connect_leave v).

(** [stop], lines 56-57, up to the suspension inside [close]. *)
Definition stop_enter (v : VoiceChatSession) : VoiceChatSession :=
  on_gemini Gemini.close_enter (set_is_running false v).
Definition stop_ready (v : VoiceChatSession) : bool :=
  Gemini.close_ready (gemini v).

(** [process_audio], line 61. *)
Definition process_audio `{Base64} (v : VoiceChatSession) (audio_base64 : Py.json)
  : Gemini.SendAudio :=
  Gemini.send_audio (gemini v) audio_base64.

(** [stop()] run to its end: the part before the suspension, then the
    session task, if it is not done, takes the [CancelledError] and runs
    its [finally]. *)
Definition stop (v : VoiceChatSession) : VoiceChatSession :=
  let v' := stop_enter v in
  if stop_ready v' then v' else on_gemini Gemini.run_session_finally v'.

End Voice.

(** ** The tasks of one connection

    asyncio runs the coroutines of a connection one at a time; a coroutine
    runs, without interruption, from one suspension to the next. The
    embedding follows that: every coroutine is a state machine over its
    suspension points, and a step of the system resumes one of them. *)

(** Where [_handle_transcripts] (main.py 74-84, with the generator
    [get_transcripts], realtime_api.py 153-168) is suspended. *)
Inductive TranscriptsPc :=
| ht_created
| ht_poll        (* realtime_api 160: [wait_for(queue.get(), 0.1)] *)
| ht_send        (* main 80: [send_json({"type": "transcript", ...})] *)
| ht_finished.

(** Where [_handle_audio] (main.py 86-98, with [get_audio_chunks],
    realtime_api.py 133-151, and the callback [_send_audio_chunk]) is
    suspended. *)
Inductive AudioPc :=
| ha_created
| ha_poll        (* realtime_api 140: [wait_for(queue.get(), 0.1)] *)
| ha_send_delta  (* main 102: [send_json({"type": "response.audio.delta", ...})] *)
| ha_send_done   (* main 92: [send_json({"type": "audio.done"})] *)
| ha_sleep       (* main 98: [asyncio.sleep(0.1)] *)
| ha_finished.

(** The task of [process_responses] (main.py 63-72) with the two tasks it
    gathers. [started]: it has run up to [gather]. [cancelled]: [cancel()]
    reached it, and through [gather] its children. [raised]: a child raised,
    which ends [gather] and the task, but not the other child. *)
Record ResponseTask := {
  started : bool;
  cancelled : bool;
  raised : bool;
  transcript_task : TranscriptsPc;
  audio_task : AudioPc
}.

Module Responses.

Definition new : ResponseTask :=
  {| started := false; cancelled := false; raised := false;
     transcript_task := ht_created; audio_task := ha_created |}.

Definition start (t : ResponseTask) : ResponseTask :=
  {| started := true; cancelled := cancelled t; raised := raised t;
     transcript_task := transcript_task t; audio_task := audio_task t |}.
Definition set_transcript_task pc (t : ResponseTask) : ResponseTask :=
  {| started := started t; cancelled := cancelled t; raised := raised t;
     transcript_task := pc; audio_task := audio_task t |}.
Definition set_audio_task pc (t : ResponseTask) : ResponseTask :=
  {| started := started t; cancelled := cancelled t; raised := raised t;
     transcript_task := transcript_task t; audio_task := pc |}.
(** [_handle_transcripts] ends with an exception. *)
Definition transcripts_raise (t : ResponseTask) : ResponseTask :=
  {| started := started t; cancelled := cancelled t; raised := true;
     transcript_task := ht_finished; audio_task := audio_task t |}.
(** [response_task.cancel()]: no effect on a task that is done. *)
Definition cancel (t : ResponseTask) : ResponseTask :=
  if raised t then t
  else {| started := started t; cancelled := true; raised := raised t;
          transcript_task := transcript_task t; audio_task := audio_task t |}.

End Responses.

(** A [VoiceChatSession] object on the heap, with the [process_responses]
    task bound to it, if one was created. *)
Record Slot := { self : VoiceChatSession; responses : option ResponseTask }.

Definition on_self (f : VoiceChatSession -> VoiceChatSession) (s : Slot) : Slot :=
  {| self := f (self s); responses := responses s |}.
Definition on_gemini (f : GeminiLiveSession -> GeminiLiveSession) : Slot -> Slot :=
  on_self (Voice.on_gemini f).
Definition on_responses (f : ResponseTask -> ResponseTask) (s : Slot) : Slot :=
  {| self := self s; responses := f <$> responses s |}.
Definition set_responses (t : ResponseTask) (s : Slot) : Slot :=
  {| self := self s; responses := Some t |}.

(** What the program did, in order; session objects are named by their
    index on the heap. *)
Inductive Obs :=
| Constructed (k : nat)                   (* [VoiceChatSession(websocket, api_key)] *)
| Started (k : nat)                       (* [session.start()] returned *)
| ConnectTimedOut (k : nat)               (* [connect()] raised [TimeoutError] *)
| Stopped (k : nat)                       (* [session.stop()] returned *)
| Spawned (k : nat)                       (* [create_task(session.process_responses())] *)
| Cancelled (k : nat)                     (* [response_task.cancel()] *)
| ProcessAudio (k : nat) (audio : Py.json)  (* [session.process_audio(audio)] was called *)
| Forwarded (k : nat) (audio_bytes : bytes) (* [send_realtime_input] was called *)
| Received (k : nat) (response : types.LiveServerMessage)
                                          (* the receive loop of [k] got a message *)
| DequeuedTranscript (k : nat) (item : Transcript)
| DequeuedAudio (k : nat) (item : AudioItem)
| Send (k : option nat) (ev : ClientEvent) (delivered : bool).
    (* [websocket.send_json(ev)] was called, by the endpoint while its
       variable [session] was [k], or by a task bound to the object [k];
       it raised unless [delivered] *)

(** Where [voice_chat_endpoint] (main.py 109-170) is suspended. *)
Inductive EndpointPc :=
| at_accept              (* 111 *)
| at_send_no_key         (* 115 *)
| at_close_no_key        (* 119 *)
| at_start               (* 125, in [connect]'s [wait_for] *)
| at_send_ready          (* 128 *)
| at_receive_json        (* 138 *)
| at_send_realtime_input (* 144, in [send_audio], realtime_api 126 *)
| at_reset_stop          (* 148, in [close]'s [await self._session_task] *)
| at_reset_start         (* 150, in [connect]'s [wait_for] *)
| at_send_reset_done     (* 153 *)
| at_send_error          (* 164 *)
| at_final_stop          (* 170, in [close]'s [await self._session_task] *)
| returned.

Record State := {
  GOOGLE_API_KEY : option str;      (* [os.getenv("GOOGLE_API_KEY")] *)
  broken : option Py.Exn;           (* the client is gone: [send_json] raises this *)
  at_ : EndpointPc;
  session_var : option nat;         (* the endpoint's variable [session] *)
  response_task : option nat;       (* the endpoint's variable [response_task]:
                                       the task bound to this object *)
  heap : list Slot;
  trace : list Obs
}.

Definition init (key : option str) : State :=
  {| GOOGLE_API_KEY := key; broken := None; at_ := at_accept;
     session_var := None; response_task := None; heap := []; trace := [] |}.

Definition goto (pc : EndpointPc) (st : State) : State :=
  {| GOOGLE_API_KEY := GOOGLE_API_KEY st; broken := broken st; at_ := pc;
     session_var := session_var st; response_task := response_task st;
     heap := heap st; trace := trace st |}.
Definition record (o : Obs) (st : State) : State :=
  {| GOOGLE_API_KEY := GOOGLE_API_KEY st; broken := broken st; at_ := at_ st;
     session_var := session_var st; response_task := response_task st;
     heap := heap st; trace := trace st ++ [o] |}.
Definition set_heap (h : list Slot) (st : State) : State :=
  {| GOOGLE_API_KEY := GOOGLE_API_KEY st; broken := broken st; at_ := at_ st;
     session_var := session_var st; response_task := response_task st;
     heap := h; trace := trace st |}.
Definition on_slot (k : nat) (f : Slot -> Slot) (st : State) : State :=
  set_heap (alter f k (heap st)) st.
Definition set_session_var (k : nat) (st : State) : State :=
  {| GOOGLE_API_KEY := GOOGLE_API_KEY st; broken := broken st; at_ := at_ st;
     session_var := Some k; response_task := response_task st;
     heap := heap st; trace := trace st |}.
Definition set_response_task (k : nat) (st : State) : State :=
  {| GOOGLE_API_KEY := GOOGLE_API_KEY st; broken := broken st; at_ := at_ st;
     session_var := session_var st; response_task := Some k;
     heap := heap st; trace := trace st |}.
Definition set_broken (e : Py.Exn) (st : State) : State :=
  {| GOOGLE_API_KEY := GOOGLE_API_KEY st; broken := Some e; at_ := at_ st;
     session_var := session_var st; response_task := response_task st;
     heap := heap st; trace := trace st |}.

(** [websocket.send_json(ev)]: the call is recorded; it raises [broken st]
    when the client is gone. *)
Definition send_json (k : option nat) (ev : ClientEvent) (st : State) : State :=
  record (Send k ev (bool_decide (broken st = None))) st.

(** ** The endpoint coroutine, [voice_chat_endpoint] *)

(** Which clause of the loop's [try] (main.py 157-160) takes an exception. *)
Inductive Handler := Break | Continue | Propagate.

Definition handler_of (e : Py.Exn) : Handler :=
  match e with
  | Py.WebSocketDisconnect => Break
  | Py.JSONDecodeError => Continue
  | _ => Propagate
  end.

(** With what the pending [await] of the endpoint resumes. *)
Inductive Outcome :=
| Returns                        (* the awaited call returns *)
| Receives (message : Py.json)   (* [receive_json()] returns [message] *)
| Raises (e : Py.Exn)            (* the awaited call raises [e] *)
| TimesOut.                      (* [wait_for]'s 30 seconds expire: it raises
                                    [TimeoutError] *)

Section Endpoint.
Context `{Base64}.

Definition msg_type_key : str := Py.lit "type".
Definition delta_key : str := Py.lit "delta".
Definition input_audio_buffer_append : str := Py.lit "input_audio_buffer.append".
Definition session_reset : str := Py.lit "session.reset".

(** Line 122 and line 149: a new object, bound to [session]. *)
Definition construct (st : State) : State :=
  let k := length (heap st) in
  record (Constructed k)
    (set_session_var k
       (set_heap (heap st ++ [ {| self := Voice.new; responses := None |} ]) st)).

(** Lines 125 and 150: [await session.start()], up to the suspension. *)
Definition start (pc : EndpointPc) (st : State) : option State :=
  match session_var st with
  | Some k => Some (goto pc (on_slot k (on_self Voice.start_enter) st))
  | None => None
  end.

(** Lines 133 and 152:
    [response_task = asyncio.create_task(session.process_responses())]. *)
Definition spawn (st : State) : option State :=
  match session_var st with
  | Some k =>
      Some (record (Spawned k)
              (set_response_task k (on_slot k (set_responses Responses.new) st)))
  | None => None
  end.

(** Lines 169-170: [finally: await session.stop()], up to the suspension. *)
Definition finally_ (st : State) : option State :=
  match session_var st with
  | Some k => Some (goto at_final_stop (on_slot k (on_self Voice.stop_enter) st))
  | None => None
  end.

(** Lines 162-167: [except Exception as e], sending the [error] event; if
    that send raises, the exception leaves the handler through [finally]. *)
Definition outer_except (e : Py.Exn) (st : State) : option State :=
  let st' := send_json (session_var st) (error (str_of e)) st in
  match broken st with
  | None => Some (goto at_send_error st')
  | Some _ => finally_ st'
  end.

(** Lines 157-160, for an exception raised inside the loop's [try]:
    [WebSocketDisconnect] breaks out of the loop, [JSONDecodeError]
    continues it, any other goes on to the outer handler. *)
Definition inner_except (e : Py.Exn) (st : State) : option State :=
  match handler_of e with
  | Break => finally_ st
  | Continue => Some (goto at_receive_json st)
  | Propagate => outer_except e st
  end.

(** [receive_json] raising [WebSocketDisconnect] tells that the client is
    gone. *)
Definition note_disconnect (e : Py.Exn) (st : State) : State :=
  match handler_of e, broken st with
  | Break, None => set_broken e st
  | _, _ => st
  end.

(** Line 144: [await session.process_audio(audio_data)]. *)
Definition process_audio (audio_data : Py.json) (st : State) : option State :=
  match session_var st with
  | Some k =>
      match heap st !! k with
      | Some s =>
          let st' := record (ProcessAudio k audio_data) st in
          match Voice.process_audio (self s) audio_data with
          | Gemini.Dropped => Some (goto at_receive_json st')
          | Gemini.Raised e => inner_except e st'
          | Gemini.Forwarded audio_bytes =>
              Some (goto at_send_realtime_input (record (Forwarded k audio_bytes) st'))
          end
      | None => None
      end
  | None => None
  end.

(** Line 148: [await session.stop()], up to the suspension. *)
Definition reset_enter (st : State) : option State :=
  match session_var st with
  | Some k => Some (goto at_reset_stop (on_slot k (on_self Voice.stop_enter) st))
  | None => None
  end.

(** Lines 139-155: the body of the loop for a decoded message. *)
Definition dispatch (message : Py.json) (st : State) : option State :=
  match Py.get message msg_type_key (Py.JStr []) with
  | inl e => inner_except e st
  | inr msg_type =>
      if Py.eq_str msg_type input_audio_buffer_append then
        match Py.get message delta_key (Py.JStr []) with
        | inl e => inner_except e st
        | inr audio_data =>
            if Py.truth audio_data then process_audio audio_data st
            else Some (goto at_receive_json st)
        end
      else if Py.eq_str msg_type session_reset then reset_enter st
      else Some (goto at_receive_json st)
  end.

(** [response_task.cancel()], line 151. *)
Definition cancel_response_task (st : State) : option State :=
  match response_task st with
  | Some j => Some (record (Cancelled j) (on_slot j (on_responses Responses.cancel) st))
  | None => None
  end.

(** [if not api_key], line 114. *)
Definition has_key (st : State) : bool :=
  match GOOGLE_API_KEY st with
  | Some key => Py.truthy key
  | None => false
  end.

(** The object bound to [session]. *)
Definition current (st : State) : option (nat * Slot) :=
  match session_var st with
  | Some k =>
      match heap st !! k with
      | Some s => Some (k, s)
      | None => None
      end
  | None => None
  end.

Definition voice_chat_endpoint (o : Outcome) (st : State) : option State :=
  match at_ st, o with
  | at_accept, Returns =>
      if has_key st then start at_start (construct st)
      else
        let st' := send_json None (error api_key_not_configured) st in
        match broken st with
        | None => Some (goto at_send_no_key st')
        | Some _ => Some (goto returned st')
        end
  | at_accept, Raises _ => Some (goto returned st)
  | at_send_no_key, Returns => Some (goto at_close_no_key st)
  | at_close_no_key, (Returns | Raises _) => Some (goto returned st)
  | at_start, Returns =>
      match current st with
      | Some (k, s) =>
          if Gemini.connect_ready (gemini (self s)) then
            let st1 := record (Started k) (on_slot k (on_self Voice.start_leave) st) in
            let st2 := send_json (Some k) session_ready st1 in
            match broken st with
            | None => Some (goto at_send_ready st2)
            | Some e => outer_except e st2
            end
          else None
      | None => None
      end
  | at_start, TimesOut =>
      match current st with
      | Some (k, s) =>
          if Gemini.connect_pending (gemini (self s)) then
            outer_except Py.TimeoutError
              (record (ConnectTimedOut k) (on_slot k (on_gemini Gemini.connect_leave) st))
          else None
      | None => None
      end
  | at_send_ready, Returns =>
      match spawn st with
      | Some st' => Some (goto at_receive_json st')
      | None => None
      end
  | at_receive_json, Receives message => dispatch message st
  | at_receive_json, Raises e => inner_except e (note_disconnect e st)
  | at_send_realtime_input, Returns => Some (goto at_receive_json st)
  | at_send_realtime_input, Raises e => inner_except e st
  | at_reset_stop, Returns =>
      match current st with
      | Some (k, s) =>
          if Voice.stop_ready (self s)
          then start at_reset_start (construct (record (Stopped k) st))
          else None
      | None => None
      end
  | at_reset_start, Returns =>
      match current st with
      | Some (k, s) =>
          if Gemini.connect_ready (gemini (self s)) then
            let st1 := record (Started k) (on_slot k (on_self Voice.start_leave) st) in
            match cancel_response_task st1 with
            | Some st2 =>
                match spawn st2 with
                | Some st3 =>
                    let st4 := send_json (Some k) session_reset_done st3 in
                    match broken st with
                    | None => Some (goto at_send_reset_done st4)
                    | Some e => inner_except e st4
                    end
                | None => None
                end
            | None => None
            end
          else None
      | None => None
      end
  | at_reset_start, TimesOut =>
      match current st with
      | Some (k, s) =>
          if Gemini.connect_pending (gemini (self s)) then
            inner_except Py.TimeoutError
              (record (ConnectTimedOut k) (on_slot k (on_gemini Gemini.connect_leave) st))
          else None
      | None => None
      end
  | at_send_reset_done, Returns => Some (goto at_receive_json st)
  | at_send_error, Returns => finally_ st
  | at_final_stop, Returns =>
      match current st with
      | Some (k, s) =>
          if Voice.stop_ready (self s)
          then Some (goto returned (record (Stopped k) st))
          else None
      | None => None
      end
  | _, _ => None
  end.

End Endpoint.

(** ** The session task, [_run_session] (realtime_api.py 52-110) *)

(** With what the session task resumes. *)
Inductive Upstream :=
| Connects                                   (* the handshake completed *)
| Yields (response : types.LiveServerMessage) (* [session.receive()] yields *)
| Ends                                       (* the stream ends, or an exception *)
| TakesCancel.                               (* [CancelledError] is thrown in *)

Definition _run_session (k : nat) (o : Upstream) (st : State) : option State :=
  match heap st !! k with
  | Some s =>
      match _session_task (gemini (self s)) with
      | Some t =>
          if must_cancel t then
            match o, rs_pc t with
            | TakesCancel, (in_connect | in_receive) =>
                Some (on_slot k (on_gemini Gemini.run_session_finally) st)
            | _, _ => None
            end
          else
            match rs_pc t, o with
            | in_connect, Connects => Some (on_slot k (on_gemini Gemini.connected) st)
            | in_connect, Ends =>
                Some (on_slot k (on_gemini Gemini.run_session_finally) st)
            | in_receive, Yields response =>
                Some (record (Received k response)
                        (on_slot k (on_gemini (Gemini.received response)) st))
            | in_receive, Ends =>
                Some (on_slot k (on_gemini Gemini.run_session_finally) st)
            | _, _ => None
            end
      | None => None
      end
  | None => None
  end.

(** ** The pump tasks *)

(** With what a pump task resumes. *)
Inductive PumpOutcome :=
| Resumes        (* first run, or the awaited send or sleep is over *)
| Gets           (* [queue.get()] returned the head of the queue *)
| PollTimesOut   (* 0.1 s passed with the queue empty *)
| IsCancelled.   (* [CancelledError] is thrown in *)

Section Pumps.
Context `{Base64}.

Definition set_transcript_pc (k : nat) (pc : TranscriptsPc) : State -> State :=
  on_slot k (on_responses (Responses.set_transcript_task pc)).
Definition set_audio_pc (k : nat) (pc : AudioPc) : State -> State :=
  on_slot k (on_responses (Responses.set_audio_task pc)).

(** [get_transcripts], line 158: [while self._is_running]; when the
    generator ends, so does the [async for] of [_handle_transcripts]. *)
Definition get_transcripts_head (k : nat) (s : Slot) (st : State) : State :=
  if _is_running (gemini (self s)) then set_transcript_pc k ht_poll st
  else set_transcript_pc k ht_finished st.

Definition _handle_transcripts (k : nat) (o : PumpOutcome) (st : State)
  : option State :=
  match heap st !! k with
  | Some s =>
      match responses s with
      | Some t =>
          if cancelled t then
            match o, transcript_task t with
            | IsCancelled, (ht_created | ht_poll | ht_send) =>
                if started t then Some (set_transcript_pc k ht_finished st) else None
            | _, _ => None
            end
          else if negb (started t) then None
          else
            match transcript_task t, o with
            | ht_created, Resumes => Some (get_transcripts_head k s st)
            | ht_poll, Gets =>
                match _transcript_queue (gemini (self s)) with
                | item :: q =>
                    let st1 :=
                      record (DequeuedTranscript k item)
                        (on_slot k (on_gemini (Gemini.set_transcript_queue q)) st) in
                    (* main.py 77-84 *)
                    if is_running (self s) then
                      let st2 :=
                        send_json (Some k) (transcript (t_text item) (t_type item)) st1 in
                      match broken st with
                      | None => Some (set_transcript_pc k ht_send st2)
                      | Some _ =>
                          Some (on_slot k (on_responses Responses.transcripts_raise) st2)
                      end
                    else Some (set_transcript_pc k ht_finished st1)
                | [] => None
                end
            | ht_poll, PollTimesOut =>
                match _transcript_queue (gemini (self s)) with
                | [] => Some (get_transcripts_head k s st)
                | _ :: _ => None
                end
            | ht_send, Resumes => Some (get_transcripts_head k s st)
            | _, _ => None
            end
      | None => None
      end
  | None => None
  end.

(** main.py 92-98: [send_json({"type": "audio.done"})] after
    [get_audio_chunks] returned; if the send raises, [except Exception]
    leaves the loop when the session is stopped and sleeps otherwise. *)
Definition send_audio_done (k : nat) (s : Slot) (st : State) : State :=
  let st' := send_json (Some k) audio_done st in
  match broken st with
  | None => set_audio_pc k ha_send_done st'
  | Some _ =>
      if is_running (self s) then set_audio_pc k ha_sleep st'
      else set_audio_pc k ha_finished st'
  end.

(** realtime_api.py 138: [while self._is_running] in [get_audio_chunks];
    when the loop ends the method returns. *)
Definition get_audio_chunks_head (k : nat) (s : Slot) (st : State) : State :=
  if _is_running (gemini (self s)) then set_audio_pc k ha_poll st
  else send_audio_done k s st.

(** main.py 88: [while self.is_running] in [_handle_audio]. *)
Definition handle_audio_head (k : nat) (s : Slot) (st : State) : State :=
  if is_running (self s) then get_audio_chunks_head k s st
  else set_audio_pc k ha_finished st.

Definition _handle_audio (k : nat) (o : PumpOutcome) (st : State) : option State :=
  match heap st !! k with
  | Some s =>
      match responses s with
      | Some t =>
          if cancelled t then
            match o, audio_task t with
            | IsCancelled, (ha_created | ha_poll | ha_send_delta | ha_send_done | ha_sleep) =>
                if started t then Some (set_audio_pc k ha_finished st) else None
            | _, _ => None
            end
          else if negb (started t) then None
          else
            match audio_task t, o with
            | ha_created, Resumes => Some (handle_audio_head k s st)
            | ha_poll, Gets =>
                match _audio_queue (gemini (self s)) with
                | item :: q =>
                    let st1 :=
                      record (DequeuedAudio k item)
                        (on_slot k (on_gemini (Gemini.set_audio_queue q)) st) in
                    match item with
                    | None => Some (send_audio_done k s st1)   (* 144-145: break *)
                    | Some audio_data =>
                        (* 146-147, main.py 102 *)
                        let st2 :=
                          send_json (Some k)
                            (response_audio_delta (b64encode audio_data)) st1 in
                        match broken st with
                        | None => Some (set_audio_pc k ha_send_delta st2)
                        | Some _ => Some (send_audio_done k s st2)  (* 150-151: break *)
                        end
                    end
                | [] => None
                end
            | ha_poll, PollTimesOut =>
                match _audio_queue (gemini (self s)) with
                | [] => Some (get_audio_chunks_head k s st)   (* 148-149: continue *)
                | _ :: _ => None
                end
            | ha_send_delta, Resumes => Some (get_audio_chunks_head k s st)
            | ha_send_done, Resumes => Some (handle_audio_head k s st)
            | ha_sleep, Resumes => Some (handle_audio_head k s st)
            | _, _ => None
            end
      | None => None
      end
  | None => None
  end.

(** The first run of [process_responses]: the two tasks are created and
    gathered. A task cancelled before its first run never runs. *)
Definition process_responses (k : nat) (st : State) : option State :=
  match heap st !! k with
  | Some s =>
      match responses s with
      | Some t =>
          if started t || cancelled t then None
          else Some (on_slot k (on_responses Responses.start) st)
      | None => None
      end
  | None => None
  end.

End Pumps.

(** ** The system *)

(** One step: a task is resumed, or the client goes away, after which
    [send_json] raises [e]. *)
Inductive Label :=
| Endpoint (o : Outcome)
| RunSession (k : nat) (o : Upstream)
| ProcessResponses (k : nat)
| HandleTranscripts (k : nat) (o : PumpOutcome)
| HandleAudio (k : nat) (o : PumpOutcome)
| ClientGoesAway (e : Py.Exn).

Section System.
Context `{Base64}.

Definition step (l : Label) (st : State) : option State :=
  match l with
  | Endpoint o => voice_chat_endpoint o st
  | RunSession k o => _run_session k o st
  | ProcessResponses k => process_responses k st
  | HandleTranscripts k o => _handle_transcripts k o st
  | HandleAudio k o => _handle_audio k o st
  | ClientGoesAway e =>
      match broken st with
      | None => Some (set_broken e st)
      | Some _ => None
      end
  end.

Fixpoint run (ls : list Label) (st : State) : option State :=
  match ls with
  | [] => Some st
  | l :: ls' =>
      match step l st with
      | Some st' => run ls' st'
      | None => None
      end
  end.

(** The states of a connection served with the given API key. *)
Definition reachable (key : option str) (st : State) : Prop :=
  exists ls, run ls (init key) = Some st.

End System.

(** ** A base64 codec to run the model with

    RFC 4648 encoding, and decoding the way [binascii.a2b_base64] does it
    when not strict: characters outside the alphabet are skipped, a complete
    padding ends the input, an incomplete quad is an error. *)
Module Rfc4648.

Definition alphabet : str :=
  Py.lit "ABCDEFGHIJKLMNOPQRSTUVWXYZabcdefghijklmnopqrstuvwxyz0123456789+/".

Definition pad : N := 61.

Definition enc6 (n : N) : N := nth (N.to_nat n) alphabet pad.

Fixpoint encode (b : bytes) : str :=
  match b with
  | [] => []
  | [x] => [enc6 (x / 4); enc6 (x mod 4 * 16); pad; pad]%N
  | [x; y] => [enc6 (x / 4); enc6 (x mod 4 * 16 + y / 16); enc6 (y mod 16 * 4); pad]%N
  | x :: y :: z :: r =>
      ([enc6 (x / 4); enc6 (x mod 4 * 16 + y / 16);
        enc6 (y mod 16 * 4 + z / 64); enc6 (z mod 64)]%N) ++ encode r
  end.

Fixpoint index_of (c : N) (l : str) (i : N) : option N :=
  match l with
  | [] => None
  | x :: l' => if (x =? c)%N then Some i else index_of c l' (i + 1)%N
  end.

Definition dec6 (c : N) : option N := index_of c alphabet 0%N.

Fixpoint a2b (s : str) (quad_pos : nat) (leftchar : N) (pads : nat) (out : bytes)
  : option bytes :=
  match s with
  | [] => match quad_pos with 0 => Some out | _ => None end
  | c :: s' =>
      if (c =? pad)%N then
        if (2 <=? quad_pos)%nat then
          if (4 <=? quad_pos + S pads)%nat then Some out
          else a2b s' quad_pos leftchar (S pads) out
        else a2b s' quad_pos leftchar pads out
      else
        match dec6 c with
        | None => a2b s' quad_pos leftchar pads out
        | Some v =>
            match quad_pos with
            | 0 => a2b s' 1 v 0 out
            | 1 => a2b s' 2 (v mod 16)%N 0 (out ++ [leftchar * 4 + v / 16]%N)
            | 2 => a2b s' 3 (v mod 4)%N 0 (out ++ [leftchar * 16 + v / 4]%N)
            | _ => a2b s' 0 0%N 0 (out ++ [leftchar * 64 + v]%N)
            end
        end
  end.

(** [b64decode] of a [str] first encodes it as ASCII. *)
Definition decode (s : str) : option bytes :=
  if forallb (fun c => c <? 128)%N s then a2b s 0 0%N 0 [] else None.

#[export] Instance codec : Base64 := {| b64encode := encode; b64decode := decode |}.

End Rfc4648.

(** ** Vocabulary of the properties *)

(** A text that is empty or has only whitespace characters. *)
Definition blank (s : str) : Prop := Forall (fun c => Py.isspace c = true) s.

(** The transcription fragment a server message carries for a speaker. *)
Definition fragment_of (who : Speaker) (response : types.LiveServerMessage)
  : option str :=
  match types.server_content response with
  | Some content =>
      match (match who with
             | user => types.input_transcription content
             | assistant => types.output_transcription content
             end) with
      | Some t => types.text t
      | None => None
      end
  | None => None
  end.

(** The item is the stripped fragment of a message the receive loop of the
    object [k] got. *)
Definition from_upstream (tr : list Obs) (k : nat) (item : Transcript) : Prop :=
  exists response fragment,
    Received k response ∈ tr
    /\ fragment_of (t_type item) response = Some fragment
    /\ t_text item = Py.strip fragment.

(** A text without whitespace at either end, and not empty. *)
Definition trimmed (s : str) : Prop :=
  s <> []
  /\ (forall c, head s = Some c -> Py.isspace c = false)
  /\ (forall c, list.last s = Some c -> Py.isspace c = false).

(** The events that tell the client a session is ready: [session.ready]
    for the first one, [session.reset.done] for one made by a reset. *)
Definition readiness (ev : ClientEvent) : bool :=
  match ev with
  | session_ready | session_reset_done => true
  | _ => false
  end.

Definition is_started (k : nat) (o : Obs) : bool :=
  match o with
  | Started j => bool_decide (j = k)
  | _ => false
  end.

Definition is_readiness_of (k : nat) (o : Obs) : bool :=
  match o with
  | Send (Some j) ev _ => bool_decide (j = k) && readiness ev
  | _ => false
  end.

Definition is_audio_done (o : Obs) : bool :=
  match o with
  | Send _ audio_done true => true
  | _ => false
  end.

Definition is_sentinel_dequeued (o : Obs) : bool :=
  match o with
  | DequeuedAudio _ None => true
  | _ => false
  end.

(** How many elements of a trace satisfy a test. *)
Definition count (f : Obs -> bool) (tr : list Obs) : nat :=
  length (List.filter f tr).

(** The pump pair of a [process_responses] task can still run. *)
Definition pumps_alive (t : ResponseTask) : bool :=
  negb (cancelled t)
  && negb (match transcript_task t, audio_task t with
           | ht_finished, ha_finished => true
           | _, _ => false
           end).

(** The session object an observation is about. *)
Definition obs_index (o : Obs) : option nat :=
  match o with
  | Constructed k | Started k | ConnectTimedOut k | Stopped k | Spawned k
  | Cancelled k | ProcessAudio k _ | Forwarded k _ | Received k _
  | DequeuedTranscript k _ | DequeuedAudio k _ => Some k
  | Send ko _ _ => ko
  end.

(** Every element of a trace stands in [P] to what came before it. *)
Definition each_preceded (P : list Obs -> Obs -> Prop) (tr : list Obs) : Prop :=
  forall pre x post, tr = pre ++ x :: post -> P pre x.

(** A queue item that is the stripped, non-empty fragment of a message. *)
Definition good_item (tr : list Obs) (k : nat) (item : Transcript) : Prop :=
  from_upstream tr k item /\ t_text item <> [].

(** ** Runs of the system

    Labels of some runs, with the codec of [Rfc4648]. *)
Module Demo.
Import Rfc4648.

Definition key : option str := Some (Py.lit "secret").

Definition reset_message : Py.json :=
  Py.JDict [(msg_type_key, Py.JStr session_reset)].

Definition append_message (delta : string) : Py.json :=
  Py.JDict [(msg_type_key, Py.JStr input_audio_buffer_append);
            (delta_key, Py.JStr (Py.lit delta))].

(** One server message: an output transcription " hi ", two audio parts,
    the end of the turn. *)
Definition hello : types.LiveServerMessage :=
  {| types.server_content :=
       Some {| types.input_transcription := None;
               types.output_transcription :=
                 Some {| types.text := Some (Py.lit " hi ") |};
               types.model_turn :=
                 Some {| types.parts :=
                           Some [ {| types.inline_data :=
                                       Some {| types.data := Some [1; 2; 3]%N |} |};
                                  {| types.inline_data :=
                                       Some {| types.data := Some [4]%N |} |} ] |};
               types.turn_complete := Some true |} |}.

(** The connection is accepted, the session connects, [session.ready] is
    sent, the pump pair is created and both pumps poll their queues. *)
Definition up : list Label :=
  [Endpoint Returns; RunSession 0 Connects; Endpoint Returns; Endpoint Returns;
   ProcessResponses 0; HandleTranscripts 0 Resumes; HandleAudio 0 Resumes].

(** One turn is relayed. *)
Definition one_turn : list Label :=
  up ++ [Endpoint (Receives (append_message "TWFu")); Endpoint Returns;
         RunSession 0 (Yields hello);
         HandleTranscripts 0 Gets; HandleTranscripts 0 Resumes;
         HandleAudio 0 Gets; HandleAudio 0 Resumes;
         HandleAudio 0 Gets; HandleAudio 0 Resumes;
         HandleAudio 0 Gets; HandleAudio 0 Resumes].

(** A reset while the pumps poll: the old session is stopped, the old audio
    pump's poll times out. *)
Definition reset_then_poll : list Label :=
  up ++ [Endpoint (Receives reset_message); HandleAudio 0 PollTimesOut].

(** A reset during which the new session's receive loop gets a message
    before the endpoint resumes. *)
Definition reset_early_message : list Label :=
  up ++ [Endpoint (Receives reset_message); RunSession 0 TakesCancel;
         Endpoint Returns; RunSession 1 Connects; RunSession 1 (Yields hello)].

(** A whole reset, then a turn of the new session. *)
Definition reset_done : list Label :=
  reset_early_message
  ++ [Endpoint Returns; Endpoint Returns; ProcessResponses 1;
      HandleTranscripts 1 Resumes; HandleAudio 1 Resumes;
      HandleTranscripts 1 Gets; HandleAudio 1 Gets].

(** The handshake of the first session takes more than 30 seconds. *)
Definition timeout : list Label := [Endpoint Returns; Endpoint TimesOut].

(** ... and completes while the endpoint sends the [error] event. *)
Definition timeout_then_connected : list Label :=
  timeout ++ [RunSession 0 Connects].

(** ... after which the endpoint cleans up and returns. *)
Definition timeout_cleaned_up : list Label :=
  timeout_then_connected ++ [Endpoint Returns; RunSession 0 TakesCancel; Endpoint Returns].

Definition state_after (ls : list Label) : State :=
  match run ls (init key) with
  | Some st => st
  | None => init key
  end.

End Demo.

(** ** Invariants of the reachable states *)

(** The variable [session] is bound to the newest object; the variable
    [response_task] and the trace name objects that exist. *)
Record InvA (st : State) : Prop := {
  A_var : match session_var st with
          | Some c => length (heap st) = S c
          | None => heap st = []
          end;
  A_task : forall r, response_task st = Some r -> r < length (heap st);
  A_trace : forall o k, o ∈ trace st -> obs_index o = Some k -> k < length (heap st)
}.

(** What is on a transcript queue, and every [transcript] event sent, is the
    stripped, non-empty fragment of a message the receive loop of that
    object got. *)
Record InvT (st : State) : Prop := {
  T_queue : forall k s item,
    heap st !! k = Some s ->
    item ∈ _transcript_queue (gemini (self s)) ->
    good_item (trace st) k item;
  T_sent : forall ko text sender d,
    Send ko (transcript text sender) d ∈ trace st ->
    exists k, ko = Some k
              /\ good_item (trace st) k {| t_type := sender; t_text := text |}
}.

(** An object holds a handle only while its session task is in the receive
    loop, and then nobody is still waiting for the handshake. *)
Definition handle_ok (g : GeminiLiveSession) : Prop :=
  (session g <> None ->
   exists mc, _session_task g = Some {| rs_pc := in_receive; must_cancel := mc |})
  /\ (forall mc, _session_task g = Some {| rs_pc := in_receive; must_cancel := mc |} ->
      asyncio._waiter (_session_ready g) <> Some false).

Definition InvH (st : State) : Prop :=
  forall k s, heap st !! k = Some s -> handle_ok (gemini (self s)).

(** Once [stop()] has returned on an object, its flags are down and its
    session task is done. *)
Definition fully_stopped (v : VoiceChatSession) : Prop :=
  is_running v = false
  /\ _is_running (gemini v) = false
  /\ Voice.stop_ready v = true.

(** The endpoint is on its way out: in the outer handler, in [finally], or
    done. *)
Definition cleaning_up (pc : EndpointPc) : bool :=
  match pc with
  | at_send_error | at_final_stop | returned => true
  | _ => false
  end.

(** The endpoint is inside [session.stop()], waiting for the session task. *)
Definition stopping (pc : EndpointPc) : bool :=
  match pc with
  | at_reset_stop | at_final_stop => true
  | _ => false
  end.

(** The endpoint has not constructed a session object. *)
Definition before_session (pc : EndpointPc) : bool :=
  match pc with
  | at_accept | at_send_no_key | at_close_no_key => true
  | _ => false
  end.

(** The object [k] of a heap is fully stopped. *)
Definition stopped_in (l : list Slot) (k : nat) : Prop :=
  exists s, l !! k = Some s /\ fully_stopped (self s).

(** What holds of the sessions the endpoint has stopped, and of the one it
    is stopping. *)
Record InvS (st : State) : Prop := {
  S_accept : before_session (at_ st) = true -> session_var st = None;
  S_session :
    before_session (at_ st) = false -> at_ st <> returned ->
    is_Some (session_var st);
  S_stopping : forall k s,
    stopping (at_ st) = true ->
    session_var st = Some k -> heap st !! k = Some s ->
    is_running (self s) = false /\ _is_running (gemini (self s)) = false;
  S_stopped : forall k, Stopped k ∈ trace st -> stopped_in (heap st) k;
  S_cur : forall c,
    session_var st = Some c -> Stopped c ∈ trace st -> at_ st = returned;
  S_returned : forall c,
    at_ st = returned -> session_var st = Some c -> Stopped c ∈ trace st;
  S_timed_out : forall k,
    ConnectTimedOut k ∈ trace st ->
    session_var st = Some k /\ cleaning_up (at_ st) = true;
  S_timeout_error : forall k,
    ConnectTimedOut k ∈ trace st ->
    exists d, Send (Some k) (error (str_of Py.TimeoutError)) d ∈ trace st;
  S_forward :
    each_preceded
      (fun pre x => forall k b, x = Forwarded k b -> Stopped k ∉ pre)
      (trace st)
}.

(** The endpoint is inside [session.start()], waiting for the handshake. *)
Definition starting (pc : EndpointPc) : bool :=
  match pc with
  | at_start | at_reset_start => true
  | _ => false
  end.

(** The readiness event of the object [k]. *)
Definition readiness_of (k : nat) : ClientEvent :=
  match k with
  | 0 => session_ready
  | S _ => session_reset_done
  end.

(** Starts and readiness events go in pairs. *)
Record InvR (st : State) : Prop := {
  R_first : at_ st = at_start -> session_var st = Some 0;
  R_later : at_ st = at_reset_start -> exists j, session_var st = Some (S j);
  R_fresh : forall c,
    starting (at_ st) = true -> session_var st = Some c ->
    count (is_started c) (trace st) = 0;
  R_once : forall k, count (is_started k) (trace st) <= 1;
  R_count : forall k,
    count (is_readiness_of k) (trace st) = count (is_started k) (trace st);
  R_kind : forall k ev d,
    Send (Some k) ev d ∈ trace st -> readiness ev = true -> ev = readiness_of k;
  R_none : forall ev d,
    Send None ev d ∈ trace st -> ev = error api_key_not_configured;
  R_order :
    each_preceded
      (fun pre x => forall k ev d,
           x = Send (Some k) ev d -> readiness ev = true -> Started k ∈ pre)
      (trace st)
}.

(** The endpoint has not yet created a [process_responses] task. *)
Definition before_loop (pc : EndpointPc) : bool :=
  match pc with
  | at_accept | at_start | at_send_ready => true
  | _ => false
  end.

(** The endpoint is in its loop, outside of a reset's [start()]. *)
Definition in_loop (pc : EndpointPc) : bool :=
  match pc with
  | at_receive_json | at_send_realtime_input | at_reset_stop
  | at_send_reset_done => true
  | _ => false
  end.

(** The pump pairs: only the one bound to [response_task] can still deliver
    an event, and a reset leaves its marks on the trace in a fixed order. *)
Record InvP (st : State) : Prop := {
  P_none : before_loop (at_ st) = true -> response_task st = None;
  P_same : in_loop (at_ st) = true -> response_task st = session_var st;
  P_raised : forall j s t,
    heap st !! j = Some s -> responses s = Some t ->
    raised t = true -> broken st <> None;
  P_old : forall j s t,
    heap st !! j = Some s -> responses s = Some t ->
    response_task st <> Some j -> cancelled t = true \/ raised t = true;
  P_next : forall r c,
    at_ st = at_reset_start ->
    response_task st = Some r -> session_var st = Some c -> c = S r;
  P_done : forall k d,
    Send (Some k) session_reset_done d ∈ trace st ->
    exists r, response_task st = Some r /\ k <= r;
  P_order :
    each_preceded
      (fun pre y => forall k' ev,
           y = Send (Some k') ev true ->
           forall k d, Send (Some k) session_reset_done d ∈ pre -> k <= k')
      (trace st);
  P_shape :
    each_preceded
      (fun pre x => forall k d,
           x = Send (Some k) session_reset_done d ->
           exists pre' j,
             pre = pre' ++ [Started k; Cancelled j; Spawned k] /\ k = S j)
      (trace st);
  P_teardown :
    each_preceded
      (fun pre x => forall k,
           x = Constructed (S k) -> exists pre', pre = pre' ++ [Stopped k])
      (trace st);
  P_constructed : forall c, session_var st = Some c -> Constructed c ∈ trace st;
  P_started :
    each_preceded
      (fun pre x => forall k, x = Started k -> Constructed k ∈ pre)
      (trace st)
}.

(** ** More vocabulary and invariants of the endpoint *)

(** [api_key] is true: the variable is set and not empty (line 114). *)
Definition configured (key : option str) : bool :=
  match key with
  | Some k => Py.truthy k
  | None => false
  end.

(** An [error] event was sent. *)
Definition is_error (o : Obs) : bool :=
  match o with
  | Send _ (error _) _ => true
  | _ => false
  end.

(** The endpoint is past its last [error] event: in the missing-key branch
    after the send, in the outer handler, in [finally], or done. *)
Definition leaving (pc : EndpointPc) : bool :=
  match pc with
  | at_send_no_key | at_close_no_key | at_send_error | at_final_stop | returned => true
  | _ => false
  end.

(** What the endpoint does for a session or tells the client, the
    [stop()] of a session apart. *)
Definition endpoint_act (o : Obs) : bool :=
  match o with
  | Constructed _ | Started _ | ConnectTimedOut _ | Spawned _ | Cancelled _
  | ProcessAudio _ _ | Forwarded _ _ => true
  | Send _ (session_ready | session_reset_done | error _) _ => true
  | _ => false
  end.

(** There is at most one [error] event, and it comes last. *)
Record InvE (st : State) : Prop := {
  E_none : leaving (at_ st) = false -> count is_error (trace st) = 0;
  E_once : count is_error (trace st) <= 1;
  E_last :
    each_preceded
      (fun pre x => endpoint_act x = true -> count is_error pre = 0)
      (trace st)
}.

(** The [error] event of lines 115-118. *)
Definition missing_key_error (d : bool) : Obs :=
  Send None (error api_key_not_configured) d.

(** The API key does not change; without one there is no session and
    nothing but the one [error] event; with one that event is never sent. *)
Record InvK (key : option str) (st : State) : Prop := {
  K_key : GOOGLE_API_KEY st = key;
  K_heap : configured key = false -> heap st = [];
  K_var : configured key = false -> session_var st = None;
  K_pc :
    configured key = false -> before_session (at_ st) = true \/ at_ st = returned;
  K_accept : configured key = false -> at_ st = at_accept -> trace st = [];
  K_closing :
    configured key = false -> at_ st <> at_accept -> at_ st <> returned ->
    trace st = [missing_key_error true];
  K_trace :
    configured key = false ->
    trace st = [] \/ exists d, trace st = [missing_key_error d];
  K_configured :
    configured key = true -> forall ko d, Send ko (error api_key_not_configured) d ∉ trace st
}.

(** The endpoint has a started session and is in, or about to enter, its
    loop. *)
Definition serving (pc : EndpointPc) : bool :=
  match pc with
  | at_send_ready | at_receive_json | at_send_realtime_input | at_reset_stop
  | at_send_reset_done => true
  | _ => false
  end.

(** The endpoint has a session for which it has not yet created the
    [process_responses] task. *)
Definition unspawned (pc : EndpointPc) : bool :=
  match pc with
  | at_start | at_send_ready | at_reset_start => true
  | _ => false
  end.

(** The events the pump tasks send. *)
Definition pump_event (ev : ClientEvent) : bool :=
  match ev with
  | transcript _ _ | response_audio_delta _ | audio_done => true
  | _ => false
  end.

(** The life of the session objects: which are stopped, which are started,
    which have a pump pair, and what was delivered. *)
Record InvL (st : State) : Prop := {
  L_stopped : forall k,
    Constructed k ∈ trace st -> session_var st = Some k \/ Stopped k ∈ trace st;
  L_started : forall c,
    serving (at_ st) = true -> session_var st = Some c -> Started c ∈ trace st;
  L_first :
    at_ st = at_send_ready ->
    session_var st = Some 0 /\ Send (Some 0) session_ready true ∈ trace st;
  L_unspawned : forall c s,
    unspawned (at_ st) = true ->
    session_var st = Some c -> heap st !! c = Some s -> responses s = None;
  L_spawned : forall k s t,
    heap st !! k = Some s -> responses s = Some t ->
    exists d, Send (Some k) (readiness_of k) d ∈ trace st;
  L_delivered : forall ko ev d,
    broken st = None -> Send ko ev d ∈ trace st -> d = true;
  L_task : forall k s t,
    stopping (at_ st) = true ->
    session_var st = Some k -> heap st !! k = Some s ->
    _session_task (gemini (self s)) = Some t ->
    rs_pc t = run_finished \/ must_cancel t = true;
  L_ready_first :
    each_preceded
      (fun pre x => forall k ev d,
           x = Send (Some k) ev d -> pump_event ev = true ->
           exists d', Send (Some k) (readiness_of k) d' ∈ pre)
      (trace st);
  L_delivered_before :
    each_preceded
      (fun pre x => forall ko ev,
           x = Send ko ev true ->
           forall ko' ev' d', Send ko' ev' d' ∈ pre -> d' = true)
      (trace st);
  L_audio :
    each_preceded
      (fun pre x => forall k audio,
           x = ProcessAudio k audio ->
           Py.truth audio = true /\ Started k ∈ pre /\ Stopped k ∉ pre)
      (trace st)
}.

(** The messages the receive loop of the object [k] got, in order. *)
Definition messages (k : nat) (tr : list Obs) : list types.LiveServerMessage :=
  omap (fun o => match o with
                 | Received j response => if bool_decide (j = k) then Some response else None
                 | _ => None
                 end) tr.

(** What the receive loop of [k] had to put on its queues for them. *)
Definition enqueued_transcripts (k : nat) (tr : list Obs) : list Transcript :=
  flat_map transcript_puts (messages k tr).
Definition enqueued_audio (k : nat) (tr : list Obs) : list AudioItem :=
  flat_map audio_puts (messages k tr).

(** What the pumps of [k] took from the queues, in order. *)
Definition dequeued_transcripts (k : nat) (tr : list Obs) : list Transcript :=
  omap (fun o => match o with
                 | DequeuedTranscript j item => if bool_decide (j = k) then Some item else None
                 | _ => None
                 end) tr.
Definition dequeued_audio (k : nat) (tr : list Obs) : list AudioItem :=
  omap (fun o => match o with
                 | DequeuedAudio j item => if bool_decide (j = k) then Some item else None
                 | _ => None
                 end) tr.

(** The [transcript] events and the [response.audio.delta] events sent for
    [k], in order. *)
Definition sent_transcripts (k : nat) (tr : list Obs) : list Transcript :=
  omap (fun o => match o with
                 | Send (Some j) (transcript text sender) _ =>
                     if bool_decide (j = k)
                     then Some {| t_type := sender; t_text := text |} else None
                 | _ => None
                 end) tr.
Definition sent_deltas (k : nat) (tr : list Obs) : list str :=
  omap (fun o => match o with
                 | Send (Some j) (response_audio_delta delta) _ =>
                     if bool_decide (j = k) then Some delta else None
                 | _ => None
                 end) tr.

(** The chunks among the items of an audio queue. *)
Definition chunks (items : list AudioItem) : list bytes := omap id items.

Section Queues.
Context `{Base64}.

(** The queues lose nothing and keep the order: what was put on a queue is
    what was taken from it followed by what is on it. *)
Record InvQ (st : State) : Prop := {
  Q_running : forall k s t,
    heap st !! k = Some s -> _session_task (gemini (self s)) = Some t ->
    must_cancel t = false -> rs_pc t <> run_finished ->
    _is_running (gemini (self s)) = true;
  Q_transcripts : forall k s,
    heap st !! k = Some s ->
    enqueued_transcripts k (trace st)
    = dequeued_transcripts k (trace st) ++ _transcript_queue (gemini (self s));
  Q_audio : forall k s,
    heap st !! k = Some s ->
    enqueued_audio k (trace st)
    = dequeued_audio k (trace st) ++ _audio_queue (gemini (self s));
  Q_sent : forall k s,
    heap st !! k = Some s ->
    dequeued_transcripts k (trace st) = sent_transcripts k (trace st)
    \/ exists item t,
         dequeued_transcripts k (trace st) = sent_transcripts k (trace st) ++ [item]
         /\ responses s = Some t /\ transcript_task t = ht_finished;
  Q_deltas : forall k,
    sent_deltas k (trace st) = b64encode <$> chunks (dequeued_audio k (trace st));
  Q_forward :
    each_preceded
      (fun pre x => forall k audio_bytes,
           x = Forwarded k audio_bytes ->
           exists pre' audio_base64,
             pre = pre' ++ [ProcessAudio k (Py.JStr audio_base64)]
             /\ b64decode audio_base64 = Some audio_bytes)
      (trace st)
}.

End Queues.

(** More runs, with the codec of [Rfc4648]. *)
Module Scenario.
Import Rfc4648.

(** No API key: the error is sent and the socket is closed. *)
Definition no_key : list Label := [Endpoint Returns; Endpoint Returns].

Definition state_after (key : option str) (ls : list Label) : State :=
  match run ls (init key) with
  | Some st => st
  | None => init key
  end.

End Scenario.

(** ** The broadcast endpoint (main.py 173-205)

    [WebSocketManager] keeps the list [active_connections]; every connection
    to [/ws/{client_id}] runs [websocket_endpoint] on the one object
    [manager]. The coroutines share that list, and a [broadcast] walks it
    with a list iterator while the others may change it. *)
Module Chat.

(** A websocket object, by identity: the index of its handler. *)
Abbreviation WebSocket := nat.

(** [str(n)] for an [int]. *)
Definition str_of_int (n : Z) : str := Py.lit (DecimalString.NilZero.string_of_int (Z.to_int n)).

(** The f-strings of lines 196, 200 and 205. *)
Definition joined (client_id : Z) : str :=
  Py.lit "Client #" ++ str_of_int client_id ++ Py.lit " joined".
Definition said (client_id : Z) (data : str) : str :=
  Py.lit "Client #" ++ str_of_int client_id ++ Py.lit ": " ++ data.
Definition left (client_id : Z) : str :=
  Py.lit "Client #" ++ str_of_int client_id ++ Py.lit " left".

Record WebSocketManager := { active_connections : list WebSocket }.

(** [__init__], lines 175-176. *)
Definition new : WebSocketManager := {| active_connections := [] |}.

(** [connect], line 180, after [accept()] has returned. *)
Definition connect (websocket : WebSocket) (m : WebSocketManager) : WebSocketManager :=
  {| active_connections := active_connections m ++ [websocket] |}.

(** [list.remove(x)]: the first occurrence goes; [ValueError] ([None]) when
    there is none. *)
Fixpoint list_remove (x : WebSocket) (l : list WebSocket) : option (list WebSocket) :=
  match l with
  | [] => None
  | y :: l' =>
      if bool_decide (y = x) then Some l'
      else match list_remove x l' with
           | Some r => Some (y :: r)
           | None => None
           end
  end.

(** [disconnect], line 183. *)
Definition disconnect (websocket : WebSocket) (m : WebSocketManager)
  : option WebSocketManager :=
  match list_remove websocket (active_connections m) with
  | Some l => Some {| active_connections := l |}
  | None => None
  end.

(** Which [broadcast] of [websocket_endpoint] is running: line 196, 200 or
    205. *)
Inductive Phase := Joining | Relaying | Leaving.

(** How a handler ended: by [return], or with the exception of the [await]
    named. *)
Inductive Exit :=
| Returned
| AcceptRaised (e : Py.Exn)      (* 179 *)
| JoinRaised (e : Py.Exn)        (* 196: [broadcast] outside the [try] *)
| LeaveRaised (e : Py.Exn)       (* 205: [broadcast] in [finally] *)
| RemoveRaised.                  (* 183: [ValueError] of [list.remove] *)

(** Where [websocket_endpoint] is suspended. In [send_text] the iterator of
    the [for] loop of [broadcast] stands at [index], the position it reads
    next. *)
Inductive HandlerPc :=
| in_accept
| in_send_text (phase : Phase) (message : str) (index : nat)
| in_receive_text
| finished (how : Exit).

Record Handler := { client_id : Z; pc : HandlerPc }.

Inductive Event :=
| Appended (websocket : WebSocket)
| Removed (websocket : WebSocket)
| SendText (handler : WebSocket) (phase : Phase) (connection : WebSocket)
    (message : str).

Record State := {
  manager : WebSocketManager;
  handlers : list Handler;
  trace : list Event
}.

Definition init : State :=
  {| manager := new; handlers := []; trace := [] |}.

Definition set_pc (w : WebSocket) (p : HandlerPc) (st : State) : State :=
  {| manager := manager st;
     handlers := alter (fun h => {| client_id := client_id h; pc := p |}) w (handlers st);
     trace := trace st |}.
Definition set_manager (m : WebSocketManager) (st : State) : State :=
  {| manager := m; handlers := handlers st; trace := trace st |}.
Definition record (e : Event) (st : State) : State :=
  {| manager := manager st; handlers := handlers st; trace := trace st ++ [e] |}.

(** What follows a [broadcast] that returned. *)
Definition after_broadcast (w : WebSocket) (phase : Phase) (st : State) : State :=
  match phase with
  | Joining | Relaying => set_pc w in_receive_text st   (* 199 *)
  | Leaving => set_pc w (finished Returned) st
  end.

(** [broadcast], lines 186-187: the iterator reads the list at [index], as
    the list is now; past its end the loop is over. *)
Definition broadcast (w : WebSocket) (phase : Phase) (message : str) (index : nat)
  (st : State) : State :=
  match active_connections (manager st) !! index with
  | Some connection =>
      record (SendText w phase connection message)
        (set_pc w (in_send_text phase message (S index)) st)
  | None => after_broadcast w phase st
  end.

(** Lines 203-205: [finally]. *)
Definition finally_ (w : WebSocket) (h : Handler) (st : State) : State :=
  match disconnect w (manager st) with
  | Some m => broadcast w Leaving (left (client_id h)) 0 (record (Removed w) (set_manager m st))
  | None => set_pc w (finished RemoveRaised) st
  end.

(** With what a handler resumes. *)
Inductive Resumption :=
| Done                    (* the awaited call returns *)
| Text (data : str)       (* [receive_text()] returns [data] *)
| Fails (e : Py.Exn).     (* the awaited call raises [e] *)

Definition websocket_endpoint (w : WebSocket) (r : Resumption) (st : State)
  : option State :=
  match handlers st !! w with
  | Some h =>
      match pc h, r with
      | in_accept, Done =>
          Some (broadcast w Joining (joined (client_id h)) 0
                  (record (Appended w) (set_manager (connect w (manager st)) st)))
      | in_accept, Fails e => Some (set_pc w (finished (AcceptRaised e)) st)
      | in_send_text phase message index, Done =>
          Some (broadcast w phase message index st)
      | in_send_text Joining _ _, Fails e => Some (set_pc w (finished (JoinRaised e)) st)
      | in_send_text Relaying _ _, Fails _ => Some (finally_ w h st)   (* 201-205 *)
      | in_send_text Leaving _ _, Fails e => Some (set_pc w (finished (LeaveRaised e)) st)
      | in_receive_text, Text data =>
          Some (broadcast w Relaying (said (client_id h) data) 0 st)
      | in_receive_text, Fails _ => Some (finally_ w h st)             (* 201-205 *)
      | _, _ => None
      end
  | None => None
  end.

(** One step: a client connects to [/ws/{client_id}], or a handler is
    resumed. *)
Inductive Label :=
| Opens (client_id : Z)
| Resume (w : WebSocket) (r : Resumption).

Definition step (l : Label) (st : State) : option State :=
  match l with
  | Opens client_id =>
      Some {| manager := manager st;
              handlers := handlers st ++ [ {| client_id := client_id; pc := in_accept |} ];
              trace := trace st |}
  | Resume w r => websocket_endpoint w r st
  end.

Fixpoint run (ls : list Label) (st : State) : option State :=
  match ls with
  | [] => Some st
  | l :: ls' =>
      match step l st with
      | Some st' => run ls' st'
      | None => None
      end
  end.

Definition reachable (st : State) : Prop := exists ls, run ls init = Some st.

(** The websocket of a handler at this point is in [active_connections]. *)
Definition registered (p : HandlerPc) : bool :=
  match p with
  | in_send_text (Joining | Relaying) _ _ | in_receive_text
  | finished (JoinRaised _) => true
  | _ => false
  end.

(** Every element of a trace stands in [P] to what came before it. *)
Definition each_preceded (P : list Event -> Event -> Prop) (tr : list Event) : Prop :=
  forall pre x post, tr = pre ++ x :: post -> P pre x.

(** The list and the handlers agree: a websocket is on the list from its
    [append] to its [remove], once, and that is while its handler serves
    it, or for good when the handler's first [broadcast] raised. *)
Record Inv (st : State) : Prop := {
  I_nodup : NoDup (active_connections (manager st));
  I_registered : forall w h,
    handlers st !! w = Some h ->
    (w ∈ active_connections (manager st) <-> registered (pc h) = true);
  I_bound : forall w,
    w ∈ active_connections (manager st) -> w < length (handlers st);
  I_remove : forall w h, handlers st !! w = Some h -> pc h <> finished RemoveRaised;
  I_appended : forall w,
    w ∈ active_connections (manager st)
    <-> Appended w ∈ trace st /\ (Removed w ∉ trace st);
  I_fresh : forall w h,
    handlers st !! w = Some h -> pc h = in_accept ->
    (Appended w ∉ trace st) /\ (Removed w ∉ trace st);
  I_known : forall w,
    Appended w ∈ trace st \/ Removed w ∈ trace st -> w < length (handlers st);
  I_sent :
    each_preceded
      (fun pre x => forall w phase c message,
           x = SendText w phase c message ->
           Appended c ∈ pre /\ (Removed c ∉ pre) /\ (phase = Leaving -> c <> w))
      (trace st)
}.

End Chat.

(** Two clients join one after the other. *)
Definition two_clients : list Chat.Label :=
  [Chat.Opens 7; Chat.Resume 0 Chat.Done; Chat.Resume 0 Chat.Done;
   Chat.Opens 8; Chat.Resume 1 Chat.Done; Chat.Resume 1 Chat.Done;
   Chat.Resume 1 Chat.Done].

Definition chat_after (ls : list Chat.Label) : Chat.State :=
  match Chat.run ls Chat.init with
  | Some st => st
  | None => Chat.init
  end.

(** ** [SimpleLLM] (realtime_api.py 181-237)

    The text-only chat: [chat] appends the user's turn to
    [conversation_history], sends the fixed two-turn preamble followed by
    the whole history, and appends the model's turn when the reply is
    there. *)
Module SimpleLLM.

(** [types.Part(text=...)] and [types.Content(role=..., parts=[...])], with
    the fields this class sets. *)
Record Part := { text : option str }.
Record Content := { role : str; parts : list Part }.

(** [types.GenerateContentConfig(max_output_tokens=200, temperature=0.7)];
    the float literal is kept as its decimal, 7 * 10^-1. *)
Record GenerateContentConfig := {
  max_output_tokens : Z;
  temperature : Z * Z
}.

(** The arguments of [client.aio.models.generate_content]. *)
Record Request := {
  req_model : str;
  contents : list Content;
  config : GenerateContentConfig
}.

Record t := {
  model : str;
  conversation_history : list Content;
  system_prompt : str
}.

Definition default_model : str := Py.lit "gemini-2.0-flash".

(** The literal of lines 191-193. *)
Definition the_system_prompt : str :=
  [12354; 12394; 12383; 12399; 35242; 20999; 12391; 19969; 23527; 12394;
   26085; 26412; 35486; 12398; 65; 73; 12450; 12471; 12473; 12479; 12531;
   12488; 12391; 12377; 12290; 10; 12518; 12540; 12470; 12540; 12392; 12398;
   33258; 28982; 12394; 20250; 35441; 12434; 24515; 12364; 12369; 12390;
   12367; 12384; 12373; 12356; 12290; 10; 22238; 31572; 12399; 31777; 28500;
   12395; 12375; 12390; 12367; 12384; 12373; 12356; 65288; 49; 45; 51; 25991;
   31243; 24230; 65289; 12290]%N.

(** The literal of line 215, the model's turn of the preamble. *)
Definition the_acknowledgement : str :=
  [12399; 12356; 12289; 25215; 30693; 12375; 12414; 12375; 12383; 12290;
   31777; 28500; 12395; 19969; 23527; 12395; 12362; 31572; 12360; 12375;
   12414; 12377; 12290]%N.

(** [__init__], lines 187-193. *)
Definition new (model : str) : t :=
  {| model := model; conversation_history := [];
     system_prompt := the_system_prompt |}.

Definition set_history (h : list Content) (llm : t) : t :=
  {| model := model llm; conversation_history := h;
     system_prompt := system_prompt llm |}.

(** [reset], line 197. *)
Definition reset (llm : t) : t := set_history [] llm.

Definition user_turn (user_message : str) : Content :=
  {| role := Py.lit "user"; parts := [ {| text := Some user_message |} ] |}.
Definition model_turn (reply : option str) : Content :=
  {| role := Py.lit "model"; parts := [ {| text := reply |} ] |}.

(** Lines 208-216: the two turns every request starts with. *)
Definition preamble (llm : t) : list Content :=
  [ user_turn (system_prompt llm); model_turn (Some the_acknowledgement) ].

(** [chat], lines 201-227, up to the suspension in [generate_content]: the
    object after the [append], and the request, which copies the history
    as it is then. *)
Definition chat_enter (user_message : str) (llm : t) : t * Request :=
  let llm' := set_history (conversation_history llm ++ [user_turn user_message]) llm in
  (llm',
   {| req_model := model llm';
      contents := preamble llm' ++ conversation_history llm';
      config := {| max_output_tokens := 200; temperature := (7, -1)%Z |} |}).

(** [chat], lines 229-237, once [generate_content] has returned a response
    whose [text] is [reply] ([None] when it has no text): the object after
    the [append], and the value returned. If [generate_content] raises, the
    exception leaves [chat] and this part does not run. *)
Definition chat_leave (reply : option str) (llm : t) : t * option str :=
  (set_history (conversation_history llm ++ [model_turn reply]) llm, reply).

(** What [generate_content] does: a response whose [text] is [reply], or
    an exception. *)
Inductive Response :=
| Replies (reply : option str)
| Raises (e : Py.Exn).

(** One whole call of [chat]: the object after it, the request it sent,
    and its result. *)
Definition chat (user_message : str) (response : Response) (llm : t)
  : t * Request * (Py.Exn + option str) :=
  let (llm1, request) := chat_enter user_message llm in
  match response with
  | Replies reply =>
      let (llm2, value) := chat_leave reply llm1 in (llm2, request, inr value)
  | Raises e => (llm1, request, inl e)
  end.

(** Calls of [chat] one after the other, each over before the next begins:
    the object at the end, and the requests sent. *)
Fixpoint chats (calls : list (str * Response)) (llm : t) : t * list Request :=
  match calls with
  | [] => (llm, [])
  | (user_message, response) :: rest =>
      let '(llm1, request, _) := chat user_message response llm in
      let (llm2, requests) := chats rest llm1 in
      (llm2, request :: requests)
  end.

(** The turns a call leaves in the history. *)
Definition turns (call : str * Response) : list Content :=
  match snd call with
  | Replies reply => [user_turn (fst call); model_turn reply]
  | Raises _ => [user_turn (fst call)]
  end.

End SimpleLLM.

(** ** Vocabulary of the receive loop and of the starts *)


(** The data of a part, when it has inline data. *)
Definition part_data (part : types.Part) : option bytes :=
  match types.inline_data part with
  | Some blob => types.data blob
  | None => None
  end.

(** The audio of a server message: the data of its parts that is there and
    not empty, in the order of the parts. *)
Definition message_chunks (response : types.LiveServerMessage) : list bytes :=
  match types.server_content response with
  | Some content =>
      match types.model_turn content with
      | Some turn =>
          match types.parts turn with
          | Some ps => List.filter Py.truthy (omap part_data ps)
          | None => []
          end
      | None => []
      end
  | None => []
  end.

(** The message ends the turn. *)
Definition turn_completed (response : types.LiveServerMessage) : bool :=
  match types.server_content response with
  | Some content =>
      match types.turn_complete content with
      | Some true => true
      | _ => false
      end
  | None => false
  end.

(** The transcript of a speaker in a server message: the fragment,
    stripped, unless nothing is left of it. *)
Definition kept_transcript (who : Speaker) (response : types.LiveServerMessage)
  : list Transcript :=
  match fragment_of who response with
  | Some fragment =>
      if Py.truthy (Py.strip fragment)
      then [ {| t_type := who; t_text := Py.strip fragment |} ]
      else []
  | None => []
  end.

(** * Properties *)

(** ** [str.strip] *)

Lemma lstrip_blank s : blank s -> Py.lstrip s = [].
Proof.
  induction 1 as [|c s Hc _ IH]; simpl; [done|]. by rewrite Hc.
Qed.

Lemma strip_blank s : blank s -> Py.strip s = [].
Proof. intros Hs. unfold Py.strip, Py.rstrip. by rewrite (lstrip_blank s Hs). Qed.

Lemma lstrip_head s c r : Py.lstrip s = c :: r -> Py.isspace c = false.
Proof.
  induction s as [|x s IH]; simpl; [done|].
  destruct (Py.isspace x) eqn:Hx; [done|]. intros [= <- _]. done.
Qed.

Lemma lstrip_snoc s c :
  Py.isspace c = false -> Py.lstrip (s ++ [c]) = Py.lstrip s ++ [c].
Proof.
  intros Hc. induction s as [|x s IH]; simpl.
  - by rewrite Hc.
  - by destruct (Py.isspace x).
Qed.

(** The shape of a stripped text: nothing, or a non-space character, the
    stripped rest read backwards, reversed. *)
Lemma strip_cases s :
  Py.strip s = []
  \/ exists c u, Py.lstrip s = c :: u /\ Py.isspace c = false
                 /\ Py.strip s = c :: rev (Py.lstrip (rev u)).
Proof.
  unfold Py.strip, Py.rstrip.
  destruct (Py.lstrip s) as [|c u] eqn:Hs; [by left|right].
  pose proof (lstrip_head _ _ _ Hs) as Hc.
  exists c, u. split_and!; [done..|].
  simpl. rewrite (lstrip_snoc _ _ Hc), rev_app_distr. done.
Qed.

Lemma strip_trimmed s : Py.strip s <> [] -> trimmed (Py.strip s).
Proof.
  intros Hne. destruct (strip_cases s) as [?|(c & u & Hs & Hc & ->)]; [done|].
  split_and!; [done| |].
  - intros c' [= <-]. done.
  - intros c'. destruct (Py.lstrip (rev u)) as [|d w] eqn:Hu; simpl.
    + intros [= <-]. done.
    + change (c :: rev w ++ [d]) with ((c :: rev w) ++ [d]).
      rewrite last_snoc. intros [= <-]. by eapply lstrip_head.
Qed.

Lemma truthy_nil {A} (l : list A) : Py.truthy l = false <-> l = [].
Proof. by destruct l. Qed.

(** ** The receive loop's body *)

Lemma transcription_puts_inv who tr item :
  item ∈ transcription_puts who tr ->
  exists t fragment,
    tr = Some t /\ types.text t = Some fragment
    /\ item = {| t_type := who; t_text := Py.strip fragment |}
    /\ Py.strip fragment <> [].
Proof.
  unfold transcription_puts. destruct tr as [t|]; [|by intros ?%elem_of_nil].
  destruct (types.text t) as [fragment|] eqn:Ht; [|by intros ?%elem_of_nil].
  destruct (Py.truthy fragment && Py.truthy (Py.strip fragment)) eqn:Hb;
    [|by intros ?%elem_of_nil].
  intros ->%list_elem_of_singleton. exists t, fragment. split_and!; try done.
  apply andb_true_iff in Hb as [_ Hb]. intros Hnil. by rewrite Hnil in Hb.
Qed.

Lemma transcript_puts_inv response item :
  item ∈ transcript_puts response ->
  exists fragment,
    fragment_of (t_type item) response = Some fragment
    /\ t_text item = Py.strip fragment
    /\ Py.strip fragment <> [].
Proof.
  unfold transcript_puts, fragment_of.
  destruct (types.server_content response) as [content|]; [|by intros ?%elem_of_nil].
  intros [Hin|Hin]%elem_of_app;
    apply transcription_puts_inv in Hin as (t & fragment & Htr & Ht & -> & Hne);
    exists fragment; simpl; rewrite Htr; done.
Qed.

Lemma transcription_puts_blank who t fragment :
  types.text t = Some fragment -> blank fragment ->
  transcription_puts who (Some t) = [].
Proof.
  intros Ht Hb. unfold transcription_puts. rewrite Ht, (strip_blank _ Hb). simpl.
  by rewrite andb_false_r.
Qed.

(** ** Lists and traces *)

Lemma lookup_alter_inv {A} (f : A -> A) (l : list A) k j y :
  alter f k l !! j = Some y ->
  exists x, l !! j = Some x /\ ((j = k /\ y = f x) \/ (j <> k /\ y = x)).
Proof.
  destruct (decide (j = k)) as [->|Hne].
  - rewrite list_lookup_alter_eq. destruct (l !! k) as [x|]; [|done].
    intros [= <-]. eauto.
  - rewrite list_lookup_alter_ne by done. eauto.
Qed.

Lemma lookup_snoc_inv {A} (l : list A) a j y :
  (l ++ [a]) !! j = Some y -> l !! j = Some y \/ (j = length l /\ y = a).
Proof.
  intros [?|[? Hj]]%lookup_app_Some; [by left|right].
  destruct (j - length l) as [|n] eqn:Hn; simpl in Hj; [|done].
  split; [lia|congruence].
Qed.

Lemma alter_id_at {A} (f : A -> A) (l : list A) k x :
  l !! k = Some x -> f x = x -> alter f k l = l.
Proof.
  intros Hk Hf. apply list_eq. intros j. destruct (decide (j = k)) as [->|Hne].
  - rewrite list_lookup_alter_eq, Hk. simpl. by rewrite Hf.
  - by rewrite list_lookup_alter_ne.
Qed.

Lemma snoc_split {A} (tr : list A) o pre x post :
  tr ++ [o] = pre ++ x :: post ->
  (post = [] /\ pre = tr /\ x = o)
  \/ (exists post', post = post' ++ [o] /\ tr = pre ++ x :: post').
Proof.
  destruct post as [|y post _] using rev_ind.
  - intros [-> ->]%app_inj_tail. by left.
  - change (pre ++ x :: post ++ [y]) with (pre ++ (x :: post) ++ [y]).
    rewrite app_assoc. intros [-> ->]%app_inj_tail. right. eauto.
Qed.

Lemma each_preceded_nil P : each_preceded P [].
Proof. intros [|??] ?? ?; done. Qed.

Lemma each_preceded_snoc P tr o :
  each_preceded P tr -> P tr o -> each_preceded P (tr ++ [o]).
Proof.
  intros Htr Ho pre x post [(-> & -> & ->)|(post' & -> & ->)]%snoc_split; [done|].
  by eapply Htr.
Qed.

Lemma count_snoc f tr o :
  count f (tr ++ [o]) = count f tr + (if f o then 1 else 0).
Proof.
  unfold count. rewrite List.filter_app, length_app. simpl. by destruct (f o).
Qed.

Lemma count_zero f tr : (forall o, o ∈ tr -> f o = false) -> count f tr = 0.
Proof.
  unfold count. induction tr as [|o tr IH]; intros Hf; simpl; [done|].
  rewrite (Hf o) by left. apply IH. intros o' Ho'. apply Hf. by right.
Qed.


(** ** Reachable states *)

(** Case analysis of a step that was taken: every way the step function
    can have produced its result. *)
Ltac unfold_step H :=
  unfold step, voice_chat_endpoint, _run_session, process_responses, _handle_transcripts,
    _handle_audio, dispatch, process_audio, reset_enter, inner_except,
    outer_except, note_disconnect, finally_, spawn, start,
    cancel_response_task, current, get_transcripts_head, handle_audio_head,
    get_audio_chunks_head, send_audio_done, set_transcript_pc, set_audio_pc,
    send_json in H.

Ltac step_inv H := unfold_step H; repeat (case_match; simplify_eq/=).

Section Reachability.
Context `{Base64}.

Lemma run_snoc ls l st :
  run (ls ++ [l]) st
  = match run ls st with Some st' => step l st' | None => None end.
Proof.
  revert st. induction ls as [|l' ls IH]; intros st; simpl.
  - by destruct (step l st).
  - destruct (step l' st); [apply IH|done].
Qed.

Lemma reachable_init key : reachable key (init key).
Proof. by exists []. Qed.

Lemma reachable_step key st l st' :
  reachable key st -> step l st = Some st' -> reachable key st'.
Proof. intros [ls Hls] Hs. exists (ls ++ [l]). by rewrite run_snoc, Hls. Qed.

Lemma reachable_run key ls st : run ls (init key) = Some st -> reachable key st.
Proof. intros Hls. by exists ls. Qed.

(** Induction over the steps that lead to a state. *)
Lemma reachable_invariant key (P : State -> Prop) :
  P (init key) ->
  (forall st l st', reachable key st -> P st -> step l st = Some st' -> P st') ->
  forall st, reachable key st -> P st.
Proof.
  intros Hinit Hstep st [ls Hls]. revert st Hls.
  induction ls as [|l ls IH] using rev_ind; intros st Hls.
  - by injection Hls as <-.
  - rewrite run_snoc in Hls.
    destruct (run ls (init key)) as [st0|] eqn:H0; [|done].
    eapply Hstep; [by exists ls|by apply IH|done].
Qed.

End Reachability.

(** ** Session objects and the heap *)
Lemma InvA_var_lt st k : InvA st -> session_var st = Some k -> k < length (heap st).
Proof. intros [H1 _ _] Hk. rewrite Hk in H1. lia. Qed.

Lemma InvA_goto pc st : InvA st -> InvA (goto pc st).
Proof. by intros []. Qed.

Lemma InvA_set_broken e st : InvA st -> InvA (set_broken e st).
Proof. by intros []. Qed.

Lemma InvA_on_slot k f st : InvA st -> InvA (on_slot k f st).
Proof.
  intros [H1 H2 H3]. split; simpl; rewrite ?length_alter; try done.
  destruct (session_var st); [done|]. by rewrite H1.
Qed.

Lemma InvA_record o st :
  InvA st -> (forall k, obs_index o = Some k -> k < length (heap st)) ->
  InvA (record o st).
Proof.
  intros [H1 H2 H3] Ho. split; simpl; try done.
  intros o' k [?| ->%list_elem_of_singleton]%elem_of_app; eauto.
Qed.

Lemma InvA_set_response_task k st :
  InvA st -> k < length (heap st) -> InvA (set_response_task k st).
Proof. intros [H1 H2 H3] Hk. split; simpl; try done. by intros ? [= <-]. Qed.

Lemma InvA_construct st : InvA st -> InvA (construct st).
Proof.
  intros [H1 H2 H3]. split; simpl; rewrite ?length_app; simpl.
  - lia.
  - intros r Hr%H2. lia.
  - intros o' k [Ho| ->%list_elem_of_singleton]%elem_of_app; simpl.
    + intros ?%H3; [lia|done].
    + intros [= <-]. lia.
Qed.

Ltac solve_InvA :=
  repeat match goal with
    | |- InvA (goto _ _) => apply InvA_goto
    | |- InvA (set_broken _ _) => apply InvA_set_broken
    | |- InvA (on_slot _ _ _) => apply InvA_on_slot
    | |- InvA (construct _) => apply InvA_construct
    | |- InvA (set_response_task _ _) => apply InvA_set_response_task
    | |- InvA (record _ _) => apply InvA_record; [|simpl; intros ? ?; simplify_eq]
    end;
  try assumption;
  simpl; rewrite ?length_alter;
  eauto using lookup_lt_Some, InvA_var_lt, A_task.

Section Structure.
Context `{Base64}.

Lemma InvA_step l st st' : InvA st -> step l st = Some st' -> InvA st'.
Proof.
  intros Hinv Hs. destruct l; step_inv Hs; solve_InvA.
Qed.

Lemma InvA_reachable key st : reachable key st -> InvA st.
Proof.
  apply (reachable_invariant key InvA).
  - split; simpl; [done..|]. by intros ?? ?%elem_of_nil.
  - eauto using InvA_step.
Qed.

End Structure.

(** ** Transcripts *)
Lemma good_item_mono tr tr' k item :
  good_item tr k item -> tr ⊆ tr' -> good_item tr' k item.
Proof.
  intros [(response & fragment & Hin & ? & ?) ?] Hsub.
  split; [|done]. exists response, fragment. split_and!; [by apply Hsub|done..].
Qed.

Lemma good_item_snoc tr o k item :
  good_item tr k item -> good_item (tr ++ [o]) k item.
Proof.
  intros Hg. eapply good_item_mono; [done|]. intros x Hx. apply elem_of_app. by left.
Qed.

Lemma InvT_goto pc st : InvT st -> InvT (goto pc st).
Proof. by intros []. Qed.

Lemma InvT_set_broken e st : InvT st -> InvT (set_broken e st).
Proof. by intros []. Qed.

Lemma InvT_set_response_task k st : InvT st -> InvT (set_response_task k st).
Proof. by intros []. Qed.

Lemma InvT_record o st :
  InvT st ->
  (forall ko text sender d,
     o = Send ko (transcript text sender) d ->
     exists k, ko = Some k
               /\ good_item (trace st ++ [o]) k {| t_type := sender; t_text := text |}) ->
  InvT (record o st).
Proof.
  intros [H1 H2] Ho. split; simpl.
  - intros k s item Hk Hin. apply good_item_snoc. eauto.
  - intros ko text sender d [Hin|Heq%list_elem_of_singleton]%elem_of_app; [|eauto].
    destruct (H2 _ _ _ _ Hin) as (k & -> & Hg). eauto using good_item_snoc.
Qed.

Lemma InvT_on_slot k f st :
  InvT st ->
  (forall s item,
     heap st !! k = Some s ->
     item ∈ _transcript_queue (gemini (self (f s))) ->
     item ∈ _transcript_queue (gemini (self s))) ->
  InvT (on_slot k f st).
Proof.
  intros [H1 H2] Hf. split; simpl; [|done].
  intros j s' item (s & Hs & [[-> ->]|[_ ->]])%lookup_alter_inv Hin; eauto.
Qed.

Lemma InvT_construct st : InvT st -> InvT (construct st).
Proof.
  intros [H1 H2]. split; simpl.
  - intros k s item [Hk|[-> ->]]%lookup_snoc_inv Hin.
    + apply good_item_snoc. eauto.
    + by apply elem_of_nil in Hin.
  - intros ko text sender d [Hin| [=]%list_elem_of_singleton]%elem_of_app.
    destruct (H2 _ _ _ _ Hin) as (k & -> & Hg). eauto using good_item_snoc.
Qed.

(** The receive loop's iteration keeps the queue good. *)
Lemma InvT_received k response st :
  InvT st ->
  InvT (record (Received k response)
          (on_slot k (on_gemini (Gemini.received response)) st)).
Proof.
  intros [H1 H2]. split; simpl.
  - intros j s' item (s & Hs & [[-> ->]|[_ ->]])%lookup_alter_inv Hin.
    + unfold Gemini.received in Hin. simpl in Hin.
      destruct (_is_running (gemini (self s))); simpl in Hin;
        [|by apply good_item_snoc; eauto].
      apply elem_of_app in Hin as [Hin|Hin]; [by apply good_item_snoc; eauto|].
      apply transcript_puts_inv in Hin as (fragment & Hf & Ht & Hne).
      split; [|by rewrite Ht].
      exists response, fragment. split_and!; [|done..].
      apply elem_of_app. right. by apply list_elem_of_singleton.
    + apply good_item_snoc. eauto.
  - intros ko text sender d [Hin| [=]%list_elem_of_singleton]%elem_of_app.
    destruct (H2 _ _ _ _ Hin) as (j & -> & Hg). eauto using good_item_snoc.
Qed.

Ltac solve_InvT :=
  repeat match goal with
    | |- InvT (goto _ _) => apply InvT_goto
    | |- InvT (set_broken _ _) => apply InvT_set_broken
    | |- InvT (set_response_task _ _) => apply InvT_set_response_task
    | |- InvT (record (Received _ _) _) => apply InvT_received
    | |- InvT (on_slot _ _ _) => apply InvT_on_slot; [|simpl; intros ? ? ? ?]
    | |- InvT (construct _) => apply InvT_construct
    | |- InvT (record _ _) =>
        apply InvT_record; [|simpl; intros ? ? ? ? [=]; subst]
    end;
  try assumption.

Section Transcripts.
Context `{Base64}.

Lemma InvT_step l st st' : InvT st -> step l st = Some st' -> InvT st'.
Proof.
  intros Hinv Hs. destruct l; step_inv Hs; solve_InvT.
  all: try done.
  all: try (simplify_eq;
            match goal with Hq : _transcript_queue _ = _ :: _ |- _ => rewrite Hq end;
            by right).
  all: eexists; split; [done|]; do 2 apply good_item_snoc.
  all: match goal with
       | Hs : heap _ !! _ = Some ?s, Hq : _transcript_queue _ = ?t :: _ |- _ =>
           destruct t; apply (T_queue _ Hinv _ s); [done|rewrite Hq; left]
       end.
Qed.

Lemma InvT_reachable key st : reachable key st -> InvT st.
Proof.
  apply (reachable_invariant key InvT).
  - split; simpl.
    + by intros [|?] ?? ?.
    + by intros ???? ?%elem_of_nil.
  - eauto using InvT_step.
Qed.

End Transcripts.

(** ** The upstream handle *)
Lemma handle_ok_new : handle_ok Gemini.new.
Proof. split; simpl; [done|]. by intros ? [=]. Qed.

Lemma handle_ok_connect_enter : handle_ok (Gemini.connect_enter Gemini.new).
Proof. split; simpl; [done|]. by intros ? [=]. Qed.

Lemma handle_ok_connect_leave g : handle_ok g -> handle_ok (Gemini.connect_leave g).
Proof. intros [H1 H2]. split; simpl; [done|]. by intros ? _ [=]. Qed.

Lemma handle_ok_connected g : handle_ok g -> handle_ok (Gemini.connected g).
Proof.
  intros [H1 H2]. split; simpl; [eauto|].
  intros _ _. by destruct (asyncio._waiter (_session_ready g)).
Qed.

Lemma handle_ok_finally g : handle_ok g -> handle_ok (Gemini.run_session_finally g).
Proof. intros [H1 H2]. split; simpl; [done|]. by intros ? [=]. Qed.

Lemma handle_ok_received response g :
  handle_ok g -> handle_ok (Gemini.received response g).
Proof.
  intros Hg. unfold Gemini.received.
  destruct (_is_running g); [|by apply handle_ok_finally]. exact Hg.
Qed.

Lemma handle_ok_close_enter g : handle_ok g -> handle_ok (Gemini.close_enter g).
Proof.
  intros [H1 H2]. split; simpl.
  - intros (mc & ->)%H1. simpl. eauto.
  - intros mc Ht. destruct (_session_task g) as [[[] ?]|] eqn:Hg; simplify_eq/=.
    eauto.
Qed.

Lemma InvH_on_slot k f st :
  InvH st ->
  (forall s, heap st !! k = Some s ->
             handle_ok (gemini (self s)) -> handle_ok (gemini (self (f s)))) ->
  InvH (on_slot k f st).
Proof.
  intros Hinv Hf j s' (s & Hs & [[-> ->]|[_ ->]])%lookup_alter_inv; eauto.
Qed.

Lemma handle_ok_set_audio_queue q g :
  handle_ok g -> handle_ok (Gemini.set_audio_queue q g).
Proof. by intros []. Qed.

Lemma handle_ok_set_transcript_queue q g :
  handle_ok g -> handle_ok (Gemini.set_transcript_queue q g).
Proof. by intros []. Qed.

(** Tracing a slot of the heap after a step back to the heap before it. *)
Ltac slot_inv :=
  repeat match goal with
    | H : alter _ _ _ !! _ = Some _ |- _ =>
        apply lookup_alter_inv in H as (? & H & [[? ?]|[? ?]]); simplify_eq
    | H : (_ ++ [_]) !! _ = Some _ |- _ =>
        apply lookup_snoc_inv in H as [H|[? ?]]; simplify_eq
    | H : ?l !! length ?l = Some _ |- _ =>
        apply lookup_lt_Some in H; lia
    end.

Section Handle.
Context `{Base64}.

Lemma InvH_step l st st' : InvH st -> step l st = Some st' -> InvH st'.
Proof.
  intros Hinv Hs. destruct l; step_inv Hs; unfold construct in *;
    unfold InvH in Hinv; intros ? ? Hl; simpl in Hl; slot_inv; simpl.
  all: eauto using handle_ok_connect_enter, handle_ok_connect_leave,
         handle_ok_connected, handle_ok_finally, handle_ok_received,
         handle_ok_close_enter, handle_ok_set_audio_queue,
         handle_ok_set_transcript_queue.
Qed.

Lemma InvH_reachable key st : reachable key st -> InvH st.
Proof.
  apply (reachable_invariant key InvH).
  - by intros [|?] ? ?.
  - eauto using InvH_step.
Qed.

End Handle.

(** ** Stopping *)
Lemma stopped_in_alter f n l k :
  stopped_in l k ->
  (forall s, l !! n = Some s -> k = n ->
             fully_stopped (self s) -> fully_stopped (self (f s))) ->
  stopped_in (alter f n l) k.
Proof.
  intros (s & Hs & Hf) Hn. destruct (decide (k = n)) as [->|Hne].
  - exists (f s). rewrite list_lookup_alter_eq, Hs. eauto.
  - exists s. by rewrite list_lookup_alter_ne.
Qed.

Lemma stopped_in_snoc a l k : stopped_in l k -> stopped_in (l ++ [a]) k.
Proof.
  intros (s & Hs & Hf). exists s. split; [|done]. by apply lookup_app_l_Some.
Qed.

Lemma fully_stopped_stop_enter v :
  fully_stopped v -> fully_stopped (Voice.stop_enter v).
Proof.
  intros (H1 & H2 & H3).
  unfold fully_stopped, Voice.stop_ready, Gemini.close_ready in *.
  simpl. split_and!; [done..|].
  destruct (_session_task (gemini v)) as [[[] ?]|]; simplify_eq/=; done.
Qed.

Lemma fully_stopped_task v t :
  fully_stopped v -> _session_task (gemini v) = Some t -> rs_pc t = run_finished.
Proof.
  intros (_ & _ & H3) Ht. unfold Voice.stop_ready, Gemini.close_ready in H3.
  rewrite Ht in H3. by destruct (rs_pc t).
Qed.

(** Tracing an element of the trace after a step back to the trace before. *)
Ltac trace_inv :=
  repeat match goal with
    | H : _ ∈ _ ++ [_] |- _ =>
        apply elem_of_app in H as [H|H%list_elem_of_singleton]; simplify_eq
    | H : _ ∈ [] |- _ => by apply elem_of_nil in H
    | H : ?l !! length ?l = Some _ |- _ => apply lookup_lt_Some in H; lia
    end.

(** An element is in a trace that ends with known observations. *)
Ltac in_trace :=
  repeat first
    [ by apply list_elem_of_singleton
    | apply elem_of_app; right; by apply list_elem_of_singleton
    | apply elem_of_app; left ];
  try done.

Ltac by_pc :=
  first [done | match goal with Hpc : at_ _ = _ |- _ => by rewrite Hpc end].

Section Stopping.
Context `{Base64}.

Lemma S_accept_step l st st' :
  InvS st -> step l st = Some st' ->
  before_session (at_ st') = true -> session_var st' = None.
Proof.
  intros Hinv Hs.
  destruct l; step_inv Hs; unfold construct in *; simpl; try done.
  all: intros ?; apply (S_accept _ Hinv); first [done|by_pc].
Qed.

Lemma S_session_step l st st' :
  InvS st -> step l st = Some st' ->
  before_session (at_ st') = false -> at_ st' <> returned ->
  is_Some (session_var st').
Proof.
  intros Hinv Hs.
  destruct l; step_inv Hs; unfold construct in *; simpl; try done.
  all: try (intros ? ?; apply (S_session _ Hinv); by_pc).
  all: by eauto.
Qed.

Lemma S_stopping_step l st st' :
  InvS st -> step l st = Some st' ->
  forall k s,
    stopping (at_ st') = true ->
    session_var st' = Some k -> heap st' !! k = Some s ->
    is_running (self s) = false /\ _is_running (gemini (self s)) = false.
Proof.
  intros Hinv Hs.
  destruct l; step_inv Hs; unfold construct in *; simpl; try done.
  all: intros ? ? Hpc ? Hl; simplify_eq/=; slot_inv; simpl; try done.
  all: try (eapply (S_stopping _ Hinv); [|done..]; by rewrite ?Hpc).
  all: unfold Gemini.received; case_match; simpl.
  all: eapply (S_stopping _ Hinv); [|done..]; by rewrite ?Hpc.
Qed.

Lemma S_stopped_step l st st' :
  InvS st -> step l st = Some st' ->
  forall k, Stopped k ∈ trace st' -> stopped_in (heap st') k.
Proof.
  intros Hinv Hs.
  destruct l; step_inv Hs; unfold construct in *; simpl; try done.
  all: intros ? Hin; trace_inv.
  all: match goal with
       | |- stopped_in _ ?k =>
           assert (stopped_in (heap st) k) as Hold;
           [ first
               [ by apply (S_stopped _ Hinv)
               | edestruct (S_stopping _ Hinv) as [? ?]; [by_pc|done|done|];
                 eexists; split; [done|]; by split_and! ] |]
       end.
  all: try assumption.
  all: repeat match goal with
         | |- stopped_in (alter _ _ _) _ =>
             apply stopped_in_alter; [|intros s1 Hs1 Heq Hfs]
         | |- stopped_in (_ ++ [_]) _ => apply stopped_in_snoc
         end; try assumption.
  all: try (simpl; done).
  all: try (by apply fully_stopped_stop_enter).
  all: try (subst; destruct Hold as (? & Hold & _);
            apply lookup_lt_Some in Hold; lia).
  all: try (subst; apply (S_cur _ Hinv) in Hin; [|done]; congruence).
  all: simplify_eq;
    match goal with
    | Ht : _session_task _ = Some _ |- _ =>
        pose proof (fully_stopped_task _ _ Hfs Ht); congruence
    end.
Qed.

Lemma S_cur_step l st st' :
  InvA st -> InvS st -> step l st = Some st' ->
  forall c, session_var st' = Some c -> Stopped c ∈ trace st' -> at_ st' = returned.
Proof.
  intros HA Hinv Hs. pose proof (S_cur st Hinv) as HS.
  destruct l; step_inv Hs; unfold construct in *; simpl; try done.
  all: intros ? ? Hin; simplify_eq/=; trace_inv; try done.
  all: try (apply HS in Hin; [|done]; congruence).
  all: eapply A_trace in Hin; [|done|done]; lia.
Qed.

Lemma S_returned_step l st st' :
  InvS st -> step l st = Some st' ->
  forall c, at_ st' = returned -> session_var st' = Some c -> Stopped c ∈ trace st'.
Proof.
  intros Hinv Hs.
  pose proof (S_returned st Hinv) as HS. pose proof (S_accept st Hinv) as HS'.
  destruct l; step_inv Hs; unfold construct in *; simpl; try done.
  all: try (intros ? ? ?; simplify_eq/=; apply elem_of_app; right;
            by apply list_elem_of_singleton).
  all: try (intros ? ? ?; simplify_eq/=; repeat (apply elem_of_app; left);
            by eauto).
  all: intros ? _ Hc; rewrite HS' in Hc; [done|by_pc].
Qed.

Lemma S_timed_out_step l st st' :
  InvS st -> step l st = Some st' ->
  forall k, ConnectTimedOut k ∈ trace st' ->
            session_var st' = Some k /\ cleaning_up (at_ st') = true.
Proof.
  intros Hinv Hs. pose proof (S_timed_out st Hinv) as HS.
  destruct l; step_inv Hs; unfold construct in *; simpl; try done.
  all: intros ? Hin; trace_inv; try done.
  all: apply HS in Hin as [? Hc]; simplify_eq/=; try done.
  all: match goal with Hpc : at_ _ = _ |- _ => rewrite Hpc in Hc; done end.
Qed.

Lemma S_timeout_error_step l st st' :
  InvS st -> step l st = Some st' ->
  forall k, ConnectTimedOut k ∈ trace st' ->
            exists d, Send (Some k) (error (str_of Py.TimeoutError)) d ∈ trace st'.
Proof.
  intros Hinv Hs. pose proof (S_timeout_error st Hinv) as HS.
  destruct l; step_inv Hs; unfold construct in *; simpl; try done.
  all: intros ? Hin; trace_inv; try done.
  all: try (apply HS in Hin as [d' Hin]; exists d'; in_trace).
  all: eexists; in_trace.
Qed.

Lemma S_forward_step l st st' :
  InvS st -> step l st = Some st' ->
  each_preceded
    (fun pre x => forall k b, x = Forwarded k b -> Stopped k ∉ pre)
    (trace st').
Proof.
  intros Hinv Hs. pose proof (S_forward _ Hinv) as HO.
  destruct l; step_inv Hs; unfold construct in *; simpl; try done.
  all: repeat (apply each_preceded_snoc;
               [|intros ? ? [=] Hin; simplify_eq/=; trace_inv]);
    try done.
  all: apply (S_cur _ Hinv) in Hin; [|done]; congruence.
Qed.

Lemma InvS_reachable key st : reachable key st -> InvS st.
Proof.
  apply (reachable_invariant key InvS).
  - split; simpl; try done; try apply each_preceded_nil;
      repeat intro; trace_inv; done.
  - intros st0 l st1 Hr Hinv Hs. pose proof (InvA_reachable _ _ Hr) as HA. split.
    + by eapply S_accept_step.
    + by eapply S_session_step.
    + by eapply S_stopping_step.
    + by eapply S_stopped_step.
    + by eapply S_cur_step.
    + by eapply S_returned_step.
    + by eapply S_timed_out_step.
    + by eapply S_timeout_error_step.
    + by eapply S_forward_step.
Qed.

End Stopping.

(** ** Readiness events *)

Lemma count_started_fresh st :
  InvA st -> count (is_started (length (heap st))) (trace st) = 0.
Proof.
  intros HA. apply count_zero. intros [] Ho; simpl; try done.
  apply (A_trace _ HA) with (k := k) in Ho; [|done].
  case_bool_decide; [lia|done].
Qed.


Section Readiness.
Context `{Base64}.

Lemma R_first_step l st st' :
  InvA st -> InvS st -> InvR st -> step l st = Some st' ->
  at_ st' = at_start -> session_var st' = Some 0.
Proof.
  intros HA HS Hinv Hs.
  destruct l; step_inv Hs; unfold construct in *; simpl; try done.
  all: try (intros ?; apply (R_first _ Hinv); by_pc).
  intros _. pose proof (A_var _ HA) as Hv.
  rewrite (S_accept _ HS) in Hv by by_pc. by rewrite Hv.
Qed.

Lemma R_later_step l st st' :
  InvR st -> step l st = Some st' ->
  at_ st' = at_reset_start -> exists j, session_var st' = Some (S j).
Proof.
  intros Hinv Hs.
  destruct l; step_inv Hs; unfold construct in *; simpl; try done.
  all: try (intros ?; apply (R_later _ Hinv); by_pc).
  intros _.
  match goal with Hl : heap st !! _ = Some _ |- _ => apply lookup_lt_Some in Hl end.
  destruct (length (heap st)); [lia|eauto].
Qed.

Lemma R_fresh_step l st st' :
  InvA st -> InvR st -> step l st = Some st' ->
  forall c, starting (at_ st') = true -> session_var st' = Some c ->
            count (is_started c) (trace st') = 0.
Proof.
  intros HA Hinv Hs.
  destruct l; step_inv Hs; unfold construct in *; simpl; try done.
  all: intros ? Hpc ?; simplify_eq/=; rewrite ?count_snoc; simpl.
  all: try (rewrite (R_fresh _ Hinv); [done|by_pc|done]).
  all: by rewrite count_started_fresh.
Qed.

Lemma R_once_step l st st' :
  InvR st -> step l st = Some st' ->
  forall k, count (is_started k) (trace st') <= 1.
Proof.
  intros Hinv Hs.
  destruct l; step_inv Hs; unfold construct in *; simpl; try done.
  all: intros k0; rewrite ?count_snoc; simpl; pose proof (R_once _ Hinv k0).
  all: repeat case_match; simplify_eq/=; try lia.
  all: match goal with
       | Hb : bool_decide (_ = _) = true |- _ =>
           apply bool_decide_eq_true in Hb; subst
       end.
  all: rewrite (R_fresh _ Hinv); [lia|by_pc|done].
Qed.

Lemma R_count_step l st st' :
  InvR st -> step l st = Some st' ->
  forall k, count (is_readiness_of k) (trace st')
            = count (is_started k) (trace st').
Proof.
  intros Hinv Hs.
  destruct l; step_inv Hs; unfold construct in *; simpl; try done.
  all: intros k0; rewrite ?count_snoc; simpl; rewrite (R_count _ Hinv k0).
  all: repeat case_match; simplify_eq/=; lia.
Qed.

Lemma R_kind_step l st st' :
  InvR st -> step l st = Some st' ->
  forall k ev d,
    Send (Some k) ev d ∈ trace st' -> readiness ev = true -> ev = readiness_of k.
Proof.
  intros Hinv Hs.
  destruct l; step_inv Hs; unfold construct in *; simpl; try done.
  all: intros ? ? ? Hin Hev; trace_inv; try done.
  all: try (by eapply (R_kind _ Hinv)).
  all: match goal with
       | Hpc : at_ _ = at_start |- _ =>
           pose proof (R_first _ Hinv Hpc); by simplify_eq
       | Hpc : at_ _ = at_reset_start |- _ =>
           destruct (R_later _ Hinv Hpc) as [? ?]; by simplify_eq
       end.
Qed.

Lemma R_none_step l st st' :
  InvS st -> InvR st -> step l st = Some st' ->
  forall ev d, Send None ev d ∈ trace st' -> ev = error api_key_not_configured.
Proof.
  intros HS Hinv Hs.
  destruct l; step_inv Hs; unfold construct in *; simpl; try done.
  all: intros ? ? Hin; trace_inv; try done.
  all: try (by eapply (R_none _ Hinv)).
  all: destruct (S_session _ HS) as [? Hc]; [by_pc|by_pc|congruence].
Qed.

Lemma R_order_step l st st' :
  InvR st -> step l st = Some st' ->
  each_preceded
    (fun pre x => forall k ev d,
         x = Send (Some k) ev d -> readiness ev = true -> Started k ∈ pre)
    (trace st').
Proof.
  intros Hinv Hs. pose proof (R_order _ Hinv) as HO.
  destruct l; step_inv Hs; unfold construct in *; simpl; try done.
  all: repeat (apply each_preceded_snoc; [|intros ? ? ? [=] ?; simplify_eq/=]);
    try done.
  all: in_trace.
Qed.

Lemma InvR_reachable key st : reachable key st -> InvR st.
Proof.
  apply (reachable_invariant key InvR).
  - split; simpl; try done; try apply each_preceded_nil;
      repeat intro; trace_inv. unfold count. simpl. lia.
  - intros st0 l st1 Hr Hinv Hs.
    pose proof (InvA_reachable _ _ Hr) as HA.
    pose proof (InvS_reachable _ _ Hr) as HS. split.
    + by eapply R_first_step.
    + by eapply R_later_step.
    + by eapply R_fresh_step.
    + by eapply R_once_step.
    + by eapply R_count_step.
    + by eapply R_kind_step.
    + by eapply R_none_step.
    + by eapply R_order_step.
Qed.

End Readiness.

(** ** Resets and the pump pairs *)

Ltac resp_inv :=
  repeat match goal with
    | H : _ <$> _ = Some _ |- _ => apply fmap_Some in H as (? & H & ->)
    end.

Lemma raised_cancel t : raised (Responses.cancel t) = raised t.
Proof. unfold Responses.cancel. by destruct (raised t) eqn:?. Qed.

Lemma cancelled_cancel t :
  cancelled (Responses.cancel t) = true \/ raised (Responses.cancel t) = true.
Proof. unfold Responses.cancel. destruct (raised t) eqn:?; [by right|by left]. Qed.

Lemma var_bound st r n :
  InvA st -> response_task st = Some r -> session_var st = Some n -> r <= n.
Proof.
  intros HA Hr Hn. pose proof (A_task _ HA _ Hr). pose proof (A_var _ HA) as Hv.
  rewrite Hn in Hv. lia.
Qed.

Section PumpPairs.
Context `{Base64}.

Lemma P_none_step l st st' :
  InvP st -> step l st = Some st' ->
  before_loop (at_ st') = true -> response_task st' = None.
Proof.
  intros Hinv Hs.
  destruct l; step_inv Hs; unfold construct in *; simpl; try done.
  all: intros ?; apply (P_none _ Hinv); by_pc.
Qed.

Lemma P_raised_step l st st' :
  InvP st -> step l st = Some st' ->
  forall j s t,
    heap st' !! j = Some s -> responses s = Some t ->
    raised t = true -> broken st' <> None.
Proof.
  intros Hinv Hs.
  destruct l; step_inv Hs; unfold construct in *; simpl; try done.
  all: intros ? ? ? Hl Hr Hra; slot_inv; simplify_eq/=; try done.
  all: try (by eapply (P_raised _ Hinv)).
  all: resp_inv; rewrite ?raised_cancel in Hra; simpl in Hra.
  all: try (by eapply (P_raised _ Hinv)).
  all: congruence.
Qed.

Lemma P_same_step l st st' :
  InvP st -> step l st = Some st' ->
  in_loop (at_ st') = true -> response_task st' = session_var st'.
Proof.
  intros Hinv Hs.
  destruct l; step_inv Hs; unfold construct in *; simpl; try done.
  all: intros ?; apply (P_same _ Hinv); by_pc.
Qed.

Lemma P_next_step l st st' :
  InvA st -> InvP st -> step l st = Some st' ->
  forall r c,
    at_ st' = at_reset_start ->
    response_task st' = Some r -> session_var st' = Some c -> c = S r.
Proof.
  intros HA Hinv Hs.
  destruct l; step_inv Hs; unfold construct in *; simpl; try done.
  all: intros ? ? ? ? ?; simplify_eq/=.
  all: try (by eapply (P_next _ Hinv)).
  pose proof (A_var _ HA) as Hv.
  assert (response_task st = session_var st) as Hsame
    by (apply (P_same _ Hinv); by_pc).
  match goal with
  | Hr : response_task st = Some _, Hc : session_var st = Some _ |- _ =>
      rewrite Hc in Hv; rewrite Hr, Hc in Hsame
  end.
  by simplify_eq.
Qed.

Lemma P_old_step l st st' :
  InvP st -> step l st = Some st' ->
  forall j s t,
  heap st' !! j = Some s -> responses s = Some t ->
  response_task st' <> Some j -> cancelled t = true \/ raised t = true.
Proof.
  intros Hinv Hs.
  destruct l; step_inv Hs; unfold construct in *; simpl; try done.
  all: intros ? ? ? Hl Hr Hne; slot_inv; simplify_eq/=; try done.
  all: try (by eapply (P_old _ Hinv)).
  all: resp_inv; simpl.
  all: try (by eapply (P_old _ Hinv)).
  all: try (rewrite raised_cancel; by eapply (P_old _ Hinv)).
  all: try (by right).
  all: try apply cancelled_cancel.
  all: try (eapply (P_old _ Hinv); [done|done|congruence]).
  all: eapply (P_old _ Hinv); [done|done|]; rewrite (P_none _ Hinv); [done|by_pc].
Qed.

Lemma P_done_step l st st' :
  InvA st -> InvP st -> step l st = Some st' ->
  forall k d,
  Send (Some k) session_reset_done d ∈ trace st' ->
  exists r, response_task st' = Some r /\ k <= r.
Proof.
  intros HA Hinv Hs.
  destruct l; step_inv Hs; unfold construct in *; simpl; try done.
  all: intros ? ? Hin; trace_inv.
  all: try (by eapply (P_done _ Hinv)).
  all: try (eexists; split; [done|lia]).
  all: apply (P_done _ Hinv) in Hin as (r & Hr & Hle).
  all: eexists; split; [done|].
  all: pose proof (var_bound _ _ _ HA Hr ltac:(done)); lia.
Qed.

Lemma P_order_step l st st' :
  InvA st -> InvP st -> step l st = Some st' ->
  each_preceded
    (fun pre y => forall k' ev,
         y = Send (Some k') ev true ->
         forall k d, Send (Some k) session_reset_done d ∈ pre -> k <= k')
    (trace st').
Proof.
  intros HA Hinv Hs. pose proof (P_order _ Hinv) as HO.
  destruct l; step_inv Hs; unfold construct in *; simpl; try done.
  all: repeat (apply each_preceded_snoc;
               [|intros ? ? [=] ? ? Hin; simplify_eq/=; trace_inv]);
    try done.
  all: apply (P_done _ Hinv) in Hin as (r' & Hr & Hle).
  all: try (pose proof (var_bound _ _ _ HA Hr ltac:(done)); lia).
  all: match goal with |- (_ <= ?j)%nat =>
         destruct (decide (r' = j)) as [->|Hne]; [lia|];
         exfalso; edestruct (P_old _ Hinv j) as [Hc|Hra];
           [done|done|congruence|congruence|];
         by eapply (P_raised _ Hinv) in Hra end.
Qed.

Lemma P_shape_step l st st' :
  InvA st -> InvP st -> step l st = Some st' ->
  each_preceded
    (fun pre x => forall k d,
         x = Send (Some k) session_reset_done d ->
         exists pre' j,
           pre = pre' ++ [Started k; Cancelled j; Spawned k] /\ k = S j)
    (trace st').
Proof.
  intros HA Hinv Hs. pose proof (P_shape _ Hinv) as HO.
  destruct l; step_inv Hs; unfold construct in *; simpl; try done.
  all: repeat (apply each_preceded_snoc; [|intros ? ? [=]; simplify_eq/=]);
    try done.
  all: exists (trace st); eexists; split; [by rewrite <- !app_assoc|].
  all: by eapply (P_next _ Hinv).
Qed.

Lemma P_teardown_step l st st' :
  InvA st -> InvS st -> InvP st -> step l st = Some st' ->
  each_preceded
    (fun pre x => forall k,
         x = Constructed (S k) -> exists pre', pre = pre' ++ [Stopped k])
    (trace st').
Proof.
  intros HA HS Hinv Hs. pose proof (P_teardown _ Hinv) as HO.
  destruct l; step_inv Hs; unfold construct in *; simpl; try done.
  all: repeat (apply each_preceded_snoc; [|intros ? [=]; simplify_eq/=]);
    try done.
  all: pose proof (A_var _ HA) as Hv.
  - rewrite (S_accept _ HS) in Hv by by_pc. by rewrite Hv in *.
  - match goal with Hc : session_var st = Some _ |- _ => rewrite Hc in Hv end.
    exists (trace st). repeat f_equal. lia.
Qed.
Lemma P_constructed_step l st st' :
  InvP st -> step l st = Some st' ->
  forall c, session_var st' = Some c -> Constructed c ∈ trace st'.
Proof.
  intros Hinv Hs.
  destruct l; step_inv Hs; unfold construct in *; simpl; try done.
  all: intros ? ?; simplify_eq/=; in_trace.
  all: by apply (P_constructed _ Hinv).
Qed.

Lemma P_started_step l st st' :
  InvP st -> step l st = Some st' ->
  each_preceded
    (fun pre x => forall k, x = Started k -> Constructed k ∈ pre)
    (trace st').
Proof.
  intros Hinv Hs. pose proof (P_started _ Hinv) as HO.
  destruct l; step_inv Hs; unfold construct in *; simpl; try done.
  all: repeat (apply each_preceded_snoc; [|intros ? [=]; simplify_eq/=]);
    try done.
  all: by apply (P_constructed _ Hinv).
Qed.

Lemma InvP_reachable key st : reachable key st -> InvP st.
Proof.
  apply (reachable_invariant key InvP).
  - split; simpl; try done; try apply each_preceded_nil;
      repeat intro; trace_inv; done.
  - intros st0 l st1 Hr Hinv Hs.
    pose proof (InvA_reachable _ _ Hr) as HA.
    pose proof (InvS_reachable _ _ Hr) as HS. split.
    + by eapply P_none_step.
    + by eapply P_same_step.
    + by eapply P_raised_step.
    + by eapply P_old_step.
    + by eapply P_next_step.
    + by eapply P_done_step.
    + by eapply P_order_step.
    + by eapply P_shape_step.
    + by eapply P_teardown_step.
    + by eapply P_constructed_step.
    + by eapply P_started_step.
Qed.

End PumpPairs.

(** ** The properties of the specification *)

Lemma blank_head c s : blank (c :: s) -> Py.isspace c = true.
Proof. unfold blank. by inversion_clear 1. Qed.

Lemma trimmed_not_blank s : trimmed s -> ~ blank s.
Proof.
  intros (Hne & Hhd & _) Hb. destruct s as [|c s]; [done|].
  pose proof (blank_head _ _ Hb) as Hc. by rewrite (Hhd c eq_refl) in Hc.
Qed.

Lemma strip_not_blank s : Py.strip s <> [] -> ~ blank s.
Proof. intros Hne Hb. by apply Hne, strip_blank. Qed.

Lemma each_preceded_later P tr pre x post y :
  each_preceded P tr -> tr = pre ++ x :: post -> y ∈ post ->
  exists mid post', post = mid ++ y :: post' /\ P (pre ++ x :: mid) y.
Proof.
  intros HP -> (mid & post' & ->)%list_elem_of_split.
  exists mid, post'. split; [done|].
  apply (HP (pre ++ x :: mid) y post'). by rewrite <- app_assoc.
Qed.

Lemma goto_same st : goto (at_ st) st = st.
Proof. by destruct st. Qed.

Lemma on_slot_same k f st s :
  heap st !! k = Some s -> f s = s -> on_slot k f st = st.
Proof.
  intros Hk Hf. unfold on_slot, set_heap. rewrite (alter_id_at f _ k s Hk Hf).
  by destruct st.
Qed.

Section Claims.
Context `{Base64}.

(** C7. A transcription fragment that is empty or all whitespace is never
    shown to the client: the receive loop puts nothing on the transcript
    queue for it, and every [transcript] event sent stems from a fragment
    that is not blank and has a text that is not blank. *)
Theorem blank_fragment_never_emitted key st :
  reachable key st ->
  (forall response who fragment item,
     fragment_of who response = Some fragment -> blank fragment ->
     item ∈ transcript_puts response -> t_type item <> who)
  /\ (forall ko text sender d,
        Send ko (transcript text sender) d ∈ trace st ->
        ~ blank text
        /\ exists k response fragment,
             ko = Some k /\ Received k response ∈ trace st
             /\ fragment_of sender response = Some fragment
             /\ ~ blank fragment).
Proof.
  intros Hr. split.
  - intros response who fragment item Hf Hb Hin <-.
    apply transcript_puts_inv in Hin as (fragment' & Hf' & _ & Hne).
    rewrite Hf in Hf'. injection Hf' as <-. by apply Hne, strip_blank.
  - intros ko text sender d Hin.
    destruct (T_sent _ (InvT_reachable _ _ Hr) _ _ _ _ Hin)
      as (k & -> & (response & fragment & Hrec & Hf & Ht) & Hne).
    simpl in *. subst text. split.
    + by apply trimmed_not_blank, strip_trimmed.
    + exists k, response, fragment. split_and!; try done. by apply strip_not_blank.
Qed.

(** C9. The text of every [transcript] event sent is a fragment the receive
    loop of that session got, stripped; it is not empty and has no
    whitespace at either end. *)
Theorem transcript_text_is_stripped_fragment key st ko text sender d :
  reachable key st ->
  Send ko (transcript text sender) d ∈ trace st ->
  (exists k response fragment,
     ko = Some k /\ Received k response ∈ trace st
     /\ fragment_of sender response = Some fragment
     /\ text = Py.strip fragment)
  /\ trimmed text.
Proof.
  intros Hr Hin.
  destruct (T_sent _ (InvT_reachable _ _ Hr) _ _ _ _ Hin)
    as (k & -> & (response & fragment & Hrec & Hf & Ht) & Hne).
  simpl in *. subst text. split; [|by apply strip_trimmed].
  by exists k, response, fragment.
Qed.

(** C10. An [input_audio_buffer.append] message whose [delta] is absent or
    the empty string changes nothing: [process_audio] is not called (the
    trace gets no [ProcessAudio]) and the endpoint waits for the next
    message. *)
Theorem append_without_delta_is_dropped st d :
  at_ st = at_receive_json ->
  Py.eq_str (Py.dict_get d msg_type_key (Py.JStr [])) input_audio_buffer_append = true ->
  Py.dict_lookup d delta_key = None \/ Py.dict_lookup d delta_key = Some (Py.JStr []) ->
  step (Endpoint (Receives (Py.JDict d))) st = Some st.
Proof.
  intros Hpc Hty Hdelta. simpl. unfold voice_chat_endpoint, dispatch. rewrite Hpc. simpl.
  rewrite Hty. unfold Py.dict_get. destruct Hdelta as [-> | ->]; simpl.
  all: by rewrite <- Hpc, goto_same.
Qed.

(** C6. Once [stop()] has returned on a session, [process_audio] on it
    forwards nothing and raises nothing, whatever the block and whatever
    the other tasks do afterwards; and no block is forwarded for that
    session after that point. *)
Theorem no_audio_forwarded_after_stop key st k :
  reachable key st ->
  Stopped k ∈ trace st ->
  (exists s, heap st !! k = Some s
             /\ forall audio, Voice.process_audio (self s) audio = Gemini.Dropped)
  /\ (forall pre post audio_bytes,
        trace st = pre ++ Stopped k :: post -> Forwarded k audio_bytes ∉ post).
Proof.
  intros Hr Hin. pose proof (InvS_reachable _ _ Hr) as HS. split.
  - destruct (S_stopped _ HS _ Hin) as (s & Hs & _ & Hrun & _).
    exists s. split; [done|]. intros audio.
    unfold Voice.process_audio, Gemini.send_audio. by rewrite Hrun, andb_false_r.
  - intros pre post audio_bytes Htr Hfw.
    destruct (each_preceded_later _ _ _ _ _ _ (S_forward _ HS) Htr Hfw)
      as (mid & post' & _ & HP).
    apply (HP k audio_bytes eq_refl). apply elem_of_app. right. left.
Qed.

(** C8. A second [stop()] changes nothing and does not wait: after [stop()]
    the flags are down and the session task is done, [stop()] again is the
    identity, on the object and on the state of the system (so no event is
    sent), and [close()] on a session that never connected, or whose
    [connect()] is still waiting, ends the same way. *)
Theorem stop_is_idempotent (v : VoiceChatSession) :
  let v' := Voice.stop v in
  fully_stopped v'
  /\ Voice.stop_enter v' = v'
  /\ Voice.stop v' = v'
  /\ (forall st k s,
        heap st !! k = Some s -> self s = v' ->
        on_slot k (on_self Voice.stop_enter) st = st)
  /\ Voice.stop Voice.new = Voice.new
  /\ fully_stopped (Voice.stop (Voice.start_enter Voice.new)).
Proof.
  assert (fully_stopped (Voice.stop v)) as Hfs.
  { destruct v as [[? ? ? [[[] ?]|] ? ?] ?]; by cbv. }
  assert (Voice.stop_enter (Voice.stop v) = Voice.stop v) as Hid.
  { unfold Voice.stop, Voice.stop_ready, Gemini.close_ready.
    destruct v as [[? ? ? [[[] ?]|] ? ?] ?]; reflexivity. }
  simpl. split_and!; try done.
  - unfold Voice.stop at 1. rewrite Hid. by destruct Hfs as (_ & _ & ->).
  - intros st k s Hk Hs. apply (on_slot_same _ _ _ s Hk).
    destruct s as [v0 r]. simpl in *. subst v0. unfold on_self. simpl. by rewrite Hid.
Qed.

Lemma stopped_no_handle v :
  handle_ok (gemini v) -> fully_stopped v -> session (gemini v) = None.
Proof.
  intros [Hh _] Hfs. destruct (session (gemini v)) eqn:Hs; [|done].
  destruct Hh as [mc Ht]; [done|].
  by pose proof (fully_stopped_task _ _ Hfs Ht).
Qed.


(** A step of a pump of the object [j] leaves every other object as it is:
    a pump reads the queues of its own session only. *)
Lemma pump_reads_own_queues j o st st' :
  _handle_audio j o st = Some st' \/ _handle_transcripts j o st = Some st' ->
  forall i, i <> j -> heap st' !! i = heap st !! i.
Proof.
  intros [Hs|Hs] i Hne; step_inv Hs; simpl;
    by rewrite ?list_lookup_alter_ne by done.
Qed.


End Claims.

(** ** Runs that settle the other properties *)

Import Rfc4648.

Lemma demo_reachable ls st : run ls (init Demo.key) = Some st -> reachable Demo.key st.
Proof. apply reachable_run. Qed.

(** C1, as the spec states it, fails: in this run the receive loop of the new
    session [1] has put a message's items on its queues while the pump pair
    of the old session [0] is neither cancelled nor finished. *)
Lemma new_receive_loop_enqueues_before_old_pumps_cancelled :
  exists st s0 t0 s1,
    run Demo.reset_early_message (init Demo.key) = Some st
    /\ Received 1 Demo.hello ∈ trace st
    /\ (Cancelled 0 ∉ trace st)
    /\ heap st !! 0 = Some s0 /\ responses s0 = Some t0 /\ pumps_alive t0 = true
    /\ heap st !! 1 = Some s1
    /\ _audio_queue (gemini (self s1)) = [Some ([1; 2; 3]%N); Some ([4]%N); None].
Proof.
  eexists _, _, _, _. split; [vm_compute; reflexivity|].
  split_and!; try reflexivity.
  - do 6 right. left.
  - intros Hin. repeat (apply elem_of_cons in Hin as [Hin|Hin]; [discriminate|]).
    by apply elem_of_nil in Hin.
Qed.


(** C2 fails on the code: a reset while the audio pump polls. [stop()] clears
    the flags, the poll times out, [get_audio_chunks] returns because the
    session is not running, and [_handle_audio] sends [audio.done]: one
    [audio.done] delivered, no sentinel dequeued. *)
Theorem audio_done_without_sentinel :
  exists st,
    run Demo.reset_then_poll (init Demo.key) = Some st
    /\ count is_audio_done (trace st) = 1
    /\ count is_sentinel_dequeued (trace st) = 0.
Proof. eexists. split; [vm_compute; reflexivity|]. by split. Qed.

(** C5 fails on the code: a message that decodes to a JSON value that is not
    an object, or an append whose [delta] is not valid base64, is not
    ignored: the exception reaches the outer handler, an [error] event is
    sent, and the endpoint stops the session and returns. *)
Theorem unrecognized_message_ends_the_session :
  (exists st,
     run (Demo.up ++ [Endpoint (Receives (Py.JList []));
                      Endpoint Returns; RunSession 0 TakesCancel; Endpoint Returns])
       (init Demo.key) = Some st
     /\ at_ st = returned
     /\ trace st = [Constructed 0; Started 0; Send (Some 0) session_ready true;
                    Spawned 0;
                    Send (Some 0) (error (str_of Py.AttributeError)) true;
                    Stopped 0])
  /\ (exists st,
        run (Demo.up ++ [Endpoint (Receives (Demo.append_message "A"));
                         Endpoint Returns; RunSession 0 TakesCancel; Endpoint Returns])
          (init Demo.key) = Some st
        /\ at_ st = returned
        /\ trace st = [Constructed 0; Started 0; Send (Some 0) session_ready true;
                       Spawned 0; ProcessAudio 0 (Py.JStr (Py.lit "A"));
                       Send (Some 0) (error (str_of Py.BinasciiError)) true;
                       Stopped 0]).
Proof.
  split; (eexists; split; [vm_compute; reflexivity|]); by split.
Qed.

(** ** The properties at the runs of [Demo] *)

Lemma one_turn_run :
  run Demo.one_turn (init Demo.key) = Some (Demo.state_after Demo.one_turn).
Proof. vm_compute. reflexivity. Qed.

Lemma reset_done_run :
  run Demo.reset_done (init Demo.key) = Some (Demo.state_after Demo.reset_done).
Proof. vm_compute. reflexivity. Qed.

Lemma timeout_cleaned_up_run :
  run Demo.timeout_cleaned_up (init Demo.key)
  = Some (Demo.state_after Demo.timeout_cleaned_up).
Proof. vm_compute. reflexivity. Qed.

Lemma up_run : run Demo.up (init Demo.key) = Some (Demo.state_after Demo.up).
Proof. vm_compute. reflexivity. Qed.

(** An element of a list that is written out. *)
Ltac in_list := vm_compute; repeat first [left | right].

Lemma blank_fragment_never_emitted_witness :
  reachable Demo.key (Demo.state_after Demo.one_turn)
  /\ ~ blank (Py.lit "hi")
  /\ exists k response fragment,
       Some 0 = Some k
       /\ Received k response ∈ trace (Demo.state_after Demo.one_turn)
       /\ fragment_of assistant response = Some fragment
       /\ ~ blank fragment.
Proof.
  assert (Hr := demo_reachable _ _ one_turn_run). split; [exact Hr|].
  apply (proj2 (blank_fragment_never_emitted Demo.key _ Hr)
           (Some 0) (Py.lit "hi") assistant true).
  in_list.
Defined.

Lemma transcript_text_is_stripped_fragment_witness :
  reachable Demo.key (Demo.state_after Demo.one_turn)
  /\ (exists k response fragment,
        Some 0 = Some k
        /\ Received k response ∈ trace (Demo.state_after Demo.one_turn)
        /\ fragment_of assistant response = Some fragment
        /\ Py.lit "hi" = Py.strip fragment)
  /\ trimmed (Py.lit "hi").
Proof.
  assert (Hr := demo_reachable _ _ one_turn_run). split; [exact Hr|].
  apply (transcript_text_is_stripped_fragment Demo.key _
           (Some 0) (Py.lit "hi") assistant true Hr).
  in_list.
Defined.

Lemma append_without_delta_is_dropped_witness :
  step (Endpoint (Receives (Demo.append_message "")))
    (Demo.state_after Demo.up)
  = Some (Demo.state_after Demo.up).
Proof.
  apply (append_without_delta_is_dropped (Demo.state_after Demo.up)).
  - reflexivity.
  - reflexivity.
  - right. reflexivity.
Defined.

Lemma no_audio_forwarded_after_stop_witness :
  reachable Demo.key (Demo.state_after Demo.reset_done)
  /\ (exists s,
        heap (Demo.state_after Demo.reset_done) !! 0 = Some s
        /\ forall audio, Voice.process_audio (self s) audio = Gemini.Dropped)
  /\ (forall pre post audio_bytes,
        trace (Demo.state_after Demo.reset_done) = pre ++ Stopped 0 :: post ->
        Forwarded 0 audio_bytes ∉ post).
Proof.
  assert (Hr := demo_reachable _ _ reset_done_run). split; [exact Hr|].
  apply (no_audio_forwarded_after_stop Demo.key _ 0 Hr). in_list.
Defined.


(** * More properties of the code *)

(** ** The [error] event and the missing key *)

Section ErrorEvents.
Context `{Base64}.

Lemma E_none_step l st st' :
  InvE st -> step l st = Some st' ->
  leaving (at_ st') = false -> count is_error (trace st') = 0.
Proof.
  intros Hinv Hs. pose proof (E_none _ Hinv) as HE.
  destruct l; step_inv Hs; unfold construct in *; simpl; try done.
  all: rewrite ?count_snoc; simpl.
  all: intros Hl; rewrite HE; [done|first [exact Hl|by_pc]].
Qed.

Lemma E_once_step l st st' :
  InvE st -> step l st = Some st' -> count is_error (trace st') <= 1.
Proof.
  intros Hinv Hs. pose proof (E_none _ Hinv) as HE. pose proof (E_once _ Hinv) as HO.
  destruct l; step_inv Hs; unfold construct in *; simpl; try done.
  all: rewrite ?count_snoc; simpl; try lia.
  all: rewrite HE; [lia|by_pc].
Qed.

Lemma E_last_step l st st' :
  InvE st -> step l st = Some st' ->
  each_preceded
    (fun pre x => endpoint_act x = true -> count is_error pre = 0)
    (trace st').
Proof.
  intros Hinv Hs. pose proof (E_none _ Hinv) as HE. pose proof (E_last _ Hinv) as HO.
  destruct l; step_inv Hs; unfold construct in *; simpl; try done.
  all: repeat (apply each_preceded_snoc; [|intros Hact; try done]); try done.
  all: rewrite ?count_snoc; simpl.
  all: rewrite HE; [done|by_pc].
Qed.

Lemma InvE_reachable key st : reachable key st -> InvE st.
Proof.
  apply (reachable_invariant key InvE).
  - split; simpl; try done; [unfold count; simpl; lia|apply each_preceded_nil].
  - intros st0 l st1 Hr Hinv Hs. split.
    + by eapply E_none_step.
    + by eapply E_once_step.
    + by eapply E_last_step.
Qed.

End ErrorEvents.

Section MissingKey.
Context `{Base64}.

Lemma has_key_configured key st : InvK key st -> has_key st = configured key.
Proof. intros HK. unfold has_key. by rewrite (K_key _ _ HK). Qed.

Lemma InvK_step key l st st' :
  InvK key st -> step l st = Some st' -> InvK key st'.
Proof.
  intros HK Hs. pose proof (has_key_configured _ _ HK) as Hkey.
  destruct (configured key) eqn:Hc.
  - split; try (intros; congruence).
    + rewrite <- (K_key _ _ HK).
      destruct l; step_inv Hs; unfold construct in *; simpl; done.
    + intros _. pose proof (K_configured _ _ HK Hc) as HO.
      destruct l; step_inv Hs; unfold construct in *; simpl; try done.
      all: intros ? ? Hin; trace_inv; try done; by eapply HO.
  - pose proof (K_heap _ _ HK Hc) as Hh.
    pose proof (K_var _ _ HK Hc) as Hv.
    pose proof (K_accept _ _ HK Hc) as Ha.
    pose proof (K_closing _ _ HK Hc) as Hcl.
    pose proof (K_trace _ _ HK Hc) as Ht.
    pose proof (K_pc _ _ HK Hc) as Hpc.
    assert (GOOGLE_API_KEY st' = key /\ heap st' = [] /\ session_var st' = None
            /\ (before_session (at_ st') = true \/ at_ st' = returned)
            /\ (at_ st' = at_accept -> trace st' = [])
            /\ (at_ st' <> at_accept -> at_ st' <> returned ->
                trace st' = [missing_key_error true])
            /\ (trace st' = [] \/ exists d, trace st' = [missing_key_error d]))
      as (? & ? & ? & ? & ? & ? & ?).
    { rewrite <- (K_key _ _ HK).
      destruct l; step_inv Hs; unfold construct in *; simpl.
      all: try (rewrite Hh in *; done).
      all: try (by destruct Hpc).
      all: split_and!; try done; eauto.
      all: try (rewrite Ha by done; unfold missing_key_error; simpl; by eauto).
      all: try (intros; apply Hcl; congruence).
      all: try (intros; rewrite Hcl by congruence; eauto). }
    split; try done. intros; congruence.
Qed.

Lemma InvK_reachable key st : reachable key st -> InvK key st.
Proof.
  apply (reachable_invariant key (InvK key)).
  - split; simpl; try done; eauto.
    intros _ ? ? ?%elem_of_nil. done.
  - intros st0 l st1 _ Hinv Hs. by eapply InvK_step.
Qed.

End MissingKey.

(** ** The life of the session objects *)

Section SessionLife.
Context `{Base64}.

Lemma L_stopped_step l st st' :
  InvA st -> InvS st -> InvL st -> step l st = Some st' ->
  forall k, Constructed k ∈ trace st' ->
            session_var st' = Some k \/ Stopped k ∈ trace st'.
Proof.
  intros HA HS Hinv Hs. pose proof (L_stopped _ Hinv) as HL.
  destruct l; step_inv Hs; unfold construct in *; simpl; try done.
  all: intros ? Hin; trace_inv; eauto.
  all: try (destruct (HL _ Hin) as [?|?]; [left; congruence|right; in_trace]).
  all: try (destruct (HL _ Hin) as [?|?]; simplify_eq; right; in_trace).
  all: apply (A_trace _ HA) with (k := k) in Hin; [|done].
  all: rewrite (S_accept _ HS) in *; by_pc.
Qed.

Lemma L_started_step l st st' :
  InvL st -> step l st = Some st' ->
  forall c, serving (at_ st') = true -> session_var st' = Some c ->
            Started c ∈ trace st'.
Proof.
  intros Hinv Hs. pose proof (L_started _ Hinv) as HL.
  destruct l; step_inv Hs; unfold construct in *; simpl; try done.
  all: intros ? Hpc ?; simplify_eq/=.
  all: try (in_trace; apply HL; by_pc).
  all: in_trace.
Qed.

Lemma L_first_step l st st' :
  InvR st -> InvL st -> step l st = Some st' ->
  at_ st' = at_send_ready ->
  session_var st' = Some 0 /\ Send (Some 0) session_ready true ∈ trace st'.
Proof.
  intros HR Hinv Hs. pose proof (L_first _ Hinv) as HL.
  pose proof (R_first _ HR) as H0.
  destruct l; step_inv Hs; unfold construct in *; simpl; try done.
  all: try (intros Hpc; destruct (HL Hpc) as [? ?]; split; [done|in_trace]).
  all: intros _; rewrite H0 in *; simplify_eq; try done.
  all: split; [done|in_trace].
Qed.

Lemma L_unspawned_step l st st' :
  InvA st -> InvL st -> step l st = Some st' ->
  forall c s, unspawned (at_ st') = true ->
              session_var st' = Some c -> heap st' !! c = Some s ->
              responses s = None.
Proof.
  intros HA Hinv Hs. pose proof (L_unspawned _ Hinv) as HL.
  pose proof (InvA_var_lt st) as Hlt.
  destruct l; step_inv Hs; unfold construct in *; simpl; try done.
  all: intros ? ? Hpc ? Hl; simplify_eq/=; slot_inv; simpl; try done.
  all: try (eapply HL; [|done..]; by_pc).
  all: try (rewrite length_app in *; simpl in *; lia).
  all: try (match goal with
            | Hk : heap _ !! ?k = Some ?s, Hr : responses ?s = Some _ |- _ =>
                rewrite (HL k s) in Hr; [done|by_pc|done..]
            end).
Qed.

Lemma L_spawned_step l st st' :
  InvR st -> InvL st -> step l st = Some st' ->
  forall k s t, heap st' !! k = Some s -> responses s = Some t ->
                exists d, Send (Some k) (readiness_of k) d ∈ trace st'.
Proof.
  intros HR Hinv Hs. pose proof (L_spawned _ Hinv) as HL.
  pose proof (L_first _ Hinv) as H0. pose proof (R_later _ HR) as H1.
  destruct l; step_inv Hs; unfold construct in *; simpl; try done.
  all: intros ? ? ? Hl Hr; simplify_eq/=; slot_inv; simpl in *; try done.
  all: try (destruct (responses _) eqn:Hr'; simplify_eq/=).
  all: try (edestruct HL as [d' Hd]; [done..|]; exists d'; in_trace).
  all: try (destruct H0 as [? ?]; [done|]; simplify_eq; eexists; in_trace).
  all: try (destruct H1 as [? ?]; [done|]; simplify_eq; eexists; in_trace).
Qed.

Lemma L_delivered_step l st st' :
  InvL st -> step l st = Some st' ->
  forall ko ev d, broken st' = None -> Send ko ev d ∈ trace st' -> d = true.
Proof.
  intros Hinv Hs. pose proof (L_delivered _ Hinv) as HL.
  destruct l; step_inv Hs; unfold construct in *; simpl; try done.
  all: intros ? ? ? Hb Hin; trace_inv; try done.
  all: try (eapply HL; [|done]; done).
  all: try (case_bool_decide; congruence).
  all: congruence.
Qed.

Lemma L_task_step l st st' :
  InvL st -> step l st = Some st' ->
  forall k s t, stopping (at_ st') = true ->
                session_var st' = Some k -> heap st' !! k = Some s ->
                _session_task (gemini (self s)) = Some t ->
                rs_pc t = run_finished \/ must_cancel t = true.
Proof.
  intros Hinv Hs. pose proof (L_task _ Hinv) as HL.
  destruct l; step_inv Hs; unfold construct in *; simpl; try done.
  all: intros ? ? ? Hpc ? Hl Ht; simplify_eq/=; slot_inv; simpl in *.
  all: try (eapply HL; [|done..]; by_pc).
  all: try (simplify_eq/=; by left).
  all: try (destruct (_session_task _) as [[[] ?]|] eqn:Ht'; simplify_eq/=;
            unfold Gemini.cancel; simpl; by eauto).
  all: try (edestruct HL as [?|?]; [|done..|congruence|congruence]; by_pc).
Qed.

Lemma L_ready_first_step l st st' :
  InvL st -> step l st = Some st' ->
  each_preceded
    (fun pre x => forall k ev d,
         x = Send (Some k) ev d -> pump_event ev = true ->
         exists d', Send (Some k) (readiness_of k) d' ∈ pre)
    (trace st').
Proof.
  intros Hinv Hs. pose proof (L_ready_first _ Hinv) as HO.
  pose proof (L_spawned _ Hinv) as HL.
  destruct l; step_inv Hs; unfold construct in *; simpl; try done.
  all: repeat (apply each_preceded_snoc; [|intros ? ? ? [=] Hev; simplify_eq/=]);
    try done.
  all: edestruct HL as [d' Hd]; [done..|]; exists d'; in_trace.
Qed.

Lemma L_delivered_before_step l st st' :
  InvL st -> step l st = Some st' ->
  each_preceded
    (fun pre x => forall ko ev,
         x = Send ko ev true ->
         forall ko' ev' d', Send ko' ev' d' ∈ pre -> d' = true)
    (trace st').
Proof.
  intros Hinv Hs. pose proof (L_delivered_before _ Hinv) as HO.
  pose proof (L_delivered _ Hinv) as HL.
  destruct l; step_inv Hs; unfold construct in *; simpl; try done.
  all: repeat (apply each_preceded_snoc;
               [|intros ? ? [=] ? ? ? Hin; simplify_eq/=; trace_inv]);
    try done.
  all: try (eapply HL; [|done]; done).
  all: try (case_bool_decide; congruence).
Qed.

Lemma L_audio_step l st st' :
  InvS st -> InvL st -> step l st = Some st' ->
  each_preceded
    (fun pre x => forall k audio,
         x = ProcessAudio k audio ->
         Py.truth audio = true /\ Started k ∈ pre /\ Stopped k ∉ pre)
    (trace st').
Proof.
  intros HS Hinv Hs. pose proof (L_audio _ Hinv) as HO.
  pose proof (L_started _ Hinv) as HL. pose proof (S_cur _ HS) as Hc.
  destruct l; step_inv Hs; unfold construct in *; simpl; try done.
  all: repeat (apply each_preceded_snoc; [|intros ? ? [=]; simplify_eq/=]);
    try done.
  all: split_and!; [done|apply HL; by_pc|].
  all: intros Hin; apply Hc in Hin; [|done]; congruence.
Qed.

Lemma InvL_reachable key st : reachable key st -> InvL st.
Proof.
  apply (reachable_invariant key InvL).
  - split; simpl; try done; try apply each_preceded_nil;
      repeat intro; trace_inv; done.
  - intros st0 l st1 Hr Hinv Hs.
    pose proof (InvA_reachable _ _ Hr) as HA.
    pose proof (InvS_reachable _ _ Hr) as HS.
    pose proof (InvR_reachable _ _ Hr) as HR. split.
    + by eapply L_stopped_step.
    + by eapply L_started_step.
    + by eapply L_first_step.
    + by eapply L_unspawned_step.
    + by eapply L_spawned_step.
    + by eapply L_delivered_step.
    + by eapply L_task_step.
    + by eapply L_ready_first_step.
    + by eapply L_delivered_before_step.
    + by eapply L_audio_step.
Qed.

End SessionLife.

(** ** The queues *)

Lemma omap_none {A B} (f : A -> option B) (l : list A) :
  (forall x, x ∈ l -> f x = None) -> omap f l = [].
Proof.
  induction l as [|x l IH]; intros Hf; simpl; [done|].
  rewrite (Hf x) by left. apply IH. intros y Hy. apply Hf. by right.
Qed.

Lemma omap_snoc {A B} (f : A -> option B) (l : list A) x :
  omap f (l ++ [x]) = omap f l ++ match f x with Some y => [y] | None => [] end.
Proof. rewrite omap_app. simpl. by destruct (f x). Qed.

Lemma messages_snoc k tr o :
  messages k (tr ++ [o])
  = messages k tr ++ match o with
                     | Received j response => if bool_decide (j = k) then [response] else []
                     | _ => []
                     end.
Proof.
  unfold messages. rewrite omap_snoc. destruct o; try done. by case_bool_decide.
Qed.

Lemma enqueued_transcripts_snoc k tr o :
  enqueued_transcripts k (tr ++ [o])
  = enqueued_transcripts k tr
    ++ match o with
       | Received j response => if bool_decide (j = k) then transcript_puts response else []
       | _ => []
       end.
Proof.
  unfold enqueued_transcripts. rewrite messages_snoc, flat_map_app.
  destruct o; simpl; try done. case_bool_decide; simpl; by rewrite ?app_nil_r.
Qed.

Lemma enqueued_audio_snoc k tr o :
  enqueued_audio k (tr ++ [o])
  = enqueued_audio k tr
    ++ match o with
       | Received j response => if bool_decide (j = k) then audio_puts response else []
       | _ => []
       end.
Proof.
  unfold enqueued_audio. rewrite messages_snoc, flat_map_app.
  destruct o; simpl; try done. case_bool_decide; simpl; by rewrite ?app_nil_r.
Qed.

Lemma dequeued_transcripts_snoc k tr o :
  dequeued_transcripts k (tr ++ [o])
  = dequeued_transcripts k tr
    ++ match o with
       | DequeuedTranscript j item => if bool_decide (j = k) then [item] else []
       | _ => []
       end.
Proof.
  unfold dequeued_transcripts. rewrite omap_snoc. destruct o; try done.
  by case_bool_decide.
Qed.

Lemma dequeued_audio_snoc k tr o :
  dequeued_audio k (tr ++ [o])
  = dequeued_audio k tr
    ++ match o with
       | DequeuedAudio j item => if bool_decide (j = k) then [item] else []
       | _ => []
       end.
Proof.
  unfold dequeued_audio. rewrite omap_snoc. destruct o; try done.
  by case_bool_decide.
Qed.

Lemma sent_transcripts_snoc k tr o :
  sent_transcripts k (tr ++ [o])
  = sent_transcripts k tr
    ++ match o with
       | Send (Some j) (transcript text sender) _ =>
           if bool_decide (j = k) then [ {| t_type := sender; t_text := text |} ] else []
       | _ => []
       end.
Proof.
  unfold sent_transcripts. rewrite omap_snoc.
  destruct o as [| | | | | | | | | | |[j|] [] ?]; try done. by case_bool_decide.
Qed.

Lemma sent_deltas_snoc k tr o :
  sent_deltas k (tr ++ [o])
  = sent_deltas k tr
    ++ match o with
       | Send (Some j) (response_audio_delta delta) _ =>
           if bool_decide (j = k) then [delta] else []
       | _ => []
       end.
Proof.
  unfold sent_deltas. rewrite omap_snoc.
  destruct o as [| | | | | | | | | | |[j|] [] ?]; try done. by case_bool_decide.
Qed.

(** Nothing in the trace is about an object that does not exist yet. *)
Lemma fresh_projections st k :
  InvA st -> length (heap st) <= k ->
  messages k (trace st) = [] /\ dequeued_transcripts k (trace st) = []
  /\ dequeued_audio k (trace st) = [] /\ sent_transcripts k (trace st) = []
  /\ sent_deltas k (trace st) = [].
Proof.
  intros HA Hk.
  assert (forall o j, o ∈ trace st -> obs_index o = Some j -> j <> k) as Hne.
  { intros o j Ho Hj. pose proof (A_trace _ HA _ _ Ho Hj). lia. }
  split_and!; apply omap_none; intros o Ho; pose proof (Hne o) as Hj.
  all: destruct o as [| | | | | | | | | | |[j|] [] ?]; simpl in *; try done.
  all: case_bool_decide; [|done]; subst; by destruct (Hj k).
Qed.

Lemma send_audio_forwarded `{Base64} g audio audio_bytes :
  Gemini.send_audio g audio = Gemini.Forwarded audio_bytes ->
  exists audio_base64,
    audio = Py.JStr audio_base64 /\ b64decode audio_base64 = Some audio_bytes
    /\ session g <> None /\ _is_running g = true.
Proof.
  unfold Gemini.send_audio, base64_b64decode.
  destruct (bool_decide (is_Some (session g))) eqn:Hs; simpl; [|done].
  destruct (_is_running g); [|done].
  destruct audio as [| | | |s| |]; try done.
  destruct (forallb _ s); [|done].
  destruct (b64decode s) as [b|] eqn:Hb; [|done]. intros [= <-].
  exists s. split_and!; try done. apply bool_decide_eq_true in Hs as [? Hs].
  by rewrite Hs.
Qed.

Section QueueOrder.
Context `{Base64}.

Lemma Q_running_step l st st' :
  InvQ st -> step l st = Some st' ->
  forall k s t,
    heap st' !! k = Some s -> _session_task (gemini (self s)) = Some t ->
    must_cancel t = false -> rs_pc t <> run_finished ->
    _is_running (gemini (self s)) = true.
Proof.
  intros Hinv Hs. pose proof (Q_running _ Hinv) as HQ.
  destruct l; step_inv Hs; unfold construct in *; simpl; try done.
  all: intros ? ? ? Hl Ht Hmc Hpc; simplify_eq/=; slot_inv; simpl in *;
    simplify_eq/=; try done.
  all: try (by eapply HQ).
  all: try (destruct (_session_task _) as [[[] ?]|] eqn:Ht'; by simplify_eq/=).
  all: assert (_is_running (gemini (self s)) = true) as Hrun
    by (eapply HQ; [done|done|done|congruence]).
  all: unfold Gemini.received in *; by rewrite Hrun in *.
Qed.

Lemma received_running response g :
  _is_running g = true ->
  Gemini.received response g
  = Gemini.set_audio_queue (_audio_queue g ++ audio_puts response)
      (Gemini.set_transcript_queue (_transcript_queue g ++ transcript_puts response) g).
Proof. intros Hr. unfold Gemini.received. by rewrite Hr. Qed.

(** Rewriting the projections of a trace that grew by one step. *)
Ltac project :=
  rewrite ?enqueued_transcripts_snoc, ?enqueued_audio_snoc,
    ?dequeued_transcripts_snoc, ?dequeued_audio_snoc, ?sent_transcripts_snoc,
    ?sent_deltas_snoc; simpl;
  repeat match goal with
    | |- context [match session_var ?st with _ => _ end] => destruct (session_var st)
    end;
  repeat case_bool_decide; simplify_eq/=; rewrite ?app_nil_r.

Lemma Q_transcripts_step l st st' :
  InvA st -> InvQ st -> step l st = Some st' ->
  forall k s,
    heap st' !! k = Some s ->
    enqueued_transcripts k (trace st')
    = dequeued_transcripts k (trace st') ++ _transcript_queue (gemini (self s)).
Proof.
  intros HA Hinv Hs. pose proof (Q_transcripts _ Hinv) as HQ.
  pose proof (Q_running _ Hinv) as Hrun.
  pose proof (fresh_projections st (length (heap st)) HA) as Hfresh.
  destruct l; step_inv Hs; unfold construct in *; simpl; try done.
  all: intros ? ? Hl; simplify_eq/=; slot_inv; simpl in *; project.
  all: try (by eapply HQ).
  all: try (destruct Hfresh as (Hm & -> & _); [done|];
            unfold enqueued_transcripts; by rewrite Hm).
  all: try (rewrite received_running by (eapply Hrun; [done|done|done|congruence]);
            simpl; erewrite HQ by done; by rewrite app_assoc).
  all: erewrite HQ by done;
    match goal with Hq : _transcript_queue _ = _ |- _ => rewrite Hq end;
    by rewrite <- app_assoc.
Qed.

Lemma Q_audio_step l st st' :
  InvA st -> InvQ st -> step l st = Some st' ->
  forall k s,
    heap st' !! k = Some s ->
    enqueued_audio k (trace st')
    = dequeued_audio k (trace st') ++ _audio_queue (gemini (self s)).
Proof.
  intros HA Hinv Hs. pose proof (Q_audio _ Hinv) as HQ.
  pose proof (Q_running _ Hinv) as Hrun.
  pose proof (fresh_projections st (length (heap st)) HA) as Hfresh.
  destruct l; step_inv Hs; unfold construct in *; simpl; try done.
  all: intros ? ? Hl; simplify_eq/=; slot_inv; simpl in *; project.
  all: try (by eapply HQ).
  all: try (destruct Hfresh as (Hm & _ & -> & _); [done|];
            unfold enqueued_audio; by rewrite Hm).
  all: try (rewrite received_running by (eapply Hrun; [done|done|done|congruence]);
            simpl; erewrite HQ by done; by rewrite app_assoc).
  all: erewrite HQ by done;
    match goal with Hq : _audio_queue _ = _ |- _ => rewrite Hq end;
    by rewrite <- app_assoc.
Qed.

Lemma Q_deltas_step l st st' :
  InvQ st -> step l st = Some st' ->
  forall k,
    sent_deltas k (trace st') = b64encode <$> chunks (dequeued_audio k (trace st')).
Proof.
  intros Hinv Hs. pose proof (Q_deltas _ Hinv) as HQ.
  destruct l; step_inv Hs; unfold construct in *; simpl; try done.
  all: intros ?; project; try done.
  all: unfold chunks; rewrite ?omap_app, ?fmap_app; simpl; rewrite ?app_nil_r;
    by rewrite HQ.
Qed.

Lemma Q_forward_step l st st' :
  InvQ st -> step l st = Some st' ->
  each_preceded
    (fun pre x => forall k audio_bytes,
         x = Forwarded k audio_bytes ->
         exists pre' audio_base64,
           pre = pre' ++ [ProcessAudio k (Py.JStr audio_base64)]
           /\ b64decode audio_base64 = Some audio_bytes)
    (trace st').
Proof.
  intros Hinv Hs. pose proof (Q_forward _ Hinv) as HO.
  destruct l; step_inv Hs; unfold construct in *; simpl; try done.
  all: repeat (apply each_preceded_snoc; [|intros ? ? [=]; simplify_eq/=]);
    try done.
  all: match goal with
       | Hf : Voice.process_audio _ _ = Gemini.Forwarded _ |- _ =>
           apply send_audio_forwarded in Hf as (s' & -> & Hd & _)
       end.
  all: by eauto.
Qed.

Lemma Q_sent_step l st st' :
  InvA st -> InvL st -> InvQ st -> step l st = Some st' ->
  forall k s,
    heap st' !! k = Some s ->
    dequeued_transcripts k (trace st') = sent_transcripts k (trace st')
    \/ exists item t,
         dequeued_transcripts k (trace st') = sent_transcripts k (trace st') ++ [item]
         /\ responses s = Some t /\ transcript_task t = ht_finished.
Proof.
  intros HA HL Hinv Hs. pose proof (Q_sent _ Hinv) as HQ.
  pose proof (L_unspawned _ HL) as Hun.
  pose proof (fresh_projections st (length (heap st)) HA) as Hfresh.
  destruct l; step_inv Hs; unfold construct in *; simpl; try done.
  all: intros ? ? Hl; simplify_eq/=; slot_inv; simpl in *; project.
  all: try (by eapply HQ).
  all: try (destruct Hfresh as (_ & -> & _ & -> & _); [done|]; by left).
  all: match goal with
       | Hl : heap _ !! ?k = Some ?s |- context [dequeued_transcripts ?k _] =>
           destruct (HQ k s Hl) as [Heq|(item & t' & Heq & Hr & Hfin)]
       end; rewrite Heq.
  all: try (by left).
  all: try (erewrite Hun in Hr by (by_pc || done); done).
  all: try (simplify_eq/=; congruence).
  all: try (right; eexists _, _; split; [done|];
            repeat match goal with Hr : responses _ = Some _ |- _ => rewrite Hr end;
            simpl; split; [done|]; unfold Responses.cancel;
            try case_match; by simpl).
  all: left; by destruct t.
Qed.

Lemma InvQ_reachable key st : reachable key st -> InvQ st.
Proof.
  apply (reachable_invariant key InvQ).
  - split; simpl; try done; apply each_preceded_nil.
  - intros st0 l st1 Hr Hinv Hs.
    pose proof (InvA_reachable _ _ Hr) as HA.
    pose proof (InvL_reachable _ _ Hr) as HL. split.
    + by eapply Q_running_step.
    + by eapply Q_transcripts_step.
    + by eapply Q_audio_step.
    + by eapply Q_sent_step.
    + by eapply Q_deltas_step.
    + by eapply Q_forward_step.
Qed.

End QueueOrder.

(** ** The relay *)

Lemma count_elem f tr o : o ∈ tr -> f o = true -> 0 < count f tr.
Proof.
  unfold count. induction tr as [|x tr IH]; [by intros ?%elem_of_nil|].
  intros [<-|Hin]%elem_of_cons Hf; simpl.
  - rewrite Hf. simpl. lia.
  - destruct (f x); simpl; [lia|by apply IH].
Qed.

Lemma part_puts_chunk part item :
  item ∈ part_puts part -> exists chunk, item = Some chunk /\ chunk <> [].
Proof.
  unfold part_puts. destruct (types.inline_data part) as [[[d|]]|]; simpl;
    try by intros ?%elem_of_nil.
  destruct d; simpl; [by intros ?%elem_of_nil|].
  intros ->%list_elem_of_singleton. eauto.
Qed.

Lemma model_turn_puts_chunk mt item :
  item ∈ model_turn_puts mt -> exists chunk, item = Some chunk /\ chunk <> [].
Proof.
  unfold model_turn_puts. destruct mt as [[[ps|]]|]; simpl;
    try by intros ?%elem_of_nil.
  intros (part & _ & Hin)%list_elem_of_In%in_flat_map.
  by eapply part_puts_chunk, list_elem_of_In.
Qed.

Section Relay.
Context `{Base64}.

(** X1. Without an API key ([GOOGLE_API_KEY] unset or empty) the endpoint
    constructs no session: all it ever sends is the one [error] event
    "Google API key not configured", and after it the socket is closed and
    the endpoint returns. *)
Theorem missing_key_is_reported_once key st :
  reachable key st -> configured key = false ->
  heap st = [] /\ session_var st = None
  /\ (trace st = [] \/ exists d, trace st = [missing_key_error d])
  /\ (at_ st = at_send_no_key \/ at_ st = at_close_no_key ->
      trace st = [missing_key_error true])
  /\ (before_session (at_ st) = true \/ at_ st = returned)
  /\ exists st',
       run [Endpoint Returns; Endpoint Returns; Endpoint Returns] (init key) = Some st'
       /\ at_ st' = returned /\ trace st' = [missing_key_error true].
Proof.
  intros Hr Hc. pose proof (InvK_reachable _ _ Hr) as HK. split_and!.
  - by apply (K_heap _ _ HK).
  - by apply (K_var _ _ HK).
  - by apply (K_trace _ _ HK).
  - intros Hpc. apply (K_closing _ _ HK Hc); destruct Hpc as [-> | ->]; done.
  - by apply (K_pc _ _ HK).
  - unfold configured in Hc. eexists. simpl.
    unfold voice_chat_endpoint, has_key. simpl. rewrite Hc. simpl.
    split; [done|]. by split.
Qed.

(** X2. An [error] event is the last thing the endpoint does for the
    client: there is at most one on a connection, the endpoint is then on
    its way out, and after it no session is constructed or started, no
    pump pair is created or cancelled, no audio is taken or forwarded and
    no readiness or second [error] event is sent. *)
Theorem error_event_is_terminal key st pre ko message d post :
  reachable key st ->
  trace st = pre ++ Send ko (error message) d :: post ->
  leaving (at_ st) = true
  /\ count is_error (trace st) = 1
  /\ (forall o, o ∈ post -> endpoint_act o = false).
Proof.
  intros Hr Htr. pose proof (InvE_reachable _ _ Hr) as HE.
  assert (0 < count is_error (trace st)) as Hpos.
  { apply (count_elem _ _ (Send ko (error message) d)); [|done].
    rewrite Htr. apply elem_of_app. right. left. }
  split_and!.
  - destruct (leaving (at_ st)) eqn:Hl; [done|].
    pose proof (E_none _ HE Hl). lia.
  - pose proof (E_once _ HE). lia.
  - intros o (mid & post' & ->)%list_elem_of_split.
    destruct (endpoint_act o) eqn:Ho; [|done].
    assert (count is_error (pre ++ Send ko (error message) d :: mid) = 0) as H0.
    { apply (E_last _ HE _ o post'); [|done]. by rewrite Htr, <- app_assoc. }
    assert (0 < count is_error (pre ++ Send ko (error message) d :: mid)).
    { apply (count_elem _ _ (Send ko (error message) d)); [|done].
      apply elem_of_app. right. left. }
    lia.
Qed.

(** X3. No session is left behind: a session object that is no longer
    the one bound to [session], and every session object once the endpoint
    has returned, has been stopped; it is not running, its session task is
    done and it holds no upstream handle. *)
Theorem superseded_sessions_are_stopped key st k :
  reachable key st -> Constructed k ∈ trace st ->
  session_var st <> Some k \/ at_ st = returned ->
  Stopped k ∈ trace st
  /\ exists s, heap st !! k = Some s /\ fully_stopped (self s)
               /\ session (gemini (self s)) = None.
Proof.
  intros Hr Hin Hk. pose proof (InvS_reachable _ _ Hr) as HS.
  pose proof (InvL_reachable _ _ Hr) as HL.
  assert (Stopped k ∈ trace st) as Hst.
  { destruct (L_stopped _ HL _ Hin) as [Hc|?]; [|done].
    destruct Hk as [?|Hret]; [done|]. by apply (S_returned _ HS). }
  split; [done|]. destruct (S_stopped _ HS _ Hst) as (s & Hs & Hfs).
  exists s. split_and!; try done. apply stopped_no_handle; [|done].
  by apply (InvH_reachable _ _ Hr _ _ Hs).
Qed.

(** X4. Transcripts reach the client in the order the receive loop
    enqueued them, none twice and none skipped: what was enqueued for a
    session is what was sent, then at most one item the pump took after
    [stop()] and dropped (the pump is then over), then what is still on the
    queue. *)
Theorem transcripts_are_relayed_in_order key st k s :
  reachable key st -> heap st !! k = Some s ->
  exists dropped,
    enqueued_transcripts k (trace st)
    = sent_transcripts k (trace st) ++ dropped ++ _transcript_queue (gemini (self s))
    /\ length dropped <= 1
    /\ (dropped <> [] ->
        exists t, responses s = Some t /\ transcript_task t = ht_finished).
Proof.
  intros Hr Hs. pose proof (InvQ_reachable _ _ Hr) as HQ.
  rewrite (Q_transcripts _ HQ _ _ Hs).
  destruct (Q_sent _ HQ _ _ Hs) as [->|(item & t & -> & Ht & Hfin)].
  - exists []. split_and!; simpl; [done|lia|done].
  - exists [item]. split_and!; simpl; [by rewrite <- app_assoc|lia|eauto].
Qed.

(** X5. Audio reaches the client in the order the receive loop enqueued
    it: what was enqueued is what the pump took followed by what is on the
    queue; the [response.audio.delta] events sent are the base64 encodings
    of the chunks taken, in that order, one per chunk; and no chunk is
    empty. *)
Theorem audio_is_relayed_in_order key st k s :
  reachable key st -> heap st !! k = Some s ->
  enqueued_audio k (trace st)
  = dequeued_audio k (trace st) ++ _audio_queue (gemini (self s))
  /\ sent_deltas k (trace st) = b64encode <$> chunks (dequeued_audio k (trace st))
  /\ (forall chunk, Some chunk ∈ enqueued_audio k (trace st) -> chunk <> []).
Proof.
  intros Hr Hs. pose proof (InvQ_reachable _ _ Hr) as HQ. split_and!.
  - by apply (Q_audio _ HQ).
  - by apply (Q_deltas _ HQ).
  - intros chunk (response & _ & Hin)%list_elem_of_In%in_flat_map.
    apply list_elem_of_In in Hin. unfold audio_puts in Hin.
    destruct (types.server_content response) as [content|];
      [|by apply elem_of_nil in Hin].
    apply elem_of_app in Hin as [Hin|Hin].
    + apply model_turn_puts_chunk in Hin as (c & [= ->] & ?). done.
    + unfold turn_complete_puts in Hin.
      destruct (types.turn_complete content) as [[]|];
        [by apply list_elem_of_singleton in Hin|by apply elem_of_nil in Hin..].
Qed.

(** X6. Every block forwarded upstream is the decoded [delta] of the
    [process_audio] call just before it, a non-empty string that is valid
    base64, on a session whose [start()] has returned and whose [stop()]
    has not. *)
Theorem forwarded_audio_is_the_decoded_delta key st pre k audio_bytes post :
  reachable key st ->
  trace st = pre ++ Forwarded k audio_bytes :: post ->
  exists pre' audio_base64,
    pre = pre' ++ [ProcessAudio k (Py.JStr audio_base64)]
    /\ b64decode audio_base64 = Some audio_bytes
    /\ audio_base64 <> []
    /\ Started k ∈ pre' /\ Stopped k ∉ pre'.
Proof.
  intros Hr Htr. pose proof (InvQ_reachable _ _ Hr) as HQ.
  pose proof (InvL_reachable _ _ Hr) as HL.
  destruct (Q_forward _ HQ _ _ _ Htr _ _ eq_refl) as (pre' & s & -> & Hd).
  rewrite <- app_assoc in Htr.
  destruct (L_audio _ HL _ _ _ Htr _ _ eq_refl) as (Ht & ? & ?).
  exists pre', s. split_and!; try done. by destruct s.
Qed.

(** X7. While the endpoint waits for a message, a frame that is not JSON
    ([receive_json] raises [JSONDecodeError]) and a JSON object whose
    ["type"] is neither ["input_audio_buffer.append"] nor ["session.reset"]
    (or is missing) change nothing: nothing is sent, no session is touched,
    the endpoint waits for the next message. *)
Theorem unknown_message_is_ignored st :
  at_ st = at_receive_json ->
  step (Endpoint (Raises Py.JSONDecodeError)) st = Some st
  /\ forall d,
       Py.eq_str (Py.dict_get d msg_type_key (Py.JStr [])) input_audio_buffer_append
       = false ->
       Py.eq_str (Py.dict_get d msg_type_key (Py.JStr [])) session_reset = false ->
       step (Endpoint (Receives (Py.JDict d))) st = Some st.
Proof.
  intros Hpc. split.
  - simpl. unfold voice_chat_endpoint. rewrite Hpc. simpl.
    unfold inner_except, note_disconnect. simpl. by rewrite <- Hpc, goto_same.
  - intros d H1 H2. simpl. unfold voice_chat_endpoint, dispatch. rewrite Hpc. simpl.
    rewrite H1, H2. by rewrite <- Hpc, goto_same.
Qed.

(** X8. A session's pumps send nothing before the session was announced:
    every [transcript], [response.audio.delta] and [audio.done] event of a
    session comes after its [start()] returned and after its readiness
    event was sent, and when the event is delivered so was the readiness
    event. *)
Theorem pump_events_follow_readiness key st pre k ev d post :
  reachable key st ->
  trace st = pre ++ Send (Some k) ev d :: post -> pump_event ev = true ->
  Started k ∈ pre
  /\ exists d', Send (Some k) (readiness_of k) d' ∈ pre /\ (d = true -> d' = true).
Proof.
  intros Hr Htr Hev. pose proof (InvL_reachable _ _ Hr) as HL.
  pose proof (InvR_reachable _ _ Hr) as HR.
  destruct (L_ready_first _ HL _ _ _ Htr _ _ _ eq_refl Hev) as [d' Hd].
  assert (Started k ∈ pre) as Hst.
  { destruct (list_elem_of_split _ _ Hd) as (pre1 & mid & ->).
    rewrite <- app_assoc in Htr. simpl in Htr.
    assert (Started k ∈ pre1) as Hin.
    { eapply (R_order _ HR _ _ _ Htr); [done|]. by destruct k. }
    apply elem_of_app. by left. }
  split; [done|]. exists d'. split; [done|]. intros ->.
  by eapply (L_delivered_before _ HL _ _ _ Htr).
Qed.

(** The session task a [stop()] waits for can always finish: it is done,
    or it takes the [CancelledError]. *)
Lemma awaited_task_finishes st k s :
  heap st !! k = Some s ->
  (forall t, _session_task (gemini (self s)) = Some t ->
             rs_pc t = run_finished \/ must_cancel t = true) ->
  exists ls st1 s1,
    length ls <= 1 /\ run ls st = Some st1
    /\ at_ st1 = at_ st /\ session_var st1 = session_var st
    /\ trace st1 = trace st
    /\ heap st1 !! k = Some s1 /\ Voice.stop_ready (self s1) = true.
Proof.
  intros Hk Ht. unfold Voice.stop_ready, Gemini.close_ready.
  destruct (_session_task (gemini (self s))) as [[pc mc]|] eqn:Htask.
  - destruct (Ht _ eq_refl) as [Hpc|Hmc]; simpl in *; subst.
    + exists [], st, s. rewrite Htask. split_and!; [simpl; lia|done..].
    + destruct pc.
      1,2: exists [RunSession k TakesCancel]; eexists; eexists; simpl;
        unfold _run_session; rewrite Hk, Htask; simpl;
        split_and!; [lia|done..| |];
        [simpl; by rewrite list_lookup_alter_eq, Hk|done].
      exists [], st, s. rewrite Htask. split_and!; [simpl; lia|done..].
  - exists [], st, s. rewrite Htask. split_and!; [simpl; lia|done..].
Qed.

Lemma run_app ls st st1 :
  run ls st = Some st1 ->
  forall ls' st', run ls' st1 = Some st' -> run (ls ++ ls') st = Some st'.
Proof.
  revert st. induction ls as [|l ls IH]; intros st; simpl.
  - by intros [= ->].
  - destruct (step l st); [|done]. intros ? ? ? ?. by apply IH.
Qed.

Lemma reachable_run_from key ls st st1 :
  reachable key st -> run ls st = Some st1 -> reachable key st1.
Proof.
  intros [ls0 Hls0] Hrun. exists (ls0 ++ ls). by eapply run_app.
Qed.

(** X9. A [stop()] the endpoint waits in can always complete: the session
    task it awaits is done or takes the [CancelledError], so within two
    steps [stop()] returns; in [finally] the endpoint then returns, in a
    reset it goes on to construct the next session. *)
Theorem pending_stop_can_complete key st :
  reachable key st -> stopping (at_ st) = true ->
  exists k ls st',
    session_var st = Some k /\ (Stopped k ∉ trace st)
    /\ length ls <= 2 /\ run ls st = Some st'
    /\ (at_ st = at_final_stop ->
        at_ st' = returned /\ trace st' = trace st ++ [Stopped k])
    /\ (at_ st = at_reset_stop ->
        at_ st' = at_reset_start
        /\ trace st' = trace st ++ [Stopped k; Constructed (S k)]).
Proof.
  intros Hr Hpc. pose proof (InvS_reachable _ _ Hr) as HS.
  pose proof (InvL_reachable _ _ Hr) as HL.
  pose proof (InvA_reachable _ _ Hr) as HA.
  destruct (S_session _ HS) as [k Hk]; [by destruct (at_ st)..|].
  destruct (lookup_lt_is_Some_2 (heap st) k) as [s Hs]; [by apply InvA_var_lt|].
  destruct (awaited_task_finishes st k s Hs) as
    (ls & st1 & s1 & Hlen & Hrun & Hpc1 & Hk1 & Htr1 & Hs1 & Hready).
  { intros t Ht. by eapply (L_task _ HL). }
  pose proof (reachable_run_from _ _ _ _ Hr Hrun) as Hr1.
  pose proof (InvA_reachable _ _ Hr1) as HA1.
  pose proof (run_app _ _ _ Hrun) as Happ.
  exists k. rewrite Hk in Hk1.
  assert (Stopped k ∉ trace st) as Hns.
  { intros Hin. apply (S_cur _ HS) in Hin; [|done]. by rewrite Hin in Hpc. }
  destruct (at_ st) eqn:Hat; try done.
  - exists (ls ++ [Endpoint Returns]). eexists. split_and!; try done.
    + rewrite length_app. simpl. lia.
    + apply Happ. simpl. unfold voice_chat_endpoint, current, start, construct.
      rewrite Hpc1. simpl. rewrite Hk1, Hs1, Hready. simpl. done.
    + intros _. simpl. rewrite Htr1, <- app_assoc. simpl.
      pose proof (A_var _ HA1) as Hv. rewrite Hk1 in Hv. by rewrite Hv.
  - exists (ls ++ [Endpoint Returns]). eexists. split_and!; try done.
    + rewrite length_app. simpl. lia.
    + apply Happ. simpl. unfold voice_chat_endpoint, current.
      rewrite Hpc1. simpl. rewrite Hk1, Hs1, Hready. done.
    + intros _. simpl. by rewrite Htr1.
Qed.

(** X10. When the client disconnects while the endpoint waits for a
    message, the endpoint can always finish: [WebSocketDisconnect] leaves
    the loop, no [error] event is sent, the current session is stopped and
    the endpoint returns, with every session it constructed stopped. *)
Theorem disconnect_ends_the_endpoint key st :
  reachable key st -> at_ st = at_receive_json ->
  exists k ls st',
    session_var st = Some k
    /\ length ls <= 2
    /\ run (Endpoint (Raises Py.WebSocketDisconnect) :: ls) st = Some st'
    /\ at_ st' = returned
    /\ trace st' = trace st ++ [Stopped k]
    /\ (forall j, Constructed j ∈ trace st' -> Stopped j ∈ trace st').
Proof.
  intros Hr Hpc. pose proof (InvS_reachable _ _ Hr) as HS.
  destruct (S_session _ HS) as [k Hk]; [by rewrite Hpc..|].
  destruct (step (Endpoint (Raises Py.WebSocketDisconnect)) st) as [st0|] eqn:Hs0.
  2: { simpl in Hs0. unfold voice_chat_endpoint, inner_except, finally_ in Hs0.
       rewrite Hpc in Hs0. simpl in Hs0.
       unfold note_disconnect in Hs0. simpl in Hs0.
       destruct (broken st); simpl in Hs0; by rewrite Hk in Hs0. }
  assert (at_ st0 = at_final_stop /\ session_var st0 = Some k
          /\ trace st0 = trace st) as (Hpc0 & Hk0 & Htr0).
  { simpl in Hs0. unfold voice_chat_endpoint, inner_except, finally_ in Hs0.
    rewrite Hpc in Hs0. simpl in Hs0.
    unfold note_disconnect in Hs0. simpl in Hs0.
    destruct (broken st); simpl in Hs0; rewrite Hk in Hs0; by simplify_eq/=. }
  pose proof (reachable_step _ _ _ _ Hr Hs0) as Hr0.
  pose proof (InvL_reachable _ _ Hr0) as HL0.
  pose proof (InvA_reachable _ _ Hr0) as HA0.
  destruct (lookup_lt_is_Some_2 (heap st0) k) as [s Hs]; [by apply InvA_var_lt|].
  destruct (awaited_task_finishes st0 k s Hs) as
    (ls & st1 & s1 & Hlen & Hrun & Hpc1 & Hk1 & Htr1 & Hs1 & Hready).
  { intros t Ht. eapply (L_task _ HL0); [by rewrite Hpc0|done..]. }
  rewrite Hpc0 in Hpc1. rewrite Hk0 in Hk1.
  assert (step (Endpoint Returns) st1 = Some (goto returned (record (Stopped k) st1)))
    as Hs2.
  { simpl. unfold voice_chat_endpoint, current.
    rewrite Hpc1. simpl. by rewrite Hk1, Hs1, Hready. }
  exists k, (ls ++ [Endpoint Returns]), (goto returned (record (Stopped k) st1)).
  split_and!; try done.
  - rewrite length_app. simpl. lia.
  - simpl in *. rewrite Hs0. apply (run_app _ _ _ Hrun). simpl. by rewrite Hs2.
  - simpl. by rewrite Htr1, Htr0.
  - assert (reachable key (goto returned (record (Stopped k) st1))) as Hr2.
    { eapply reachable_step; [|exact Hs2]. by eapply reachable_run_from. }
    pose proof (InvL_reachable _ _ Hr2) as HL2.
    pose proof (InvS_reachable _ _ Hr2) as HS2.
    intros j Hin. destruct (L_stopped _ HL2 _ Hin) as [Hc|?]; [|done].
    by apply (S_returned _ HS2).
Qed.

End Relay.

(** ** The relay at the runs of [Demo] and [Scenario] *)

Lemma no_key_run :
  run Scenario.no_key (init None) = Some (Scenario.state_after None Scenario.no_key).
Proof. vm_compute. reflexivity. Qed.

Lemma reset_then_poll_run :
  run Demo.reset_then_poll (init Demo.key)
  = Some (Demo.state_after Demo.reset_then_poll).
Proof. vm_compute. reflexivity. Qed.

Lemma missing_key_is_reported_once_witness :
  reachable None (Scenario.state_after None Scenario.no_key)
  /\ heap (Scenario.state_after None Scenario.no_key) = []
  /\ trace (Scenario.state_after None Scenario.no_key) = [missing_key_error true].
Proof.
  assert (Hr := reachable_run _ _ _ no_key_run). split; [exact Hr|].
  destruct (missing_key_is_reported_once None _ Hr eq_refl)
    as (Hh & _ & _ & Htr & _).
  split; [exact Hh|]. apply Htr. right. reflexivity.
Defined.

Lemma error_event_is_terminal_witness :
  reachable Demo.key (Demo.state_after Demo.timeout_cleaned_up)
  /\ leaving (at_ (Demo.state_after Demo.timeout_cleaned_up)) = true
  /\ count is_error (trace (Demo.state_after Demo.timeout_cleaned_up)) = 1.
Proof.
  assert (Hr := demo_reachable _ _ timeout_cleaned_up_run). split; [exact Hr|].
  destruct (error_event_is_terminal Demo.key _
              [Constructed 0; ConnectTimedOut 0] (Some 0)
              (str_of Py.TimeoutError) true [Stopped 0] Hr)
    as (H1 & H2 & _); [vm_compute; reflexivity|].
  exact (conj H1 H2).
Defined.

Lemma superseded_sessions_are_stopped_witness :
  reachable Demo.key (Demo.state_after Demo.reset_done)
  /\ Stopped 0 ∈ trace (Demo.state_after Demo.reset_done).
Proof.
  assert (Hr := demo_reachable _ _ reset_done_run). split; [exact Hr|].
  apply (superseded_sessions_are_stopped Demo.key _ 0 Hr).
  - in_list.
  - left. vm_compute. discriminate.
Defined.

Lemma transcripts_are_relayed_in_order_witness :
  reachable Demo.key (Demo.state_after Demo.one_turn)
  /\ exists s dropped,
       heap (Demo.state_after Demo.one_turn) !! 0 = Some s
       /\ enqueued_transcripts 0 (trace (Demo.state_after Demo.one_turn))
          = sent_transcripts 0 (trace (Demo.state_after Demo.one_turn))
            ++ dropped ++ _transcript_queue (gemini (self s))
       /\ length dropped <= 1.
Proof.
  assert (Hr := demo_reachable _ _ one_turn_run). split; [exact Hr|].
  assert (exists s, heap (Demo.state_after Demo.one_turn) !! 0 = Some s) as [s Hs]
    by (eexists; vm_compute; reflexivity).
  destruct (transcripts_are_relayed_in_order Demo.key _ 0 s Hr Hs)
    as (dropped & H1 & H2 & _).
  exists s, dropped. exact (conj Hs (conj H1 H2)).
Defined.

Lemma audio_is_relayed_in_order_witness :
  reachable Demo.key (Demo.state_after Demo.one_turn)
  /\ sent_deltas 0 (trace (Demo.state_after Demo.one_turn))
     = b64encode <$> chunks (dequeued_audio 0 (trace (Demo.state_after Demo.one_turn))).
Proof.
  assert (Hr := demo_reachable _ _ one_turn_run). split; [exact Hr|].
  assert (exists s, heap (Demo.state_after Demo.one_turn) !! 0 = Some s) as [s Hs]
    by (eexists; vm_compute; reflexivity).
  destruct (audio_is_relayed_in_order Demo.key _ 0 s Hr Hs) as (_ & H2 & _).
  exact H2.
Defined.

Lemma forwarded_audio_is_the_decoded_delta_witness :
  reachable Demo.key (Demo.state_after Demo.one_turn)
  /\ exists pre' audio_base64,
       [Constructed 0; Started 0; Send (Some 0) session_ready true; Spawned 0;
        ProcessAudio 0 (Py.JStr (Py.lit "TWFu"))]
       = pre' ++ [ProcessAudio 0 (Py.JStr audio_base64)]
       /\ b64decode audio_base64 = Some [77; 97; 110]%N.
Proof.
  assert (Hr := demo_reachable _ _ one_turn_run). split; [exact Hr|].
  edestruct (forwarded_audio_is_the_decoded_delta Demo.key _
               [Constructed 0; Started 0; Send (Some 0) session_ready true;
                Spawned 0; ProcessAudio 0 (Py.JStr (Py.lit "TWFu"))]
               0 [77; 97; 110]%N
               (drop 6 (trace (Demo.state_after Demo.one_turn))) Hr)
    as (pre' & s & H1 & H2 & _); [vm_compute; reflexivity|].
  exists pre', s. exact (conj H1 H2).
Defined.

Lemma unknown_message_is_ignored_witness :
  step (Endpoint (Raises Py.JSONDecodeError)) (Demo.state_after Demo.up)
  = Some (Demo.state_after Demo.up).
Proof.
  apply (unknown_message_is_ignored (Demo.state_after Demo.up)). reflexivity.
Defined.

Lemma pump_events_follow_readiness_witness :
  reachable Demo.key (Demo.state_after Demo.one_turn)
  /\ Started 0
     ∈ [Constructed 0; Started 0; Send (Some 0) session_ready true; Spawned 0;
        ProcessAudio 0 (Py.JStr (Py.lit "TWFu")); Forwarded 0 [77; 97; 110]%N;
        Received 0 Demo.hello;
        DequeuedTranscript 0 {| t_type := assistant; t_text := Py.lit "hi" |}].
Proof.
  assert (Hr := demo_reachable _ _ one_turn_run). split; [exact Hr|].
  refine (proj1 (pump_events_follow_readiness Demo.key _ _ 0
                   (transcript (Py.lit "hi") assistant) true
                   (drop 9 (trace (Demo.state_after Demo.one_turn)))
                   Hr _ eq_refl)).
  vm_compute. reflexivity.
Defined.

Lemma pending_stop_can_complete_witness :
  reachable Demo.key (Demo.state_after Demo.reset_then_poll)
  /\ exists k ls st',
       session_var (Demo.state_after Demo.reset_then_poll) = Some k
       /\ length ls <= 2
       /\ run ls (Demo.state_after Demo.reset_then_poll) = Some st'.
Proof.
  assert (Hr := demo_reachable _ _ reset_then_poll_run). split; [exact Hr|].
  destruct (pending_stop_can_complete Demo.key _ Hr eq_refl)
    as (k & ls & st' & H1 & _ & H2 & H3 & _).
  exists k, ls, st'. exact (conj H1 (conj H2 H3)).
Defined.

Lemma disconnect_ends_the_endpoint_witness :
  reachable Demo.key (Demo.state_after Demo.one_turn)
  /\ exists k ls st',
       session_var (Demo.state_after Demo.one_turn) = Some k
       /\ run (Endpoint (Raises Py.WebSocketDisconnect) :: ls)
            (Demo.state_after Demo.one_turn) = Some st'
       /\ at_ st' = returned.
Proof.
  assert (Hr := demo_reachable _ _ one_turn_run). split; [exact Hr|].
  destruct (disconnect_ends_the_endpoint Demo.key _ Hr eq_refl)
    as (k & ls & st' & H1 & _ & H2 & H3 & _).
  exists k, ls, st'. exact (conj H1 (conj H2 H3)).
Defined.

(** ** The broadcast endpoint *)

Lemma list_remove_None x l : Chat.list_remove x l = None <-> x ∉ l.
Proof.
  induction l as [|y l IH]; simpl.
  - split; [intros _ ?%elem_of_nil; done|done].
  - case_bool_decide as Hy.
    + subst. split; [done|]. intros Hn. destruct Hn. left.
    + destruct (Chat.list_remove x l) eqn:Hr.
      * split; [done|]. intros Hn. exfalso.
        assert (x ∉ l) as Hl by (intros ?; apply Hn; by right).
        apply IH in Hl. done.
      * split; [|done]. intros _ [->|Hin]%elem_of_cons; [done|].
        by apply IH in Hin.
Qed.

Lemma list_remove_Some x l r :
  NoDup l -> Chat.list_remove x l = Some r ->
  NoDup r /\ x ∈ l /\ forall y, y ∈ r <-> y ∈ l /\ y <> x.
Proof.
  revert r. induction l as [|y l IH]; intros r Hnd; simpl; [done|].
  apply list.NoDup_cons in Hnd as [Hy Hnd]. case_bool_decide as Hx.
  - intros [= <-]. subst. split_and!; [done|left|].
    intros z. split.
    + intros Hz. split; [by right|]. by intros ->.
    + intros [[->|Hz]%elem_of_cons Hne]; done.
  - destruct (Chat.list_remove x l) as [r'|] eqn:Hr; [|done]. intros [= <-].
    destruct (IH r' Hnd eq_refl) as (Hnd' & Hin & Hiff). split_and!.
    + apply list.NoDup_cons. split; [|done]. intros Hy'%Hiff. by destruct Hy'.
    + by right.
    + intros z. rewrite !elem_of_cons, Hiff. split.
      * intros [->|[? ?]]; split; eauto.
      * intros [[->|?] ?]; eauto.
Qed.

(** Every way a step of a handler can have produced its result. *)
Ltac chat_inv H :=
  unfold Chat.step, Chat.websocket_endpoint, Chat.finally_, Chat.broadcast,
    Chat.after_broadcast, Chat.disconnect in H;
  simplify_eq/=; repeat (case_match; simplify_eq/=).

Lemma chat_run_snoc ls l st :
  Chat.run (ls ++ [l]) st
  = match Chat.run ls st with Some st' => Chat.step l st' | None => None end.
Proof.
  revert st. induction ls as [|l' ls IH]; intros st; simpl.
  - by destruct (Chat.step l st).
  - destruct (Chat.step l' st); [apply IH|done].
Qed.

Lemma chat_reachable_invariant (P : Chat.State -> Prop) :
  P Chat.init ->
  (forall st l st', Chat.reachable st -> P st -> Chat.step l st = Some st' -> P st') ->
  forall st, Chat.reachable st -> P st.
Proof.
  intros Hinit Hstep st [ls Hls]. revert st Hls.
  induction ls as [|l ls IH] using rev_ind; intros st Hls.
  - by injection Hls as <-.
  - rewrite chat_run_snoc in Hls.
    destruct (Chat.run ls Chat.init) as [st0|] eqn:H0; [|done].
    eapply Hstep; [by exists ls|by apply IH|done].
Qed.

Lemma I_nodup_step l st st' :
  Chat.Inv st -> Chat.step l st = Some st' ->
  NoDup (Chat.active_connections (Chat.manager st')).
Proof.
  intros Hinv Hs. pose proof (Chat.I_nodup _ Hinv) as Hnd.
  pose proof (Chat.I_registered _ Hinv) as Hreg.
  destruct l; chat_inv Hs; try done.
  all: try (match goal with
            | Hr : Chat.list_remove _ _ = Some _ |- _ =>
                by destruct (list_remove_Some _ _ _ Hnd Hr)
            end).
  all: apply list.NoDup_app; split_and!; [done| |apply list.NoDup_singleton].
  all: intros x Hx ->%list_elem_of_singleton.
  all: match goal with
       | Hh : Chat.handlers _ !! ?w = Some ?h, Hpc : Chat.pc ?h = _ |- _ =>
           apply (Hreg _ _ Hh) in Hx; by rewrite Hpc in Hx
       end.
Qed.

Lemma I_registered_step l st st' :
  Chat.Inv st -> Chat.step l st = Some st' ->
  forall w h,
    Chat.handlers st' !! w = Some h ->
    (w ∈ Chat.active_connections (Chat.manager st')
     <-> Chat.registered (Chat.pc h) = true).
Proof.
  intros Hinv Hs. pose proof (Chat.I_nodup _ Hinv) as Hnd.
  pose proof (Chat.I_registered _ Hinv) as Hreg.
  pose proof (Chat.I_bound _ Hinv) as Hb.
  destruct l; chat_inv Hs.
  all: intros w' h' Hl; slot_inv; simpl.
  all: repeat match goal with
         | Hr : Chat.list_remove _ _ = Some _ |- _ =>
             apply (list_remove_Some _ _ _ Hnd) in Hr as (_ & ? & Hiff);
             rewrite Hiff
         end.
  all: repeat match goal with
         | Hr : Chat.list_remove _ _ = None |- _ => apply list_remove_None in Hr
         end.
  all: rewrite ?elem_of_app, ?list_elem_of_singleton.
  all: repeat match goal with
         | Hh : Chat.handlers _ !! ?w = Some ?h |- _ =>
             pose proof (Hreg _ _ Hh); pose proof (lookup_lt_Some _ _ _ Hh);
             clear Hh
         end.
  all: repeat match goal with Hpc : Chat.pc _ = _ |- _ => rewrite Hpc in * end.
  all: clear Hreg Hnd Hinv; simpl in *.
  all: try (split; [intros Hin; apply Hb in Hin; lia|done]).
  all: intuition (subst; try congruence; try lia).
Qed.

Lemma I_bound_step l st st' :
  Chat.Inv st -> Chat.step l st = Some st' ->
  forall w, w ∈ Chat.active_connections (Chat.manager st') ->
            w < length (Chat.handlers st').
Proof.
  intros Hinv Hs. pose proof (Chat.I_nodup _ Hinv) as Hnd.
  pose proof (Chat.I_bound _ Hinv) as Hb.
  destruct l; chat_inv Hs.
  all: intros w' Hin; rewrite ?length_alter, ?length_app; simpl.
  all: repeat match goal with
         | Hr : Chat.list_remove _ _ = Some _ |- _ =>
             apply (list_remove_Some _ _ _ Hnd) in Hr as (_ & ? & Hiff);
             apply Hiff in Hin as [Hin _]
         end.
  all: try (apply Hb in Hin; lia).
  all: apply elem_of_app in Hin as [Hin|Hin%list_elem_of_singleton];
    [by apply Hb|subst; by eapply lookup_lt_Some].
Qed.

Lemma I_remove_step l st st' :
  Chat.Inv st -> Chat.step l st = Some st' ->
  forall w h, Chat.handlers st' !! w = Some h ->
              Chat.pc h <> Chat.finished Chat.RemoveRaised.
Proof.
  intros Hinv Hs. pose proof (Chat.I_remove _ Hinv) as Hrm.
  pose proof (Chat.I_registered _ Hinv) as Hreg.
  destruct l; chat_inv Hs.
  all: intros w' h' Hl; slot_inv; simpl; try done.
  all: try (by eapply Hrm).
  all: match goal with
       | Hr : Chat.list_remove _ _ = None,
         Hh : Chat.handlers _ !! ?w = Some ?h, Hpc : Chat.pc ?h = _ |- _ =>
           apply list_remove_None in Hr; destruct Hr;
           apply (Hreg _ _ Hh); by rewrite Hpc
       end.
Qed.

Lemma I_appended_step l st st' :
  Chat.Inv st -> Chat.step l st = Some st' ->
  forall w,
    w ∈ Chat.active_connections (Chat.manager st')
    <-> Chat.Appended w ∈ Chat.trace st' /\ (Chat.Removed w ∉ Chat.trace st').
Proof.
  intros Hinv Hs. pose proof (Chat.I_nodup _ Hinv) as Hnd.
  pose proof (Chat.I_appended _ Hinv) as Happ.
  pose proof (Chat.I_fresh _ Hinv) as Hfresh.
  destruct l; chat_inv Hs.
  all: intros w'; pose proof (Happ w') as Hw.
  all: repeat match goal with
         | Hr : Chat.list_remove _ _ = Some _ |- _ =>
             apply (list_remove_Some _ _ _ Hnd) in Hr as (_ & ? & Hiff);
             rewrite Hiff
         end.
  all: repeat match goal with
         | Hh : Chat.handlers _ !! ?w = Some ?h, Hpc : Chat.pc ?h = Chat.in_accept |- _ =>
             destruct (Hfresh _ _ Hh Hpc); clear Hh
         end.
  all: rewrite ?elem_of_app, ?list_elem_of_singleton; try done.
  all: clear Happ Hfresh Hnd Hinv.
  all: intuition (simplify_eq; try done).
Qed.

Lemma I_fresh_step l st st' :
  Chat.Inv st -> Chat.step l st = Some st' ->
  forall w h,
    Chat.handlers st' !! w = Some h -> Chat.pc h = Chat.in_accept ->
    (Chat.Appended w ∉ Chat.trace st') /\ (Chat.Removed w ∉ Chat.trace st').
Proof.
  intros Hinv Hs. pose proof (Chat.I_fresh _ Hinv) as Hfresh.
  pose proof (Chat.I_known _ Hinv) as Hk.
  destruct l; chat_inv Hs.
  all: intros w' h' Hl Hpc'; slot_inv; simpl in *; try done.
  all: try (destruct (Hfresh _ _ Hl Hpc'); split; intros Hin; trace_inv; done).
  all: split; intros Hin; [assert (length (Chat.handlers st) < length (Chat.handlers st));
                           [apply Hk; by left|lia]
                          |assert (length (Chat.handlers st) < length (Chat.handlers st));
                           [apply Hk; by right|lia]].
Qed.

Lemma I_known_step l st st' :
  Chat.Inv st -> Chat.step l st = Some st' ->
  forall w,
    Chat.Appended w ∈ Chat.trace st' \/ Chat.Removed w ∈ Chat.trace st' ->
    w < length (Chat.handlers st').
Proof.
  intros Hinv Hs. pose proof (Chat.I_known _ Hinv) as Hk.
  destruct l; chat_inv Hs.
  all: intros w' Hin; rewrite ?length_alter, ?length_app; simpl.
  all: destruct Hin as [Hin|Hin]; trace_inv.
  all: try (by eapply lookup_lt_Some).
  all: try (assert (w' < length (Chat.handlers st)) by (apply Hk; eauto); lia).
Qed.

Lemma chat_each_preceded_nil P : Chat.each_preceded P [].
Proof. intros [|??] ?? ?; done. Qed.

Lemma chat_each_preceded_snoc P tr o :
  Chat.each_preceded P tr -> P tr o -> Chat.each_preceded P (tr ++ [o]).
Proof.
  intros Htr Ho pre x post [(-> & -> & ->)|(post' & -> & ->)]%snoc_split; [done|].
  by eapply Htr.
Qed.

Lemma I_sent_step l st st' :
  Chat.Inv st -> Chat.step l st = Some st' ->
  Chat.each_preceded
    (fun pre x => forall w phase c message,
         x = Chat.SendText w phase c message ->
         Chat.Appended c ∈ pre /\ (Chat.Removed c ∉ pre)
         /\ (phase = Chat.Leaving -> c <> w))
    (Chat.trace st').
Proof.
  intros Hinv Hs. pose proof (Chat.I_nodup _ Hinv) as Hnd.
  pose proof (Chat.I_appended _ Hinv) as Happ.
  pose proof (Chat.I_fresh _ Hinv) as Hfresh.
  pose proof (Chat.I_registered _ Hinv) as Hreg.
  pose proof (Chat.I_sent _ Hinv) as HO.
  destruct l; chat_inv Hs; try done.
  all: repeat (apply chat_each_preceded_snoc; [|intros ? ? ? ? [=]; simplify_eq/=]);
    try done.
  all: match goal with
       | Hc : _ !! _ = Some ?c |- _ =>
           apply list_elem_of_lookup_2 in Hc; pose proof (Happ c) as Hw
       end.
  all: repeat match goal with
         | Hr : Chat.list_remove _ _ = Some _ |- _ =>
             apply (list_remove_Some _ _ _ Hnd) in Hr as (_ & ? & Hiff)
         | Hc : _ ∈ ?r, Hiff : forall y, y ∈ ?r <-> _ |- _ => apply Hiff in Hc
         | Hh : Chat.handlers _ !! ?w = Some ?h, Hpc : Chat.pc ?h = Chat.in_accept |- _ =>
             destruct (Hfresh _ _ Hh Hpc); clear Hh
         | Hh : Chat.handlers _ !! ?w = Some ?h, Hpc : Chat.pc ?h = _ |- _ =>
             pose proof (Hreg _ _ Hh) as Hrw; rewrite Hpc in Hrw; simpl in Hrw;
             clear Hh
         end.
  all: rewrite ?elem_of_app, ?list_elem_of_singleton in *.
  all: clear Happ Hfresh Hnd Hinv Hreg HO.
  all: try (intuition (simplify_eq; try done); fail).
  all: split_and!; [tauto..|]; intros _ ->.
  all: match goal with
       | Hc : Chat.Appended _ ∈ _ /\ _ |- _ => apply Hw, Hrw in Hc; done
       end.
Qed.

Lemma Inv_reachable st : Chat.reachable st -> Chat.Inv st.
Proof.
  apply (chat_reachable_invariant Chat.Inv).
  - split; simpl; try done.
    all: try apply chat_each_preceded_nil.
    all: try (by constructor).
    all: try (by intros w ?%elem_of_nil).
    all: try (by intros w [?%elem_of_nil|?%elem_of_nil]).
    intros w. split; [by intros ?%elem_of_nil|by intros [?%elem_of_nil _]].
  - intros st0 l st1 _ Hinv Hs. split.
    + by eapply I_nodup_step.
    + by eapply I_registered_step.
    + by eapply I_bound_step.
    + by eapply I_remove_step.
    + by eapply I_appended_step.
    + by eapply I_fresh_step.
    + by eapply I_known_step.
    + by eapply I_sent_step.
Qed.

Lemma resume_in_send_text st w h phase message index :
  Chat.handlers st !! w = Some h ->
  Chat.pc h = Chat.in_send_text phase message index ->
  Chat.step (Chat.Resume w Chat.Done) st
  = Some (Chat.broadcast w phase message index st).
Proof.
  intros Hh Hpc. simpl.
  unfold Chat.websocket_endpoint. rewrite Hh, Hpc. by destruct phase.
Qed.

(** The sends of one [broadcast] that nothing interrupts. *)
Lemma uninterrupted_broadcast n : forall st w h phase message index,
  Chat.handlers st !! w = Some h ->
  Chat.pc h = Chat.in_send_text phase message index ->
  length (Chat.active_connections (Chat.manager st)) = index + n ->
  exists st',
    Chat.run (replicate (S n) (Chat.Resume w Chat.Done)) st = Some st'
    /\ Chat.manager st' = Chat.manager st
    /\ Chat.trace st'
       = Chat.trace st
         ++ ((fun c => Chat.SendText w phase c message)
               <$> drop index (Chat.active_connections (Chat.manager st)))
    /\ Chat.handlers st' !! w
       = Some {| Chat.client_id := Chat.client_id h;
                 Chat.pc := match phase with
                            | Chat.Leaving => Chat.finished Chat.Returned
                            | _ => Chat.in_receive_text
                            end |}
    /\ forall w', w' <> w -> Chat.handlers st' !! w' = Chat.handlers st !! w'.
Proof.
  induction n as [|n IH]; intros st w h phase message index Hh Hpc Hlen.
  - exists (Chat.after_broadcast w phase st). split.
    + change (replicate 1 (Chat.Resume w Chat.Done)) with [Chat.Resume w Chat.Done].
      unfold Chat.run. rewrite (resume_in_send_text _ _ _ _ _ _ Hh Hpc).
      unfold Chat.broadcast. by rewrite lookup_ge_None_2 by lia.
    + rewrite drop_ge by lia. unfold Chat.after_broadcast.
      destruct phase; simpl; split_and!; try done.
      all: try (by rewrite app_nil_r).
      all: try (by rewrite list_lookup_alter_eq, Hh).
      all: intros; by rewrite list_lookup_alter_ne.
  - destruct (lookup_lt_is_Some_2 (Chat.active_connections (Chat.manager st)) index)
      as [c Hc]; [lia|].
    change (replicate (S (S n)) (Chat.Resume w Chat.Done))
      with (Chat.Resume w Chat.Done :: replicate (S n) (Chat.Resume w Chat.Done)).
    cbn [Chat.run]. rewrite (resume_in_send_text _ _ _ _ _ _ Hh Hpc).
    unfold Chat.broadcast at 1. rewrite Hc.
    set (st1 := Chat.record _ _).
    destruct (IH st1 w {| Chat.client_id := Chat.client_id h;
                          Chat.pc := Chat.in_send_text phase message (S index) |}
                phase message (S index))
      as (st' & Hrun & Hm & Htr & Hw & Hother).
    + subst st1. simpl. by rewrite list_lookup_alter_eq, Hh.
    + done.
    + subst st1. simpl. lia.
    + exists st'. split; [exact Hrun|]. subst st1. simpl in *. split_and!.
      * done.
      * rewrite Htr, <- app_assoc. simpl. by rewrite (drop_S _ c index).
      * done.
      * intros w' Hne. rewrite Hother by done. by rewrite list_lookup_alter_ne.
Qed.

Lemma chat_run_app ls st st1 :
  Chat.run ls st = Some st1 ->
  forall ls' st', Chat.run ls' st1 = Some st' -> Chat.run (ls ++ ls') st = Some st'.
Proof.
  revert st. induction ls as [|l ls IH]; intros st; simpl.
  - by intros [= ->].
  - destruct (Chat.step l st); [|done]. intros ? ? ? ?. by apply IH.
Qed.

(** X13. A [broadcast] that nothing interrupts and in which no send raises
    reaches every connection once, in the order of the list: a message a
    client sends goes to all of [active_connections], the sender included,
    and the list is unchanged; a new client is appended at the end and its
    "joined" message goes to all, itself last. *)
Theorem uninterrupted_broadcast_reaches_everyone st w h :
  Chat.handlers st !! w = Some h ->
  (Chat.pc h = Chat.in_receive_text ->
   forall data, exists st',
     Chat.run (Chat.Resume w (Chat.Text data)
               :: replicate (length (Chat.active_connections (Chat.manager st)))
                    (Chat.Resume w Chat.Done)) st = Some st'
     /\ Chat.manager st' = Chat.manager st
     /\ Chat.trace st'
        = Chat.trace st
          ++ ((fun c => Chat.SendText w Chat.Relaying c
                          (Chat.said (Chat.client_id h) data))
                <$> Chat.active_connections (Chat.manager st))
     /\ Chat.handlers st' !! w = Some h)
  /\ (Chat.pc h = Chat.in_accept ->
      exists st',
        Chat.run (replicate
                    (2 + length (Chat.active_connections (Chat.manager st)))
                    (Chat.Resume w Chat.Done)) st = Some st'
        /\ Chat.active_connections (Chat.manager st')
           = Chat.active_connections (Chat.manager st) ++ [w]
        /\ Chat.trace st'
           = Chat.trace st ++ [Chat.Appended w]
             ++ ((fun c => Chat.SendText w Chat.Joining c
                             (Chat.joined (Chat.client_id h)))
                   <$> (Chat.active_connections (Chat.manager st) ++ [w]))
        /\ Chat.handlers st' !! w
           = Some {| Chat.client_id := Chat.client_id h;
                     Chat.pc := Chat.in_receive_text |}).
Proof.
  intros Hh. split.
  - intros Hpc data.
    destruct (Chat.active_connections (Chat.manager st)) as [|c l] eqn:Hl.
    + exists (Chat.set_pc w Chat.in_receive_text st). simpl.
      unfold Chat.websocket_endpoint, Chat.broadcast. rewrite Hh, Hpc, Hl. simpl.
      split_and!; try done; [by rewrite app_nil_r|].
      rewrite list_lookup_alter_eq, Hh. simpl. destruct h. simpl in *. by subst.
    + cbn [Chat.run].
      assert (Chat.step (Chat.Resume w (Chat.Text data)) st
              = Some (Chat.broadcast w Chat.Relaying
                        (Chat.said (Chat.client_id h) data) 0 st)) as ->.
      { simpl. unfold Chat.websocket_endpoint. by rewrite Hh, Hpc. }
      unfold Chat.broadcast. rewrite Hl. simpl lookup. cbv beta iota. cbn [length].
      set (st1 := Chat.record _ _).
      destruct (uninterrupted_broadcast (length l) st1 w
                  {| Chat.client_id := Chat.client_id h;
                     Chat.pc := Chat.in_send_text Chat.Relaying
                                  (Chat.said (Chat.client_id h) data) 1 |}
                  Chat.Relaying (Chat.said (Chat.client_id h) data) 1)
        as (st' & Hrun & Hm & Htr & Hw & _).
      * subst st1. simpl. by rewrite list_lookup_alter_eq, Hh.
      * done.
      * subst st1. simpl. by rewrite Hl.
      * exists st'. split; [exact Hrun|]. subst st1. simpl in *.
        rewrite Hl in *. split_and!; [by rewrite Hm|by rewrite Htr, <- app_assoc|].
        rewrite Hw. destruct h. simpl in *. by subst.
  - intros Hpc.
    change (2 + length (Chat.active_connections (Chat.manager st)))
      with (S (S (length (Chat.active_connections (Chat.manager st))))).
    cbn [replicate Chat.run].
    assert (Chat.step (Chat.Resume w Chat.Done) st
            = Some (Chat.broadcast w Chat.Joining (Chat.joined (Chat.client_id h)) 0
                      (Chat.record (Chat.Appended w)
                         (Chat.set_manager (Chat.connect w (Chat.manager st)) st))))
      as ->.
    { simpl. unfold Chat.websocket_endpoint. by rewrite Hh, Hpc. }
    unfold Chat.broadcast. simpl Chat.manager. simpl Chat.active_connections.
    destruct ((Chat.active_connections (Chat.manager st) ++ [w]) !! 0)
      as [c|] eqn:Hc.
    2: { apply lookup_ge_None in Hc. rewrite length_app in Hc. simpl in Hc. lia. }
    set (st1 := Chat.record _ _).
    destruct (uninterrupted_broadcast
                (length (Chat.active_connections (Chat.manager st))) st1 w
                {| Chat.client_id := Chat.client_id h;
                   Chat.pc := Chat.in_send_text Chat.Joining
                                (Chat.joined (Chat.client_id h)) 1 |}
                Chat.Joining (Chat.joined (Chat.client_id h)) 1)
      as (st' & Hrun & Hm & Htr & Hw & _).
    + subst st1. simpl. by rewrite list_lookup_alter_eq, Hh.
    + done.
    + subst st1. simpl. rewrite length_app. simpl. lia.
    + exists st'. split; [exact Hrun|]. subst st1. simpl in *. split_and!.
      * by rewrite Hm.
      * rewrite Htr, <- !app_assoc. simpl. do 2 f_equal.
        destruct (Chat.active_connections (Chat.manager st)); simpl in *;
          by simplify_eq.
      * done.
Qed.

(** X12. [active_connections] and the handlers agree, whatever the
    interleaving: the list has no duplicates, a handler's websocket is on
    it exactly from its [append] until its [finally] (and for good when the
    handler's first [broadcast] raised, which is outside the [try]), so
    [list.remove] in [disconnect] never raises [ValueError], and every
    websocket on the list belongs to a handler. *)
Theorem websocket_is_listed_while_served st w h :
  Chat.reachable st -> Chat.handlers st !! w = Some h ->
  NoDup (Chat.active_connections (Chat.manager st))
  /\ (w ∈ Chat.active_connections (Chat.manager st)
      <-> Chat.registered (Chat.pc h) = true)
  /\ Chat.pc h <> Chat.finished Chat.RemoveRaised
  /\ (forall c, c ∈ Chat.active_connections (Chat.manager st) ->
                is_Some (Chat.handlers st !! c)).
Proof.
  intros Hr Hh. pose proof (Inv_reachable _ Hr) as Hinv. split_and!.
  - apply (Chat.I_nodup _ Hinv).
  - by apply (Chat.I_registered _ Hinv).
  - by apply (Chat.I_remove _ Hinv _ _ Hh).
  - intros c Hc. apply lookup_lt_is_Some_2. by apply (Chat.I_bound _ Hinv).
Qed.

(** X14. Whatever the interleaving, a [broadcast] sends only to a
    websocket that is on the list at that moment: it was appended before
    and not removed before; and a handler never sends its own "left"
    message to its own websocket. *)
Theorem messages_go_to_listed_connections st pre w phase c message post :
  Chat.reachable st ->
  Chat.trace st = pre ++ Chat.SendText w phase c message :: post ->
  Chat.Appended c ∈ pre /\ (Chat.Removed c ∉ pre)
  /\ (phase = Chat.Leaving -> c <> w).
Proof.
  intros Hr Htr. pose proof (Inv_reachable _ Hr) as Hinv.
  by eapply (Chat.I_sent _ Hinv).
Qed.

Lemma two_clients_run : Chat.run two_clients Chat.init = Some (chat_after two_clients).
Proof. vm_compute. reflexivity. Qed.

Lemma chat_reachable_run ls st : Chat.run ls Chat.init = Some st -> Chat.reachable st.
Proof. intros Hls. by exists ls. Qed.

Lemma websocket_is_listed_while_served_witness :
  Chat.reachable (chat_after two_clients)
  /\ NoDup (Chat.active_connections (Chat.manager (chat_after two_clients)))
  /\ 1 ∈ Chat.active_connections (Chat.manager (chat_after two_clients)).
Proof.
  assert (Hr := chat_reachable_run _ _ two_clients_run). split; [exact Hr|].
  destruct (websocket_is_listed_while_served (chat_after two_clients) 1
              {| Chat.client_id := 8; Chat.pc := Chat.in_receive_text |} Hr)
    as (H1 & H2 & _); [vm_compute; reflexivity|].
  split; [exact H1|]. apply H2. reflexivity.
Defined.

Lemma uninterrupted_broadcast_reaches_everyone_witness :
  exists st',
    Chat.run [Chat.Resume 1 (Chat.Text (Py.lit "hi"));
              Chat.Resume 1 Chat.Done; Chat.Resume 1 Chat.Done]
      (chat_after two_clients) = Some st'
    /\ Chat.trace st'
       = Chat.trace (chat_after two_clients)
         ++ [Chat.SendText 1 Chat.Relaying 0 (Chat.said 8 (Py.lit "hi"));
             Chat.SendText 1 Chat.Relaying 1 (Chat.said 8 (Py.lit "hi"))].
Proof.
  destruct (proj1 (uninterrupted_broadcast_reaches_everyone (chat_after two_clients) 1
                     {| Chat.client_id := 8; Chat.pc := Chat.in_receive_text |}
                     eq_refl) eq_refl (Py.lit "hi"))
    as (st' & H1 & _ & H2 & _).
  exists st'. exact (conj H1 H2).
Defined.

Lemma messages_go_to_listed_connections_witness :
  Chat.reachable (chat_after two_clients)
  /\ Chat.Appended 0
     ∈ [Chat.Appended 0; Chat.SendText 0 Chat.Joining 0 (Chat.joined 7);
        Chat.Appended 1].
Proof.
  assert (Hr := chat_reachable_run _ _ two_clients_run). split; [exact Hr|].
  refine (proj1 (messages_go_to_listed_connections (chat_after two_clients) _ 1
                   Chat.Joining 0 (Chat.joined 8)
                   [Chat.SendText 1 Chat.Joining 1 (Chat.joined 8)] Hr _)).
  vm_compute. reflexivity.
Defined.

(** ** [SimpleLLM] *)

Lemma chats_history calls : forall llm,
  SimpleLLM.conversation_history (fst (SimpleLLM.chats calls llm))
  = SimpleLLM.conversation_history llm ++ flat_map SimpleLLM.turns calls
  /\ SimpleLLM.model (fst (SimpleLLM.chats calls llm)) = SimpleLLM.model llm
  /\ SimpleLLM.system_prompt (fst (SimpleLLM.chats calls llm))
     = SimpleLLM.system_prompt llm.
Proof.
  induction calls as [|[m r] xs IH]; intros llm; simpl.
  - by rewrite app_nil_r.
  - unfold SimpleLLM.chat. destruct r as [reply|e]; simpl.
    all: match goal with
         | |- context [SimpleLLM.chats ?ys ?l] =>
             pose proof (IH l) as (H1 & H2 & H3); destruct (SimpleLLM.chats ys l)
         end.
    all: simpl in *; rewrite H1, H2, H3; by rewrite <- !app_assoc.
Qed.

Lemma chats_requests calls : forall llm i user_message response,
  calls !! i = Some (user_message, response) ->
  snd (SimpleLLM.chats calls llm) !! i
  = Some {| SimpleLLM.req_model := SimpleLLM.model llm;
            SimpleLLM.contents :=
              SimpleLLM.preamble llm
              ++ SimpleLLM.conversation_history llm
              ++ flat_map SimpleLLM.turns (take i calls)
              ++ [SimpleLLM.user_turn user_message];
            SimpleLLM.config :=
              {| SimpleLLM.max_output_tokens := 200;
                 SimpleLLM.temperature := (7, -1)%Z |} |}.
Proof.
  induction calls as [|[m r] xs IH]; intros llm i user_message response Hi;
    [done|].
  simpl. unfold SimpleLLM.chat. destruct r as [reply|e]; simpl.
  all: match goal with
       | |- context [SimpleLLM.chats ?ys ?l] =>
           pose proof (IH l) as IH'; destruct (SimpleLLM.chats ys l)
       end.
  all: destruct i as [|i]; simpl in *; [by simplify_eq|].
  all: rewrite (IH' i user_message response Hi); unfold SimpleLLM.preamble; simpl.
  all: by rewrite <- !app_assoc.
Qed.

(** X15. Calls of [chat] one after the other: the history grows by the
    user's turn and, when [generate_content] answered, the model's turn (a
    call that raised leaves the user's turn alone in the history); each
    request carries the model name, the two turns of the preamble, the
    whole history before the call and the new user turn; and after
    [reset()] the history is that of the calls since. *)
Theorem sequential_chats_build_the_history calls llm :
  SimpleLLM.conversation_history (fst (SimpleLLM.chats calls llm))
  = SimpleLLM.conversation_history llm ++ flat_map SimpleLLM.turns calls
  /\ length (snd (SimpleLLM.chats calls llm)) = length calls
  /\ (forall i user_message response,
        calls !! i = Some (user_message, response) ->
        exists request,
          snd (SimpleLLM.chats calls llm) !! i = Some request
          /\ SimpleLLM.req_model request = SimpleLLM.model llm
          /\ SimpleLLM.contents request
             = SimpleLLM.preamble llm
               ++ SimpleLLM.conversation_history llm
               ++ flat_map SimpleLLM.turns (take i calls)
               ++ [SimpleLLM.user_turn user_message])
  /\ SimpleLLM.conversation_history
       (fst (SimpleLLM.chats calls (SimpleLLM.reset llm)))
     = flat_map SimpleLLM.turns calls.
Proof.
  split_and!.
  - apply chats_history.
  - revert llm. induction calls as [|[m r] xs IH]; intros llm; simpl; [done|].
    unfold SimpleLLM.chat. destruct r as [reply|e]; simpl.
    all: match goal with
         | |- context [SimpleLLM.chats ?ys ?l] =>
             pose proof (IH l) as IH'; destruct (SimpleLLM.chats ys l)
         end.
    all: simpl in *; by rewrite IH'.
  - intros i user_message response Hi. eexists.
    split; [by eapply chats_requests|]. by split.
  - by destruct (chats_history calls (SimpleLLM.reset llm)) as (-> & _).
Qed.

(** * The reset and the starts, with the queues *)

Section Started.
Context `{Base64}.




End Started.

Section Revised.
Context `{Base64}.


(** C1, as the code has it. A reset reads, in the trace: [stop()] returns
    on the old session [j], the new session [k = j + 1] is constructed,
    its [start()] returns (its receive loop runs from the construction on),
    the old pump pair is cancelled, the new one is created, and
    [session.reset.done] is sent; nothing a task of an earlier session
    sends is delivered after that. The pumps of a session read no queue but
    their own: a step of a pump changes no other session object, and what
    is sent under a session's identity is, in order, what that session's
    own receive loop enqueued, every [response.audio.delta] being the
    encoding of a chunk of a message that very session received. *)
Theorem reset_supersedes_old_session key st pre k d post :
  reachable key st ->
  trace st = pre ++ Send (Some k) session_reset_done d :: post ->
  (exists j before during,
     k = S j
     /\ pre = before ++ [Stopped j; Constructed k] ++ during
              ++ [Started k; Cancelled j; Spawned k])
  /\ (forall k' ev, Send (Some k') ev true ∈ post -> k <= k')
  /\ (forall i o st1 st2,
        _handle_audio i o st1 = Some st2 \/ _handle_transcripts i o st1 = Some st2 ->
        forall i', i' <> i -> heap st2 !! i' = heap st1 !! i')
  /\ (forall i s,
        heap st !! i = Some s ->
        (exists dropped,
           enqueued_transcripts i (trace st)
           = sent_transcripts i (trace st) ++ dropped
             ++ _transcript_queue (gemini (self s))
           /\ length dropped <= 1)
        /\ enqueued_audio i (trace st)
           = dequeued_audio i (trace st) ++ _audio_queue (gemini (self s))
        /\ sent_deltas i (trace st)
           = b64encode <$> chunks (dequeued_audio i (trace st)))
  /\ (forall i delta d',
        Send (Some i) (response_audio_delta delta) d' ∈ trace st ->
        exists response chunk,
          Received i response ∈ trace st
          /\ Some chunk ∈ audio_puts response /\ delta = b64encode chunk).
Proof.
  intros Hr Htr. pose proof (InvP_reachable _ _ Hr) as HP.
  pose proof (InvQ_reachable _ _ Hr) as HQ. split_and!.
  - destruct (P_shape _ HP _ _ _ Htr k d eq_refl) as (pre' & j & -> & ->).
    assert (Constructed (S j) ∈ pre') as Hc.
    { apply (P_started _ HP pre' (Started (S j))
               ([Cancelled j; Spawned (S j); Send (Some (S j)) session_reset_done d]
                ++ post)); [|done].
      rewrite Htr, <- !app_assoc. done. }
    apply list_elem_of_split in Hc as (pre1 & during & ->).
    assert (trace st
            = pre1 ++ Constructed (S j)
                :: (during ++ [Started (S j); Cancelled j; Spawned (S j);
                               Send (Some (S j)) session_reset_done d] ++ post))
      as Htr'.
    { rewrite Htr, <- !app_assoc. done. }
    destruct (P_teardown _ HP _ _ _ Htr' j eq_refl) as [before ->].
    exists j, before, during. split; [done|]. by rewrite <- !app_assoc.
  - intros k' ev Hin.
    destruct (each_preceded_later _ _ _ _ _ _ (P_order _ HP) Htr Hin)
      as (mid & post' & _ & Hk).
    apply (Hk k' ev eq_refl k d). apply elem_of_app. right. left.
  - intros i o st1 st2 Hs. by eapply pump_reads_own_queues.
  - intros i s Hs. split_and!.
    + rewrite (Q_transcripts _ HQ _ _ Hs).
      destruct (Q_sent _ HQ _ _ Hs) as [->|(item & t & -> & _)].
      * exists []. split; [done|simpl; lia].
      * exists [item]. split; [by rewrite <- app_assoc|simpl; lia].
    + by apply (Q_audio _ HQ).
    + by apply (Q_deltas _ HQ).
  - intros i delta d' Hin.
    assert (delta ∈ sent_deltas i (trace st)) as Hd.
    { unfold sent_deltas. apply list_elem_of_omap.
      exists (Send (Some i) (response_audio_delta delta) d'). split; [done|].
      simpl. by rewrite bool_decide_eq_true_2. }
    rewrite (Q_deltas _ HQ) in Hd.
    apply list_elem_of_fmap in Hd as (chunk & -> & Hc).
    unfold chunks in Hc. apply list_elem_of_omap in Hc as (item & Hitem & Hsome).
    simpl in Hsome. subst item.
    assert (heap st !! i <> None) as Hi.
    { intros Hnone. apply lookup_ge_None in Hnone.
      destruct (fresh_projections st i (InvA_reachable _ _ Hr) Hnone)
        as (_ & _ & Hdq & _).
      rewrite Hdq in Hitem. by apply elem_of_nil in Hitem. }
    destruct (heap st !! i) as [s|] eqn:Hs; [|done].
    assert (Some chunk ∈ enqueued_audio i (trace st)) as Henq.
    { rewrite (Q_audio _ HQ _ _ Hs). apply elem_of_app. by left. }
    unfold enqueued_audio in Henq.
    apply list_elem_of_In, in_flat_map in Henq as (response & Hm & Hput).
    exists response, chunk. split_and!; [|by apply list_elem_of_In|done].
    apply list_elem_of_In in Hm. unfold messages in Hm.
    apply list_elem_of_omap in Hm as (o & Ho & Hr').
    destruct o; try done. case_bool_decide; [|done]. by simplify_eq.
Qed.

End Revised.

Lemma strip_truthy text :
  Py.truthy text && Py.truthy (Py.strip text) = Py.truthy (Py.strip text).
Proof. destruct text; [done|by simpl]. Qed.

Lemma transcription_puts_kept who response :
  transcription_puts who
    (match types.server_content response with
     | Some content =>
         match who with
         | user => types.input_transcription content
         | assistant => types.output_transcription content
         end
     | None => None
     end)
  = kept_transcript who response.
Proof.
  unfold kept_transcript, fragment_of, transcription_puts.
  destruct (types.server_content response) as [content|]; [|done].
  destruct (match who with user => _ | assistant => _ end) as [[[text|]]|];
    simpl; try done.
  by rewrite strip_truthy.
Qed.

Lemma flat_map_part_puts ps :
  flat_map part_puts ps = Some <$> List.filter Py.truthy (omap part_data ps).
Proof.
  induction ps as [|part ps IH]; simpl; [done|]. rewrite IH.
  unfold part_puts, part_data.
  destruct (types.inline_data part) as [[[d|]]|]; simpl; try done.
  by destruct d.
Qed.

(** X11. What the receive loop enqueues for one server message, exactly:
    on the transcript queue the stripped fragment of the user, then that of
    the assistant, each only if something is left of it; on the audio
    queue the data of the parts that have data and whose data is not
    empty, in the order of the parts, followed by the end-of-turn sentinel
    when the message completes the turn. *)
Theorem receive_loop_puts_in_order (response : types.LiveServerMessage) :
  transcript_puts response
  = kept_transcript user response ++ kept_transcript assistant response
  /\ audio_puts response
     = (Some <$> message_chunks response)
       ++ (if turn_completed response then [None] else [])
  /\ Forall (fun chunk => chunk <> []) (message_chunks response)
  /\ length (kept_transcript user response) <= 1
  /\ length (kept_transcript assistant response) <= 1.
Proof.
  split_and!.
  - rewrite <- !transcription_puts_kept. unfold transcript_puts.
    by destruct (types.server_content response).
  - unfold audio_puts, message_chunks, turn_completed, model_turn_puts,
      turn_complete_puts.
    destruct (types.server_content response) as [content|]; [|done].
    destruct (types.model_turn content) as [[[ps|]]|]; simpl.
    + rewrite flat_map_part_puts. by destruct (types.turn_complete content) as [[]|].
    + by destruct (types.turn_complete content) as [[]|].
    + by destruct (types.turn_complete content) as [[]|].
  - unfold message_chunks.
    destruct (types.server_content response) as [content|]; [|done].
    destruct (types.model_turn content) as [[[ps|]]|]; try done. simpl.
    apply List.Forall_forall. intros chunk [_ Ht]%filter_In. by destruct chunk.
  - unfold kept_transcript. destruct (fragment_of user response); simpl; [|lia].
    destruct (Py.truthy _); simpl; lia.
  - unfold kept_transcript. destruct (fragment_of assistant response); simpl; [|lia].
    destruct (Py.truthy _); simpl; lia.
Qed.


Lemma reset_supersedes_old_session_witness :
  reachable Demo.key (Demo.state_after Demo.reset_done)
  /\ exists j before during,
       1 = S j
       /\ [Constructed 0; Started 0; Send (Some 0) session_ready true; Spawned 0;
           Stopped 0; Constructed 1; Received 1 Demo.hello;
           Started 1; Cancelled 0; Spawned 1]
          = before ++ [Stopped j; Constructed 1] ++ during
            ++ [Started 1; Cancelled j; Spawned 1].
Proof.
  assert (Hr := demo_reachable _ _ reset_done_run). split; [exact Hr|].
  refine (proj1 (reset_supersedes_old_session Demo.key _ _ 1 true _ Hr _)).
  vm_compute. reflexivity.
Defined.
